(** * rombp: the IPS decoder and the patch controller

    A shallow embedding of [src/ips.c] and of the controller
    ([execute_patch] and its helpers), over a small model of C stdio
    streams.  Streams are passed explicitly: every C function that takes
    [FILE*] arguments becomes a function that takes the stream states and
    returns the new ones next to its C return value. *)

From Stdlib Require Import ZArith Bool Lia.
From Stdlib.Strings Require Import Byte.
From stdpp Require Import base list.

Local Open Scope Z_scope.

(** ** Bytes and sizes *)

Abbreviation byte := Byte.byte.

Definition byte_val (b : byte) : Z := Z.of_N (Byte.to_N b).

Definition byte_of_Z (z : Z) : byte :=
  match Byte.of_N (Z.to_N (z mod 256)) with
  | Some b => b
  | None => Byte.x00
  end.

(** [sizeof]-style length of a byte buffer, as the [size_t] the code uses. *)
Definition size (l : list byte) : Z := Z.of_nat (length l).

Fixpoint bytes_eqb (a b : list byte) : bool :=
  match a, b with
  | [], [] => true
  | x :: a', y :: b' => Byte.eqb x y && bytes_eqb a' b'
  | _, _ => false
  end.

(** ** C stdio streams

    A stream is the content of the file it is open on, the position
    indicator, the end-of-file and error indicators, and the schedule of
    what the operating system will answer to the calls still to come: one
    outcome per call, and no entry left means that every later call
    succeeds.  [IoFail k] makes the call fail once [k] bytes went through;
    a call that asks for no more than [k] bytes is not affected.
    [f_failures] is a ghost counter of the calls that failed; the program
    cannot read it.  Streams are unbuffered in this model: a byte written
    is in the file when [fwrite] returns. *)

Inductive io_outcome : Type :=
  | IoOk
  | IoFail (k : nat).

Record FILE : Type := mkFILE {
  f_data : list byte;
  f_pos : Z;
  f_eof : bool;
  f_err : bool;
  f_faults : list io_outcome;
  f_failures : nat
}.

(** The stream [fopen(path, "r")] returns on a file holding [data]. *)
Definition fopen_r (data : list byte) (faults : list io_outcome) : FILE :=
  mkFILE data 0 false false faults 0.

(** The stream [fopen(path, "w+")] returns: the file is created or
    truncated to length zero. *)
Definition fopen_w (faults : list io_outcome) : FILE :=
  mkFILE [] 0 false false faults 0.

Definition next_outcome (f : FILE) : io_outcome :=
  match f_faults f with
  | [] => IoOk
  | o :: _ => o
  end.

Definition later_outcomes (f : FILE) : list io_outcome :=
  match f_faults f with
  | [] => []
  | _ :: s => s
  end.

(** [Some k]: the call, asking for [n] bytes, fails after [k < n] bytes. *)
Definition fails_after (o : io_outcome) (n : Z) : option nat :=
  match o with
  | IoOk => None
  | IoFail k => if Z.of_nat k <? n then Some k else None
  end.

(** The bytes from the position indicator to the end of the file. *)
Definition remaining (f : FILE) : list byte :=
  drop (Z.to_nat (f_pos f)) (f_data f).

(** [fread(buf, 1, n, f)]: the bytes stored in [buf] (their number is the
    return value) and the stream afterwards.  A short count comes with the
    error indicator (the device failed) or with the end-of-file indicator
    (the file ended). *)
Definition fread (n : Z) (f : FILE) : list byte * FILE :=
  match fails_after (next_outcome f) n with
  | Some k =>
      let got := take k (remaining f) in
      (got, mkFILE (f_data f) (f_pos f + size got) (f_eof f) true
                   (later_outcomes f) (S (f_failures f)))
  | None =>
      let got := take (Z.to_nat n) (remaining f) in
      (got, mkFILE (f_data f) (f_pos f + size got)
                   (f_eof f || (size got <? n)) (f_err f)
                   (later_outcomes f) (f_failures f))
  end.

(** The file after [bs] is written at offset [pos]: bytes in place are
    overwritten, a write that starts past the end leaves a hole that reads
    as zero bytes (POSIX), and a write of no byte changes nothing. *)
Definition pwrite (data : list byte) (pos : Z) (bs : list byte) : list byte :=
  match bs with
  | [] => data
  | _ =>
      let p := Z.to_nat pos in
      take p data ++ replicate (p - length data)%nat Byte.x00
        ++ bs ++ drop (p + length bs)%nat data
  end.

(** [fwrite(buf, 1, n, f)] with [bs] the [n] bytes of [buf]: the number of
    bytes written and the stream afterwards. *)
Definition fwrite (bs : list byte) (f : FILE) : Z * FILE :=
  match fails_after (next_outcome f) (size bs) with
  | Some k =>
      let done := take k bs in
      (size done, mkFILE (pwrite (f_data f) (f_pos f) done) (f_pos f + size done)
                         (f_eof f) true (later_outcomes f) (S (f_failures f)))
  | None =>
      (size bs, mkFILE (pwrite (f_data f) (f_pos f) bs) (f_pos f + size bs)
                       (f_eof f) (f_err f) (later_outcomes f) (f_failures f))
  end.

(** [fseek(f, offset, SEEK_SET)]: 0 and the stream repositioned (the
    end-of-file indicator is cleared), or -1 and the stream where it was. *)
Definition fseek (offset : Z) (f : FILE) : Z * FILE :=
  match next_outcome f with
  | IoFail _ =>
      (-1, mkFILE (f_data f) (f_pos f) (f_eof f) (f_err f)
                  (later_outcomes f) (S (f_failures f)))
  | IoOk =>
      (0, mkFILE (f_data f) offset false (f_err f)
                 (later_outcomes f) (f_failures f))
  end.

(** [fstat(fileno(f), &st)]: [st.st_size], or [None] when the call returns
    -1.  [fileno] itself does not fail on an open stream. *)
Definition fstat_size (f : FILE) : option Z * FILE :=
  match next_outcome f with
  | IoFail _ =>
      (None, mkFILE (f_data f) (f_pos f) (f_eof f) (f_err f)
                    (later_outcomes f) (S (f_failures f)))
  | IoOk =>
      (Some (size (f_data f)),
       mkFILE (f_data f) (f_pos f) (f_eof f) (f_err f)
              (later_outcomes f) (f_failures f))
  end.

Definition ferror (f : FILE) : bool := f_err f.
Definition feof (f : FILE) : bool := f_eof f.

(** ** Result codes *)

Inductive rombp_patch_err : Type :=
  | PATCH_OK
  | PATCH_ERR_IO
  | PATCH_UNKNOWN_TYPE
  | PATCH_FAILED_TO_START
  | PATCH_INVALID_OUTPUT_SIZE
  | PATCH_INVALID_OUTPUT_CHECKSUM.

Inductive rombp_hunk_iter_status : Type :=
  | HUNK_NONE
  | HUNK_NEXT
  | HUNK_DONE
  | HUNK_ERR_IO.

Inductive rombp_patch_type : Type :=
  | PATCH_TYPE_UNKNOWN
  | PATCH_TYPE_IPS
  | PATCH_TYPE_BPS.

(** The enumerators are declared in a header that is not among the sources.
    The code tests an iteration status with [rc < 0] to recognise
    [HUNK_ERR_IO] and asserts that what is neither negative nor
    [HUNK_DONE] is [HUNK_NEXT], so [HUNK_ERR_IO] is the negative one. *)
Definition status_negative (rc : rombp_hunk_iter_status) : bool :=
  match rc with
  | HUNK_ERR_IO => true
  | _ => false
  end.

Definition patch_err_eqb (a b : rombp_patch_err) : bool :=
  match a, b with
  | PATCH_OK, PATCH_OK
  | PATCH_ERR_IO, PATCH_ERR_IO
  | PATCH_UNKNOWN_TYPE, PATCH_UNKNOWN_TYPE
  | PATCH_FAILED_TO_START, PATCH_FAILED_TO_START
  | PATCH_INVALID_OUTPUT_SIZE, PATCH_INVALID_OUTPUT_SIZE
  | PATCH_INVALID_OUTPUT_CHECKSUM, PATCH_INVALID_OUTPUT_CHECKSUM => true
  | _, _ => false
  end.

(** ** ips.c *)

Definition BUF_SIZE : Z := 32768.

(** The [while (1)] of [copy_file].  An iteration goes round again only
    after a full buffer was read, so [fuel] counts full buffers. *)
Fixpoint copy_file_loop (fuel : nat) (input_file_size total_read : Z)
    (input_file output_file : FILE) : option (Z * FILE * FILE) :=
  match fuel with
  | O => None
  | S fuel' =>
      let '(buf, input_file) := fread BUF_SIZE input_file in
      let nread := size buf in
      let total_read := total_read + nread in
      if nread <? BUF_SIZE then
        if total_read <? input_file_size
        then Some (-1, input_file, output_file)
        else Some (0, input_file, output_file)
      else
        let '(nwritten, output_file) := fwrite buf output_file in
        if nwritten <? nread
        then Some (-1, input_file, output_file)
        else copy_file_loop fuel' input_file_size total_read
               input_file output_file
  end.

Definition copy_fuel (input_file : FILE) : nat :=
  S (Z.to_nat (size (remaining input_file) / BUF_SIZE)).

Definition copy_file (input_file output_file : FILE)
    : option (Z * FILE * FILE) :=
  match fstat_size input_file with
  | (None, input_file) => Some (-1, input_file, output_file)
  | (Some input_file_size, input_file) =>
      copy_file_loop (copy_fuel input_file) input_file_size 0
        input_file output_file
  end.

Definition ips_start (input_file output_file : FILE)
    : option (rombp_patch_err * FILE * FILE) :=
  match copy_file input_file output_file with
  | None => None
  | Some (rc, input_file, output_file) =>
      if negb (rc =? 0)
      then Some (PATCH_ERR_IO, input_file, output_file)
      else Some (PATCH_OK, input_file, output_file)
  end.

Definition IPS_EXPECTED_MARKER : list byte :=
  [Byte.x50; Byte.x41; Byte.x54; Byte.x43; Byte.x48].

Definition IPS_MARKER_SIZE : Z := size IPS_EXPECTED_MARKER.

Definition HUNK_PREAMBLE_BYTE_SIZE : Z := 5.

(** [buf[i]] promoted to [int].  A buffer is modelled by the bytes [fread]
    stored in it; a slot [fread] did not fill reads as zero. *)
Definition at_index (buf : list byte) (i : nat) : Z :=
  byte_val (nth i buf Byte.x00).

Definition be_24bit_int (buf : list byte) : Z :=
  Z.lor (Z.lor (Z.land (Z.shiftl (at_index buf 0) 16) 0x00FF0000)
               (Z.land (Z.shiftl (at_index buf 1) 8) 0x0000FF00))
        (Z.land (at_index buf 2) 0x000000FF).

Definition be_16bit_int (buf : list byte) : Z :=
  Z.lor (Z.land (Z.shiftl (at_index buf 0) 8) 0xFF00)
        (Z.land (at_index buf 1) 0x00FF).

Definition RLE_PAYLOAD_BYTE_SIZE : Z := 3.

(** The return value, then [*rle_length] and [*rle_value], which are only
    meaningful when the return value is 0. *)
Definition ips_get_rle_payload (ips_file : FILE) : Z * Z * byte * FILE :=
  let '(buf, ips_file) := fread RLE_PAYLOAD_BYTE_SIZE ips_file in
  let nread := size buf in
  if (nread <? RLE_PAYLOAD_BYTE_SIZE) && ferror ips_file then
    (-1, 0, Byte.x00, ips_file)
  else if (nread <? RLE_PAYLOAD_BYTE_SIZE) && feof ips_file then
    (-1, 0, Byte.x00, ips_file)
  else
    (0, be_16bit_int buf, nth 2 buf Byte.x00, ips_file).

Record ips_hunk_header : Type := mk_hunk_header {
  h_offset : Z;
  h_length : Z
}.

(** [header] is the caller's struct; it is written only on [HUNK_NEXT]. *)
Definition ips_next_hunk_header (ips_file : FILE) (header : ips_hunk_header)
    : rombp_hunk_iter_status * ips_hunk_header * FILE :=
  let '(buf, ips_file) := fread HUNK_PREAMBLE_BYTE_SIZE ips_file in
  let nread := size buf in
  if (nread <? HUNK_PREAMBLE_BYTE_SIZE) && ferror ips_file then
    (HUNK_ERR_IO, header, ips_file)
  else if (nread <? HUNK_PREAMBLE_BYTE_SIZE) && feof ips_file then
    (HUNK_DONE, header, ips_file)
  else
    (HUNK_NEXT,
     mk_hunk_header (be_24bit_int buf) (be_16bit_int (drop 3 buf)),
     ips_file).

(** The [for] loop of [ips_write_rle_hunk], [n] iterations to go. *)
Fixpoint ips_write_rle_loop (n : nat) (rle_value : byte) (output_file : FILE)
    : Z * FILE :=
  match n with
  | O => (0, output_file)
  | S n' =>
      let '(nwritten, output_file) := fwrite [rle_value] output_file in
      if nwritten =? 0
      then (-1, output_file)
      else ips_write_rle_loop n' rle_value output_file
  end.

Definition ips_write_rle_hunk (output_file : FILE) (rle_hunk_length : Z)
    (rle_value : byte) : Z * FILE :=
  ips_write_rle_loop (Z.to_nat rle_hunk_length) rle_value output_file.

(** The [while (length_remaining > 0)] of [ips_write_hunk]. *)
Fixpoint ips_write_hunk_loop (fuel : nat) (length_remaining : Z)
    (ips_file output_file : FILE) : option (Z * FILE * FILE) :=
  match fuel with
  | O => None
  | S fuel' =>
      if length_remaining >? 0 then
        let amount_to_copy := Z.min BUF_SIZE length_remaining in
        let '(buf, ips_file) := fread amount_to_copy ips_file in
        let nread := size buf in
        if (nread <? amount_to_copy) && ferror ips_file then
          Some (-1, ips_file, output_file)
        else if (nread <? amount_to_copy) && feof ips_file then
          Some (-1, ips_file, output_file)
        else
          let '(nwritten, output_file) := fwrite buf output_file in
          if nwritten <? nread
          then Some (-1, ips_file, output_file)
          else ips_write_hunk_loop fuel' (length_remaining - nwritten)
                 ips_file output_file
      else Some (0, ips_file, output_file)
  end.

Definition write_hunk_fuel (hunk_length : Z) : nat :=
  S (S (Z.to_nat (hunk_length / BUF_SIZE))).

Definition ips_write_hunk (ips_file output_file : FILE) (hunk_length : Z)
    : option (Z * FILE * FILE) :=
  ips_write_hunk_loop (write_hunk_fuel hunk_length) hunk_length
    ips_file output_file.

(** The three streams of one apply. *)
Record files : Type := mk_files {
  input_stream : FILE;
  output_stream : FILE;
  patch_stream : FILE
}.

Definition ips_patch_hunk (hunk_header : ips_hunk_header) (fs : files)
    : option (Z * files) :=
  let '(rc, out) := fseek (h_offset hunk_header) (output_stream fs) in
  if rc =? -1 then
    Some (rc, mk_files (input_stream fs) out (patch_stream fs))
  else if h_length hunk_header =? 0 then
    let '(rc, rle_hunk_length, rle_value, ips) :=
      ips_get_rle_payload (patch_stream fs) in
    if rc <? 0 then
      Some (rc, mk_files (input_stream fs) out ips)
    else
      let '(rc, out) := ips_write_rle_hunk out rle_hunk_length rle_value in
      Some (if rc <? 0 then rc else 0, mk_files (input_stream fs) out ips)
  else
    match ips_write_hunk (patch_stream fs) out (h_length hunk_header) with
    | None => None
    | Some (rc, ips, out) =>
        Some (if rc <? 0 then rc else 0, mk_files (input_stream fs) out ips)
    end.

Definition ips_next (fs : files)
    : option (rombp_hunk_iter_status * files) :=
  let '(rc, hunk_header, ips) :=
    ips_next_hunk_header (patch_stream fs) (mk_hunk_header 0 0) in
  let fs := mk_files (input_stream fs) (output_stream fs) ips in
  if status_negative rc then Some (HUNK_ERR_IO, fs)
  else
    match rc with
    | HUNK_DONE => Some (HUNK_DONE, fs)
    | _ =>
        match ips_patch_hunk hunk_header fs with
        | None => None
        | Some (rc, fs) =>
            if rc <? 0 then Some (HUNK_ERR_IO, fs) else Some (HUNK_NEXT, fs)
        end
    end.

(** ** The controller *)

(** Modelled from the spec: [patch_verify_marker] lives in a source file
    that is not available.  The first bytes of the patch file must be the
    marker; a mismatch is the [PATCH_UNKNOWN_TYPE] signal, and a read the
    operating system fails is [PATCH_ERR_IO]. *)
Definition patch_verify_marker (patch_file : FILE) (expected_marker : list byte)
    (marker_size : Z) : rombp_patch_err * FILE :=
  let '(buf, patch_file) := fread marker_size patch_file in
  if (size buf <? marker_size) && ferror patch_file then
    (PATCH_ERR_IO, patch_file)
  else if bytes_eqb buf expected_marker then (PATCH_OK, patch_file)
  else (PATCH_UNKNOWN_TYPE, patch_file).

Definition ips_verify_marker (ips_file : FILE) : rombp_patch_err * FILE :=
  patch_verify_marker ips_file IPS_EXPECTED_MARKER IPS_MARKER_SIZE.

(** Modelled from the spec: the BPS marker is the four ASCII bytes [BPS1]
    (the BPS decoder is not among the sources). *)
Definition BPS_EXPECTED_MARKER : list byte :=
  [Byte.x42; Byte.x50; Byte.x53; Byte.x31].

(** Modelled from the spec: [bps_verify_marker] checks the first four bytes
    of the patch file against the BPS marker. *)
Definition bps_verify_marker (bps_file : FILE) : rombp_patch_err * FILE :=
  patch_verify_marker bps_file BPS_EXPECTED_MARKER (size BPS_EXPECTED_MARKER).

Definition detect_patch_type (patch_file : FILE) : rombp_patch_type * FILE :=
  let '(rc, patch_file) := ips_verify_marker patch_file in
  if patch_err_eqb rc PATCH_OK then (PATCH_TYPE_IPS, patch_file)
  else
    let '(rc, patch_file) := fseek 0 patch_file in
    if rc =? -1 then (PATCH_TYPE_UNKNOWN, patch_file)
    else
      let '(rc, patch_file) := bps_verify_marker patch_file in
      if patch_err_eqb rc PATCH_OK then (PATCH_TYPE_BPS, patch_file)
      else (PATCH_TYPE_UNKNOWN, patch_file).

(** The progress record.  Modelled from the spec: the struct is declared in
    a header that is not available; [hunk_count] is a [u64]. *)
Record rombp_patch_status : Type := mk_status {
  hunk_count : Z;
  iter_status : rombp_hunk_iter_status;
  err : rombp_patch_err;
  is_done : bool
}.

(** Modelled from the spec: [patch_status_init] is not among the sources; a
    fresh record counts no hunk, has no iteration status and no error, and
    is not done. *)
Definition patch_status_init : rombp_patch_status :=
  mk_status 0 HUNK_NONE PATCH_OK false.

Definition set_iter_status (s : rombp_patch_status)
    (st : rombp_hunk_iter_status) : rombp_patch_status :=
  mk_status (hunk_count s) st (err s) (is_done s).

Definition set_err (s : rombp_patch_status) (e : rombp_patch_err)
    : rombp_patch_status :=
  mk_status (hunk_count s) (iter_status s) e (is_done s).

Definition set_is_done (s : rombp_patch_status) : rombp_patch_status :=
  mk_status (hunk_count s) (iter_status s) (err s) true.

(** [local_status.hunk_count++] on the unsigned 64-bit counter. *)
Definition incr_hunk_count (s : rombp_patch_status) : rombp_patch_status :=
  mk_status ((hunk_count s + 1) mod 2 ^ 64) (iter_status s) (err s) (is_done s).

(** The shared record, as the sequence of the values stored in it so far,
    oldest first: the mutex makes each store and each read atomic, so the
    record goes through these values one after the other, and a reader
    sees the one stored last. *)
Abbreviation shared_status := (list rombp_patch_status).

(** Modelled from the spec: [patch_status_copy] is not among the sources;
    under the lock the writer overwrites the shared record with its local
    copy.  Neither pointer is null in any call, and taking the lock does
    not fail in this model. *)
Definition rombp_update_patch_status (shared : shared_status)
    (local : rombp_patch_status) : shared_status :=
  shared ++ [local].

(** What [rombp_read_patch_status] copies out once [k] stores were made,
    when the record held [initial] before the first one. *)
Definition rombp_read_patch_status (initial : rombp_patch_status)
    (shared : shared_status) (k : nat) : rombp_patch_status :=
  default initial (last (take k shared)).

(** The command: the model names each path by what [fopen] returns for it
    when [open_patch_files] runs, [None] for a failed open. *)
Record rombp_patch_command : Type := mk_command {
  input_file : option FILE;
  output_file : option FILE;
  ips_file : option FILE
}.

(** The error code and the streams; there are streams exactly when the
    code is not [PATCH_ERR_IO]. *)
Definition open_patch_files (command : rombp_patch_command)
    : rombp_patch_err * option files :=
  match input_file command with
  | None => (PATCH_ERR_IO, None)
  | Some i =>
      match output_file command with
      | None => (PATCH_ERR_IO, None)
      | Some o =>
          match ips_file command with
          | None => (PATCH_ERR_IO, None)
          | Some p => (PATCH_OK, Some (mk_files i o p))
          end
      end
  end.

Section Controller.

(** The BPS decoder is not among the sources: the controller is modelled
    for any header type and any [bps_start], [bps_next] and [bps_end]. *)
Variable bps_file_header : Type.
Variable bps_start :
  FILE -> bps_file_header -> rombp_patch_err * bps_file_header * FILE.
Variable bps_next :
  bps_file_header -> files -> rombp_hunk_iter_status * bps_file_header * files.
Variable bps_end :
  bps_file_header -> FILE -> rombp_patch_err * bps_file_header * FILE.

(** [rombp_patch_context] is a union with the BPS header as only member. *)
Definition rombp_patch_context : Type := bps_file_header.

Definition start_patch (patch_type : rombp_patch_type)
    (ctx : rombp_patch_context) (fs : files)
    : option (Z * rombp_patch_context * files) :=
  match patch_type with
  | PATCH_TYPE_IPS =>
      match ips_start (input_stream fs) (output_stream fs) with
      | None => None
      | Some (rc, i, o) =>
          let fs := mk_files i o (patch_stream fs) in
          if negb (patch_err_eqb rc PATCH_OK)
          then Some (-1, ctx, fs)
          else Some (0, ctx, fs)
      end
  | PATCH_TYPE_BPS =>
      let '(rc, ctx, p) := bps_start (patch_stream fs) ctx in
      let fs := mk_files (input_stream fs) (output_stream fs) p in
      if negb (patch_err_eqb rc PATCH_OK)
      then Some (-1, ctx, fs)
      else Some (0, ctx, fs)
  | PATCH_TYPE_UNKNOWN => Some (-1, ctx, fs)
  end.

Definition end_patch (patch_type : rombp_patch_type)
    (ctx : rombp_patch_context) (fs : files)
    : rombp_patch_err * rombp_patch_context * files :=
  match patch_type with
  | PATCH_TYPE_BPS =>
      let '(rc, ctx, p) := bps_end ctx (patch_stream fs) in
      (rc, ctx, mk_files (input_stream fs) (output_stream fs) p)
  | _ => (PATCH_OK, ctx, fs)
  end.

Definition next_hunk (patch_type : rombp_patch_type)
    (patch_ctx : rombp_patch_context) (fs : files)
    : option (rombp_hunk_iter_status * rombp_patch_context * files) :=
  match patch_type with
  | PATCH_TYPE_IPS =>
      match ips_next fs with
      | None => None
      | Some (st, fs) => Some (st, patch_ctx, fs)
      end
  | PATCH_TYPE_BPS => Some (bps_next patch_ctx fs)
  | PATCH_TYPE_UNKNOWN => Some (HUNK_NONE, patch_ctx, fs)
  end.

(** The state of [execute_patch] while it iterates. *)
Record worker : Type := mk_worker {
  w_ctx : rombp_patch_context;
  w_local : rombp_patch_status;
  w_files : files;
  w_shared : shared_status
}.

(** The [while (1)] of [execute_patch], up to the jump to [done]; [fuel]
    bounds the number of times the [switch] is entered. *)
Fixpoint patch_loop (fuel : nat) (patch_type : rombp_patch_type)
    (w : worker) : option worker :=
  match fuel with
  | O => None
  | S fuel' =>
      match iter_status (w_local w) with
      | HUNK_NEXT =>
          match next_hunk patch_type (w_ctx w) (w_files w) with
          | None => None
          | Some (st, ctx, fs) =>
              let local_status := set_iter_status (w_local w) st in
              let local_status :=
                match st with
                | HUNK_NEXT => incr_hunk_count local_status
                | _ => local_status
                end in
              patch_loop fuel' patch_type
                (mk_worker ctx local_status fs
                   (rombp_update_patch_status (w_shared w) local_status))
          end
      | HUNK_DONE =>
          let '(e, ctx, fs) := end_patch patch_type (w_ctx w) (w_files w) in
          Some (mk_worker ctx (set_err (w_local w) e) fs (w_shared w))
      | HUNK_ERR_IO =>
          Some (mk_worker (w_ctx w) (set_err (w_local w) PATCH_ERR_IO)
                  (w_files w) (w_shared w))
      | HUNK_NONE => patch_loop fuel' patch_type w
      end
  end.

(** What one call of [execute_patch] leaves behind: the value returned,
    the shared record, and the streams as they were when closed (none
    when the files could not be opened). *)
Record patch_run : Type := mk_run {
  run_err : rombp_patch_err;
  run_shared : shared_status;
  run_files : option files
}.

(** The code from the label [done] on.  Closing the streams changes
    nothing in the files of an unbuffered stream. *)
Definition patch_done (local_status : rombp_patch_status)
    (shared : shared_status) (fs : option files) : patch_run :=
  let local_status := set_is_done local_status in
  mk_run (err local_status)
    (rombp_update_patch_status shared local_status) fs.

(** [execute_patch].  [patch_ctx] is the union as it lies on the stack
    before [start_patch] fills it, and [status] the shared record the
    caller passes.  The result is [None] when the iteration is not over
    after [fuel] turns of the loop. *)
Definition execute_patch (fuel : nat) (patch_ctx : rombp_patch_context)
    (command : rombp_patch_command) (status : shared_status)
    : option patch_run :=
  let local_status := patch_status_init in
  let '(e, opened) := open_patch_files command in
  let local_status := set_err local_status e in
  match opened with
  | None =>
      let local_status := set_iter_status local_status HUNK_DONE in
      Some (patch_done local_status status None)
  | Some fs =>
      let '(patch_type, p) := detect_patch_type (patch_stream fs) in
      let fs := mk_files (input_stream fs) (output_stream fs) p in
      match patch_type with
      | PATCH_TYPE_UNKNOWN =>
          let local_status := set_iter_status local_status HUNK_DONE in
          let local_status := set_err local_status PATCH_UNKNOWN_TYPE in
          Some (patch_done local_status status (Some fs))
      | _ =>
          match start_patch patch_type patch_ctx fs with
          | None => None
          | Some (rc, patch_ctx, fs) =>
              if rc <? 0 then
                let local_status := set_iter_status local_status HUNK_DONE in
                let local_status :=
                  set_err local_status PATCH_FAILED_TO_START in
                Some (patch_done local_status status (Some fs))
              else
                let local_status := set_iter_status local_status HUNK_NEXT in
                match patch_loop fuel patch_type
                        (mk_worker patch_ctx local_status fs status) with
                | None => None
                | Some w =>
                    Some (patch_done (w_local w) (w_shared w)
                            (Some (w_files w)))
                end
          end
      end
  end.

End Controller.

Arguments start_patch {_} _ _ _ _.
Arguments end_patch {_} _ _ _ _.
Arguments next_hunk {_} _ _ _ _.
Arguments patch_loop {_} _ _ _ _ _.
Arguments execute_patch {_} _ _ _ _ _ _ _.
Arguments mk_worker {_} _ _ _ _.
Arguments w_ctx {_} _.
Arguments w_local {_} _.
Arguments w_files {_} _.
Arguments w_shared {_} _.

(** ** IPS patch files as data

    The layout of the records of an IPS patch file, to say what the patch
    stream holds in the statements below: a raw hunk is a 3-byte offset, a
    2-byte length and that many bytes; a run-length hunk is a 3-byte
    offset, a zero length, a 2-byte count and one value. *)

Inductive ips_hunk : Type :=
  | Raw (offset : Z) (payload : list byte)
  | Rle (offset : Z) (count : Z) (value : byte).

Definition u16_be (n : Z) : list byte :=
  [byte_of_Z (n / 256); byte_of_Z n].

Definition u24_be (n : Z) : list byte :=
  [byte_of_Z (n / 65536); byte_of_Z (n / 256); byte_of_Z n].

Definition encode_hunk (h : ips_hunk) : list byte :=
  match h with
  | Raw offset payload => u24_be offset ++ u16_be (size payload) ++ payload
  | Rle offset count value => u24_be offset ++ u16_be 0 ++ u16_be count ++ [value]
  end.

Definition encode_hunks (hs : list ips_hunk) : list byte :=
  concat (map encode_hunk hs).

(** The fields fit their width, and a raw hunk is not empty (length zero
    marks a run-length hunk). *)
Definition hunk_ok (h : ips_hunk) : Prop :=
  match h with
  | Raw offset payload => 0 <= offset < 2 ^ 24 /\ 0 < size payload < 2 ^ 16
  | Rle offset count value => 0 <= offset < 2 ^ 24 /\ 0 <= count < 2 ^ 16
  end.

Definition hunk_offset (h : ips_hunk) : Z :=
  match h with
  | Raw offset _ => offset
  | Rle offset _ _ => offset
  end.

Definition hunk_bytes (h : ips_hunk) : list byte :=
  match h with
  | Raw _ payload => payload
  | Rle _ count value => replicate (Z.to_nat count) value
  end.

(** The target after the bytes of [h] are laid over it at the offset of [h]. *)
Definition overlay (target : list byte) (h : ips_hunk) : list byte :=
  pwrite target (hunk_offset h) (hunk_bytes h).

(** Offset [i] of the target is one of the bytes [h] writes. *)
Definition covers (h : ips_hunk) (i : Z) : Prop :=
  hunk_offset h <= i < hunk_offset h + size (hunk_bytes h).

Definition EOF_TAG : list byte := [Byte.x45; Byte.x4f; Byte.x46].

(** A stream with no failure scheduled, no error recorded, and a valid
    position. *)
Definition healthy (f : FILE) : Prop :=
  f_faults f = [] /\ f_err f = false /\ 0 <= f_pos f.

(** The number of operating-system calls that failed on the three streams. *)
Definition failures (fs : files) : nat :=
  (f_failures (input_stream fs) + f_failures (output_stream fs)
   + f_failures (patch_stream fs))%nat.

(** The part of [rem] that is made of full [BUF_SIZE] buffers: all of it but
    the last [size rem mod BUF_SIZE] bytes. *)
Definition full_buffers (rem : list byte) : list byte :=
  take (Z.to_nat (BUF_SIZE * (size rem / BUF_SIZE))) rem.

(** A patch file: the marker, the hunks, and what follows the last hunk
    (the [EOF] tag in a complete patch). *)
Definition ips_patch_file (hs : list ips_hunk) (tail : list byte) : list byte :=
  IPS_EXPECTED_MARKER ++ encode_hunks hs ++ tail.

(** The command of an apply whose three files open and on whose streams no
    operating-system call fails: a source holding [src], a patch holding
    [patch], and an output that is created. *)
Definition sound_command (src patch : list byte) : rombp_patch_command :=
  mk_command (Some (fopen_r src [])) (Some (fopen_w [])) (Some (fopen_r patch [])).

(** The source and the patch of the raw-hunk scenario: five zero bytes, and
    [PATCH 00 00 02 00 02 AB CD EOF]. *)
Definition scenario_source : list byte := replicate 5 Byte.x00.

Definition scenario_raw_patch : list byte :=
  IPS_EXPECTED_MARKER
    ++ [Byte.x00; Byte.x00; Byte.x02; Byte.x00; Byte.x02; Byte.xab; Byte.xcd]
    ++ EOF_TAG.

(** Three streams whose patch stream stands on the [EOF] tag followed by
    five more bytes, all zero. *)
Definition eof_tag_then_five_bytes : files :=
  mk_files (fopen_r [] []) (fopen_w [])
    (fopen_r (EOF_TAG ++ replicate 5 Byte.x00) []).

(** The hunk counter along a sequence of published records, when the
    counter stood at [c] before the first of them: a record whose iteration
    status is [HUNK_NEXT] counts one more than the record before it, and
    any other record counts the same. *)
Fixpoint counts_from (c : Z) (published : list rombp_patch_status) : Prop :=
  match published with
  | [] => True
  | s :: rest =>
      hunk_count s
      = match iter_status s with
        | HUNK_NEXT => (c + 1) mod 2 ^ 64
        | _ => c
        end
      /\ counts_from (hunk_count s) rest
  end.

(** ** Concrete inputs

    A stand-in for the absent BPS decoder, for the statements that run the
    controller on a concrete IPS input, and the inputs themselves. *)

Definition no_bps_start (f : FILE) (h : unit) : rombp_patch_err * unit * FILE :=
  (PATCH_FAILED_TO_START, h, f).

Definition no_bps_next (h : unit) (fs : files)
    : rombp_hunk_iter_status * unit * files :=
  (HUNK_ERR_IO, h, fs).

Definition no_bps_end (h : unit) (f : FILE) : rombp_patch_err * unit * FILE :=
  (PATCH_OK, h, f).

(** Two raw hunks of two bytes each, at offsets 2 and 3. *)
Definition overlapping_hunks : list ips_hunk :=
  [Raw 2 [Byte.xaa; Byte.xbb]; Raw 3 [Byte.xcc; Byte.xdd]].

(** Three streams whose patch stream stands on the [EOF] tag followed by
    one more byte. *)
Definition eof_tag_then_one_byte : files :=
  mk_files (fopen_r [] []) (fopen_w [])
    (fopen_r (EOF_TAG ++ [Byte.x00]) []).


(** ** The observer and the command line

    The part of [ui_loop] that runs while a patch is being applied: the
    shared record is copied out and the bottom bar, the worker thread and
    the command are dealt with according to it. *)

(** The texts of the bottom bar, by the names of their constants; the two
    formats carry the number printed for [%d]. *)
Inductive bottom_bar_text : Type :=
  | PATCH_NEXT_MESSAGE (hunks : Z)
  | PATCH_SUCCESS_MESSAGE (hunks : Z)
  | PATCH_FAIL_INVALID_OUTPUT_SIZE_MESSAGE
  | PATCH_FAIL_INVALID_OUTPUT_CHECKSUM_MESSAGE
  | PATCH_FAIL_ERR_IO
  | PATCH_FAIL_START
  | PATCH_FAIL_UNKNOWN_TYPE
  | IO_ERROR_DECODING_NEXT_HUNK.

(** What one pass over the [switch] of [ui_loop] does with the record it
    read: the text it puts in the bottom bar (if any), whether it joins the
    worker thread, whether it frees the command, and the value of
    [patching] afterwards.  The join is taken to succeed. *)
Record poll_result : Type := mk_poll {
  bar_text : option bottom_bar_text;
  joins_thread : bool;
  frees_command : bool;
  patching : bool
}.

Definition ui_loop_poll (local_status : rombp_patch_status) : poll_result :=
  match iter_status local_status with
  | HUNK_NEXT =>
      mk_poll (Some (PATCH_NEXT_MESSAGE (hunk_count local_status)))
        false false true
  | HUNK_DONE =>
      if is_done local_status then
        mk_poll
          (Some match err local_status with
                | PATCH_OK => PATCH_SUCCESS_MESSAGE (hunk_count local_status)
                | PATCH_INVALID_OUTPUT_SIZE =>
                    PATCH_FAIL_INVALID_OUTPUT_SIZE_MESSAGE
                | PATCH_INVALID_OUTPUT_CHECKSUM =>
                    PATCH_FAIL_INVALID_OUTPUT_CHECKSUM_MESSAGE
                | PATCH_ERR_IO => PATCH_FAIL_ERR_IO
                | PATCH_UNKNOWN_TYPE => PATCH_FAIL_UNKNOWN_TYPE
                | PATCH_FAILED_TO_START => PATCH_FAIL_START
                end)
          true true false
      else mk_poll None false false true
  | HUNK_ERR_IO =>
      mk_poll (Some IO_ERROR_DECODING_NEXT_HUNK) false true false
  | HUNK_NONE => mk_poll None false false true
  end.

Section CommandLine.

(** The numeric value of an error code, as [execute_patch] returns it in an
    [int]; the enumeration is declared in a header that is not among the
    sources. *)
Variable err_code : rombp_patch_err -> Z.

Variable bps_file_header : Type.
Variable bps_start :
  FILE -> bps_file_header -> rombp_patch_err * bps_file_header * FILE.
Variable bps_next :
  bps_file_header -> files -> rombp_hunk_iter_status * bps_file_header * files.
Variable bps_end :
  bps_file_header -> FILE -> rombp_patch_err * bps_file_header * FILE.

(** [execute_command_line].  [parsed] is the command [parse_command_line]
    filled in, [None] when it returned -1; [create_rc] and [join_rc] are
    what [pthread_create] and [pthread_join] return.  The worker starts
    from a freshly initialised shared record, and the function returns
    only if the worker does. *)
Definition execute_command_line (fuel : nat) (patch_ctx : bps_file_header)
    (parsed : option rombp_patch_command) (create_rc join_rc : Z)
    : option Z :=
  match parsed with
  | None => Some (-1)
  | Some command =>
      if negb (create_rc =? 0) then Some create_rc
      else
        match execute_patch bps_start bps_next bps_end
                fuel patch_ctx command [] with
        | None => None
        | Some r =>
            if negb (join_rc =? 0) then Some join_rc
            else
              let status :=
                rombp_read_patch_status patch_status_init (run_shared r)
                  (length (run_shared r)) in
              let rc := err_code (run_err r) in
              if negb (is_done status) then Some (-1)
              else if negb (rc =? 0) then Some rc
              else Some 0
        end
  end.

End CommandLine.

Arguments execute_command_line _ {_} _ _ _ _ _ _ _ _.

(** ** ui.c: paths and the menu

    A C string is modelled by its characters, without the terminator.
    Allocation is taken to succeed. *)

(** [s[i]]: reading the terminator, or the padding [strncpy] wrote behind
    it, gives the NUL character. *)
Definition char_at (s : list byte) (i : nat) : byte := nth i s Byte.x00.

Definition concat_path (parent child : list byte) : list byte :=
  parent ++ [Byte.x2f] ++ child.

(** The [while] of [replace_extension]: [pos] is [end - out], and the scan
    goes down while the character is neither ['.'] nor a path separator. *)
Fixpoint scan_back (out : list byte) (pos : nat) : nat :=
  match pos with
  | O => O
  | S pos' =>
      if negb (Byte.eqb (char_at out pos) Byte.x2e)
         && negb (Byte.eqb (char_at out pos) Byte.x5c)
         && negb (Byte.eqb (char_at out pos) Byte.x2f)
      then scan_back out pos'
      else pos
  end.

(** [replace_extension]: [Some out] for a return value of 0 with [*output]
    set to [out], [None] for -1. *)
Definition replace_extension (input new_ext : list byte)
    : option (list byte) :=
  let out := input in
  let pos := scan_back out (length out) in
  if ((0 <? pos)%nat && Byte.eqb (char_at out pos) Byte.x2e)
     && (negb (Byte.eqb (char_at out (pos - 1)) Byte.x5c)
         && negb (Byte.eqb (char_at out (pos - 1)) Byte.x2f))
  then Some (take pos out ++ new_ext)
  else None.

(** The cursor of the menu: [selected_item] is the highlighted row of the
    screen and [selected_offset] the index of the entry shown in the first
    row. *)
Record menu_cursor : Type := mk_cursor {
  selected_item : Z;
  selected_offset : Z
}.

Inductive menu_key : Type :=
  | SDLK_DOWN
  | SDLK_UP.

Section Menu.

(** [MENU_ITEM_COUNT] is defined in a header that is not among the
    sources. *)
Variable MENU_ITEM_COUNT : Z.

(** The two arrow keys in [ui_handle_event], for a directory listing of
    [namelist_size] entries. *)
Definition ui_handle_key (namelist_size : Z) (ui : menu_cursor)
    (key : menu_key) : menu_cursor :=
  let nitems := Z.min MENU_ITEM_COUNT namelist_size in
  match key with
  | SDLK_DOWN =>
      if selected_item ui =? nitems - 1 then
        let max_offset :=
          if namelist_size =? nitems then 0 else namelist_size - nitems in
        mk_cursor (nitems - 1)
          (if negb (selected_offset ui =? max_offset)
           then selected_offset ui + 1
           else selected_offset ui)
      else mk_cursor (selected_item ui + 1) (selected_offset ui)
  | SDLK_UP =>
      if selected_item ui =? 0 then
        mk_cursor 0
          (if negb (selected_offset ui =? 0)
           then selected_offset ui - 1
           else selected_offset ui)
      else mk_cursor (selected_item ui - 1) (selected_offset ui)
  end.

(** The index [ui_handle_select] and [draw_menu] use for the highlighted
    entry. *)
Definition selected_entry (ui : menu_cursor) : Z :=
  selected_item ui + selected_offset ui.

End Menu.

(** The cursor [ui_scan_directory] sets after it read a directory. *)
Definition cursor_after_scan : menu_cursor := mk_cursor 0 0.

(** The value of each error code when the enumerators are numbered in the
    order of the error table, from zero; used where a statement needs
    concrete numbers. *)
Definition err_code_in_order (e : rombp_patch_err) : Z :=
  match e with
  | PATCH_OK => 0
  | PATCH_ERR_IO => 1
  | PATCH_UNKNOWN_TYPE => 2
  | PATCH_FAILED_TO_START => 3
  | PATCH_INVALID_OUTPUT_SIZE => 4
  | PATCH_INVALID_OUTPUT_CHECKSUM => 5
  end.

(** The number of records of a sequence whose iteration status is
    [HUNK_NEXT]. *)
Fixpoint next_count (published : list rombp_patch_status) : Z :=
  match published with
  | [] => 0
  | s :: rest =>
      match iter_status s with
      | HUNK_NEXT => 1 + next_count rest
      | _ => next_count rest
      end
  end.

(** The characters the scan of [replace_extension] stops on, and the path
    separators among them. *)
Definition stops_scan (c : byte) : Prop :=
  c = Byte.x2e \/ c = Byte.x5c \/ c = Byte.x2f.

Definition is_separator (c : byte) : Prop :=
  c = Byte.x5c \/ c = Byte.x2f.

(** The extension [ui_handle_select] gives the output file. *)
Definition smc_extension : list byte :=
  [Byte.x2e; Byte.x73; Byte.x6d; Byte.x63].

(** The cursor is on a row of the screen and the page starts where a full
    page still fits in the listing. *)
Definition cursor_ok (MENU_ITEM_COUNT namelist_size : Z) (ui : menu_cursor)
    : Prop :=
  0 <= selected_item ui < Z.min MENU_ITEM_COUNT namelist_size
  /\ 0 <= selected_offset ui <= namelist_size - Z.min MENU_ITEM_COUNT namelist_size.

(** The entries [draw_menu] reads from the listing, one for each row of
    the screen from the first on: [paging_offset] for [i] from 0 to
    [nitems - 1]. *)
Definition draw_menu_entries (MENU_ITEM_COUNT namelist_size : Z)
    (ui : menu_cursor) : list Z :=
  (fun i => selected_offset ui + i)
    <$> seqZ 0 (Z.min MENU_ITEM_COUNT namelist_size).

(** ** ui.c: the order of a listing *)

(** The values of [d_type] in [<dirent.h>]. *)
Inductive dirent_type : Type :=
  | DT_UNKNOWN
  | DT_FIFO
  | DT_CHR
  | DT_DIR
  | DT_BLK
  | DT_REG
  | DT_LNK
  | DT_SOCK.

Record dirent : Type := mk_dirent {
  d_type : dirent_type;
  d_name : list byte
}.

Section DirSort.

(** [alphasort] is a function of the C library: it compares the names of
    two entries, and its result is negative, zero or positive. *)
Variable alphasort : dirent -> dirent -> Z.

(** The comparison [ui_scan_directory] hands to [scandir]. *)
Definition dir_alphasort (a b : dirent) : Z :=
  match d_type a, d_type b with
  | DT_DIR, DT_REG => -1
  | DT_REG, DT_DIR => 1
  | _, _ => alphasort a b
  end.

End DirSort.

(** A directory or a regular file. *)
Definition dir_or_reg (a : dirent) : Prop :=
  d_type a = DT_DIR \/ d_type a = DT_REG.

(** A comparison of names by their first character, used where a statement
    needs a concrete [alphasort]. *)
Definition alphasort_first_char (a b : dirent) : Z :=
  byte_val (char_at (d_name a) 0) - byte_val (char_at (d_name b) 0).

(** ** The streams as pointers

    What [open_patch_files] and [execute_patch] do with the three
    [FILE*] variables, and the calls of [fclose] they make through
    [close_files]. *)

Module Handles.

(** A [FILE*]: null, or a stream named by a number. *)
Inductive file_ptr : Type :=
  | NULL
  | Stream (id : nat).

(** The three pointer variables of [execute_patch]. *)
Record pointers : Type := mk_pointers {
  input_file : file_ptr;
  output_file : file_ptr;
  patch_file : file_ptr
}.

(** [close_files]; [closed] lists the streams [fclose] was called on, in
    the order of the calls. *)
Definition close_files (input_file output_file ips_file : file_ptr)
    (closed : list nat) : list nat :=
  let closed :=
    match input_file with
    | NULL => closed
    | Stream f => closed ++ [f]
    end in
  let closed :=
    match output_file with
    | NULL => closed
    | Stream f => closed ++ [f]
    end in
  match ips_file with
  | NULL => closed
  | Stream f => closed ++ [f]
  end.

(** [open_patch_files]: [vars] are the three variables the caller passes
    by address, and [fopen_input], [fopen_output] and [fopen_ips] what the
    three calls of [fopen] return when they are made. *)
Definition open_patch_files (vars : pointers)
    (fopen_input fopen_output fopen_ips : file_ptr) (closed : list nat)
    : rombp_patch_err * pointers * list nat :=
  let vars := mk_pointers fopen_input (output_file vars) (patch_file vars) in
  match input_file vars with
  | NULL => (PATCH_ERR_IO, vars, closed)
  | Stream _ =>
      let vars :=
        mk_pointers (input_file vars) fopen_output (patch_file vars) in
      match output_file vars with
      | NULL =>
          (PATCH_ERR_IO, vars, close_files (input_file vars) NULL NULL closed)
      | Stream _ =>
          let vars :=
            mk_pointers (input_file vars) (output_file vars) fopen_ips in
          match patch_file vars with
          | NULL =>
              (PATCH_ERR_IO, vars,
               close_files (input_file vars) (output_file vars) NULL closed)
          | Stream _ => (PATCH_OK, vars, closed)
          end
      end
  end.

(** The calls of [fclose] the controller makes in one call of
    [execute_patch] that returns: those of [open_patch_files], then those
    of the [close_files] after the label [done], which every path reaches
    with the variables as [open_patch_files] left them.  [vars] holds what the three variables,
    which are not initialised, contain when the function is entered. *)
Definition execute_patch (vars : pointers)
    (fopen_input fopen_output fopen_ips : file_ptr) : list nat :=
  let '(_, vars, closed) :=
    open_patch_files vars fopen_input fopen_output fopen_ips [] in
  close_files (input_file vars) (output_file vars) (patch_file vars) closed.

(** How many times [fclose] was called on stream [f]. *)
Definition times_closed (f : nat) (closed : list nat) : nat :=
  length (filter (fun g => g = f) closed).

End Handles.

(** * Properties *)

(** ** Bytes and big-endian fields *)

Lemma size_nonneg (l : list byte) : 0 <= size l.
Proof. unfold size. lia. Qed.

Lemma size_app (a b : list byte) : size (a ++ b) = size a + size b.
Proof. unfold size. rewrite length_app. lia. Qed.

Lemma size_cons (x : byte) (l : list byte) : size (x :: l) = 1 + size l.
Proof. unfold size. cbn [length]. lia. Qed.

Lemma size_nil : size [] = 0.
Proof. reflexivity. Qed.

Lemma size_take (n : Z) (l : list byte) :
  0 <= n -> size (take (Z.to_nat n) l) = Z.min n (size l).
Proof. intros Hn. unfold size. rewrite length_take. lia. Qed.

Lemma size_replicate (n : nat) (x : byte) : size (replicate n x) = Z.of_nat n.
Proof. unfold size. by rewrite length_replicate. Qed.

Lemma byte_val_range (b : byte) : 0 <= byte_val b < 256.
Proof.
  unfold byte_val. pose proof (Byte.to_N_bounded b) as H.
  split; [lia|]. apply N2Z.inj_le in H. simpl in H. lia.
Qed.

Lemma byte_val_of_Z (z : Z) : byte_val (byte_of_Z z) = z mod 256.
Proof.
  unfold byte_of_Z, byte_val.
  assert (Hr : 0 <= z mod 256 < 256) by (apply Z.mod_pos_bound; lia).
  destruct (Byte.of_N (Z.to_N (z mod 256))) as [b|] eqn:E.
  - apply Byte.to_of_N in E. rewrite E. lia.
  - apply Byte.of_N_None_iff in E. lia.
Qed.

Lemma bytes_eqb_eq (a b : list byte) : bytes_eqb a b = true <-> a = b.
Proof.
  revert b. induction a as [|x a IH]; intros [|y b]; simpl; try easy.
  rewrite andb_true_iff, IH. split.
  - intros [Hx ->]. apply Byte.byte_dec_bl in Hx. by subst.
  - intros [= -> ->]. split; [by apply Byte.byte_dec_lb | done].
Qed.

Lemma land_shiftl_byte (x k : Z) :
  0 <= x < 256 -> 0 <= k ->
  Z.land (Z.shiftl x k) (Z.shiftl 255 k) = x * 2 ^ k.
Proof.
  intros Hx Hk. rewrite <- Z.shiftl_land.
  change 255 with (Z.ones 8). rewrite Z.land_ones by lia.
  rewrite Z.mod_small by lia. by rewrite Z.shiftl_mul_pow2.
Qed.

Lemma land_low_byte (x : Z) : 0 <= x < 256 -> Z.land x 255 = x.
Proof.
  intros Hx. change 255 with (Z.ones 8). rewrite Z.land_ones by lia.
  apply Z.mod_small. lia.
Qed.

(** Fields that occupy different bits can be added instead of or-ed. *)
Lemma lor_disjoint (hi lo k : Z) :
  0 <= k -> 0 <= lo < 2 ^ k -> Z.lor (hi * 2 ^ k) lo = hi * 2 ^ k + lo.
Proof.
  intros Hk Hlo. rewrite <- Z.add_lor_land.
  assert (Z.land (hi * 2 ^ k) lo = 0) as ->; [|lia].
  apply Z.bits_inj'. intros n Hn.
  rewrite Z.land_spec, Z.bits_0.
  destruct (Z.lt_ge_cases n k) as [Hlt|Hge].
  - rewrite Z.mul_pow2_bits_low by lia. done.
  - assert (Z.testbit lo n = false) as ->; [|apply andb_false_r].
    destruct (Z.eq_dec lo 0) as [->|Hne]; [apply Z.bits_0|].
    apply Z.bits_above_log2; [lia|].
    apply Z.lt_le_trans with k; [|lia].
    apply Z.log2_lt_pow2; lia.
Qed.

Lemma be_16bit_int_spec (b0 b1 : byte) (rest : list byte) :
  be_16bit_int (b0 :: b1 :: rest) = byte_val b0 * 256 + byte_val b1.
Proof.
  unfold be_16bit_int, at_index. cbn [nth].
  pose proof (byte_val_range b0). pose proof (byte_val_range b1).
  change 65280 with (Z.shiftl 255 8).
  rewrite land_shiftl_byte, land_low_byte by lia.
  apply (lor_disjoint _ _ 8); lia.
Qed.

Lemma be_24bit_int_spec (b0 b1 b2 : byte) (rest : list byte) :
  be_24bit_int (b0 :: b1 :: b2 :: rest)
  = byte_val b0 * 65536 + byte_val b1 * 256 + byte_val b2.
Proof.
  unfold be_24bit_int, at_index. cbn [nth].
  pose proof (byte_val_range b0). pose proof (byte_val_range b1).
  pose proof (byte_val_range b2).
  change 16711680 with (Z.shiftl 255 16).
  change 65280 with (Z.shiftl 255 8).
  rewrite !land_shiftl_byte, land_low_byte by lia.
  rewrite (lor_disjoint _ (byte_val b1 * 2 ^ 8) 16) by lia.
  replace (byte_val b0 * 2 ^ 16 + byte_val b1 * 2 ^ 8)
    with ((byte_val b0 * 256 + byte_val b1) * 2 ^ 8) by lia.
  rewrite (lor_disjoint _ _ 8) by lia. lia.
Qed.

Lemma be_16bit_int_u16_be (n : Z) (rest : list byte) :
  0 <= n < 2 ^ 16 -> be_16bit_int (u16_be n ++ rest) = n.
Proof.
  intros Hn. unfold u16_be. cbn [app].
  rewrite be_16bit_int_spec, !byte_val_of_Z.
  rewrite (Z.mod_small (n / 256)).
  - pose proof (Z.div_mod n 256). lia.
  - split; [apply Z.div_pos; lia | apply Z.div_lt_upper_bound; lia].
Qed.

Lemma be_24bit_int_u24_be (n : Z) (rest : list byte) :
  0 <= n < 2 ^ 24 -> be_24bit_int (u24_be n ++ rest) = n.
Proof.
  intros Hn. unfold u24_be. cbn [app].
  rewrite be_24bit_int_spec, !byte_val_of_Z.
  rewrite (Z.mod_small (n / 65536)).
  - pose proof (Z.div_mod n 256 ltac:(lia)) as H1.
    pose proof (Z.div_mod (n / 256) 256 ltac:(lia)) as H2.
    rewrite Z.div_div in H2 by lia. change (256 * 256) with 65536 in H2.
    lia.
  - split; [apply Z.div_pos; lia | apply Z.div_lt_upper_bound; lia].
Qed.

(** ** Writing into a file *)

Lemma pwrite_nil (data : list byte) (pos : Z) : pwrite data pos [] = data.
Proof. reflexivity. Qed.

Lemma pwrite_unfold (data : list byte) (pos : Z) (bs : list byte) :
  bs <> [] ->
  pwrite data pos bs
  = take (Z.to_nat pos) data
      ++ replicate (Z.to_nat pos - length data)%nat Byte.x00
      ++ bs ++ drop (Z.to_nat pos + length bs)%nat data.
Proof. by destruct bs. Qed.

Lemma length_pwrite (data : list byte) (pos : Z) (bs : list byte) :
  bs <> [] ->
  length (pwrite data pos bs)
  = Nat.max (length data) (Z.to_nat pos + length bs)%nat.
Proof.
  intros Hbs. rewrite pwrite_unfold by done.
  rewrite !length_app, length_take, length_replicate, length_drop. lia.
Qed.

(** Writing at the very start of an empty or shorter file, or appending:
    two writes one after the other are one write of both buffers. *)
Lemma pwrite_app (data : list byte) (pos : Z) (b1 b2 : list byte) :
  0 <= pos ->
  pwrite (pwrite data pos b1) (pos + size b1) b2 = pwrite data pos (b1 ++ b2).
Proof.
  intros Hpos. destruct b1 as [|x b1]; [by rewrite size_nil, Z.add_0_r|].
  destruct b2 as [|y b2]; [by rewrite app_nil_r|].
  remember (x :: b1) as c1 eqn:E1. remember (y :: b2) as c2 eqn:E2.
  assert (H1 : c1 <> []) by (by subst).
  assert (H2 : c2 <> []) by (by subst).
  assert (H12 : c1 ++ c2 <> []) by (by subst).
  clear E1 E2 x y b1 b2.
  rewrite (pwrite_unfold _ _ c2) by done.
  rewrite (pwrite_unfold _ _ (c1 ++ c2)) by done.
  assert (Hlen : (length (pwrite data pos c1)
                  = Nat.max (length data) (Z.to_nat pos + length c1))%nat)
    by (by apply length_pwrite).
  assert (Hp : Z.to_nat (pos + size c1) = (Z.to_nat pos + length c1)%nat)
    by (unfold size; lia).
  rewrite Hp, Hlen.
  replace (Z.to_nat pos + length c1 -
           Nat.max (length data) (Z.to_nat pos + length c1))%nat with 0%nat by lia.
  cbn [replicate app].
  rewrite (pwrite_unfold _ _ c1) by done.
  set (pre := take (Z.to_nat pos) data
              ++ replicate (Z.to_nat pos - length data)%nat Byte.x00).
  assert (Hpre : length pre = Z.to_nat pos).
  { unfold pre. rewrite length_app, length_take, length_replicate. lia. }
  rewrite !(assoc_L (++) (take _ data)). fold pre. clearbody pre.
  rewrite !(assoc_L (++) pre c1).
  rewrite take_app_length' by (rewrite length_app; lia).
  rewrite drop_app_ge by (rewrite length_app; lia).
  rewrite length_app, Hpre, drop_drop, length_app.
  rewrite <- !(assoc_L (++)). do 3 f_equal. f_equal. lia.
Qed.

Lemma lookup_pwrite_inside (data : list byte) (pos : Z) (bs : list byte)
    (i : nat) (b : byte) :
  0 <= pos -> bs !! i = Some b ->
  pwrite data pos bs !! (Z.to_nat pos + i)%nat = Some b.
Proof.
  intros Hpos Hi.
  assert (bs <> []) by (intros ->; done).
  rewrite pwrite_unfold by done.
  rewrite (assoc_L (++)).
  rewrite lookup_app_r;
    rewrite length_app, length_take, length_replicate; [|lia].
  replace (Z.to_nat pos + i -
           (Z.to_nat pos `min` length data
            + (Z.to_nat pos - length data)))%nat with i by lia.
  apply lookup_lt_Some in Hi as Hlt.
  by rewrite lookup_app_l.
Qed.

Lemma lookup_pwrite_outside (data : list byte) (pos : Z) (bs : list byte)
    (j : nat) (b : byte) :
  0 <= pos -> data !! j = Some b ->
  (Z.of_nat j < pos \/ pos + size bs <= Z.of_nat j) ->
  pwrite data pos bs !! j = Some b.
Proof.
  intros Hpos Hj Hout. destruct (decide (bs = [])) as [->|Hbs]; [done|].
  apply lookup_lt_Some in Hj as Hlt.
  rewrite pwrite_unfold by done. unfold size in Hout.
  destruct Hout as [Hlo|Hhi].
  - rewrite lookup_app_l by (rewrite length_take; lia).
    by rewrite lookup_take_lt by lia.
  - rewrite !(assoc_L (++)).
    rewrite lookup_app_r;
      rewrite !length_app, length_take, length_replicate; [|lia].
    rewrite lookup_drop. rewrite <- Hj. f_equal. lia.
Qed.

(** ** The stream operations *)

Lemma fails_after_lt (o : io_outcome) (n : Z) (k : nat) :
  fails_after o n = Some k -> Z.of_nat k < n.
Proof.
  destruct o as [|k']; cbn; [done|].
  destruct (Z.ltb_spec (Z.of_nat k') n); intros [= <-]; lia.
Qed.

Lemma healthy_next_outcome (f : FILE) (n : Z) :
  healthy f -> fails_after (next_outcome f) n = None.
Proof. intros (Hf & _ & _). unfold next_outcome. by rewrite Hf. Qed.

Lemma healthy_later_outcomes (f : FILE) : healthy f -> later_outcomes f = [].
Proof. intros (Hf & _ & _). unfold later_outcomes. by rewrite Hf. Qed.

(** A read never returns more than was asked for, a short count sets one
    of the two indicators, and a failed call always gives a short count. *)
Lemma fread_cases (n : Z) (f : FILE) :
  0 <= n ->
  let '(got, f') := fread n f in
  f_data f' = f_data f /\ f_pos f' = f_pos f + size got /\ size got <= n /\
  ((f_failures f' = f_failures f /\ f_err f' = f_err f /\
    (size got < n -> f_eof f' = true) /\
    got = take (Z.to_nat n) (remaining f))
   \/ (f_failures f' = S (f_failures f) /\ f_err f' = true /\ size got < n)).
Proof.
  intros Hn. unfold fread.
  destruct (fails_after (next_outcome f) n) as [k|] eqn:E; cbn.
  - apply fails_after_lt in E.
    assert (size (take k (remaining f)) <= Z.of_nat k)
      by (unfold size; rewrite length_take; lia).
    repeat split; try lia; right; repeat split; lia.
  - rewrite size_take by done. repeat split; try lia; left.
    repeat split; try done. intros Hlt.
    apply orb_true_iff. right. apply Z.ltb_lt. lia.
Qed.

Lemma fwrite_cases (bs : list byte) (f : FILE) :
  let '(nwritten, f') := fwrite bs f in
  (nwritten = size bs /\ f_failures f' = f_failures f)
  \/ (0 <= nwritten < size bs /\ f_failures f' = S (f_failures f)).
Proof.
  unfold fwrite.
  destruct (fails_after (next_outcome f) (size bs)) as [k|] eqn:E; cbn.
  - apply fails_after_lt in E. right. split; [|done].
    unfold size in *. rewrite length_take. lia.
  - by left.
Qed.

Lemma fseek_cases (offset : Z) (f : FILE) :
  let '(rc, f') := fseek offset f in
  (rc = 0 /\ f_failures f' = f_failures f)
  \/ (rc = -1 /\ f_failures f' = S (f_failures f)).
Proof. unfold fseek. destruct (next_outcome f); cbn; auto. Qed.

Lemma remaining_advance (f : FILE) (a b : list byte) (eof err : bool)
    (s : list io_outcome) (c : nat) :
  0 <= f_pos f -> remaining f = a ++ b ->
  remaining (mkFILE (f_data f) (f_pos f + size a) eof err s c) = b.
Proof.
  intros Hpos Hrem. unfold remaining in *. cbn.
  replace (Z.to_nat (f_pos f + size a))
    with (Z.to_nat (f_pos f) + length a)%nat by (unfold size; lia).
  rewrite <- drop_drop, Hrem. by rewrite drop_app_length.
Qed.

(** Reading exactly the bytes [a] that come next on a healthy stream. *)
Lemma fread_exact (f : FILE) (a b : list byte) :
  healthy f -> remaining f = a ++ b ->
  exists f', fread (size a) f = (a, f') /\ healthy f' /\ remaining f' = b /\
             f_data f' = f_data f /\ f_failures f' = f_failures f /\
             f_eof f' = f_eof f.
Proof.
  intros Hf Hrem. pose proof Hf as (Hs & He & Hp).
  unfold fread. rewrite healthy_next_outcome, healthy_later_outcomes by done.
  rewrite Hrem.
  assert (take (Z.to_nat (size a)) (a ++ b) = a) as ->
    by (unfold size; by rewrite Nat2Z.id, take_app_length).
  eexists. split; [reflexivity|].
  pose proof (size_nonneg a).
  split; [repeat split; cbn; try done; lia|].
  split; [by apply remaining_advance|].
  repeat split; cbn; try done.
  rewrite Z.ltb_irrefl. apply orb_false_r.
Qed.

(** Asking a healthy stream for more than it has left: everything left is
    returned and the end-of-file indicator is set. *)
Lemma fread_short (n : Z) (f : FILE) :
  healthy f -> size (remaining f) < n ->
  exists f', fread n f = (remaining f, f') /\ f_eof f' = true /\
             f_err f' = false /\ f_failures f' = f_failures f /\
             f_data f' = f_data f.
Proof.
  intros Hf Hlt. pose proof Hf as (Hs & He & Hp).
  unfold fread. rewrite healthy_next_outcome, healthy_later_outcomes by done.
  rewrite take_ge by (unfold size in Hlt; lia).
  eexists. split; [reflexivity|]. repeat split; cbn; try done.
  apply orb_true_iff. right. by apply Z.ltb_lt.
Qed.

Lemma fwrite_healthy (bs : list byte) (f : FILE) :
  healthy f ->
  exists f', fwrite bs f = (size bs, f') /\ healthy f' /\
             f_data f' = pwrite (f_data f) (f_pos f) bs /\
             f_pos f' = f_pos f + size bs /\
             f_failures f' = f_failures f.
Proof.
  intros Hf. pose proof Hf as (Hs & He & Hp). unfold fwrite.
  rewrite healthy_next_outcome, healthy_later_outcomes by done.
  eexists. split; [reflexivity|]. pose proof (size_nonneg bs).
  repeat split; cbn; try done; lia.
Qed.

Lemma fseek_healthy (offset : Z) (f : FILE) :
  healthy f -> 0 <= offset ->
  exists f', fseek offset f = (0, f') /\ healthy f' /\
             f_data f' = f_data f /\ f_pos f' = offset /\
             f_failures f' = f_failures f.
Proof.
  intros (Hs & He & Hp) Ho. unfold fseek, next_outcome, later_outcomes.
  rewrite Hs. eexists. split; [reflexivity|]. by repeat split.
Qed.

(** ** [copy_file] and [ips_start] *)

Lemma div_buf_bounds (x : Z) :
  0 <= x ->
  0 <= x / BUF_SIZE
  /\ BUF_SIZE * (x / BUF_SIZE) <= x < BUF_SIZE * (x / BUF_SIZE) + BUF_SIZE.
Proof.
  intros Hx. unfold BUF_SIZE.
  pose proof (Z.div_mod x 32768 ltac:(lia)).
  pose proof (Z.mod_pos_bound x 32768 ltac:(lia)).
  split; [apply Z.div_pos; lia | lia].
Qed.

Lemma full_buffers_short (rem : list byte) :
  size rem < BUF_SIZE -> full_buffers rem = [].
Proof.
  intros Hlt. unfold full_buffers. pose proof (size_nonneg rem).
  rewrite Z.div_small by lia. by rewrite Z.mul_0_r.
Qed.

Lemma full_buffers_step (rem : list byte) :
  BUF_SIZE <= size rem ->
  full_buffers rem
  = take (Z.to_nat BUF_SIZE) rem ++ full_buffers (drop (Z.to_nat BUF_SIZE) rem).
Proof.
  intros Hge. unfold full_buffers.
  assert (Hd : size (drop (Z.to_nat BUF_SIZE) rem) = size rem - BUF_SIZE)
    by (unfold size in *; rewrite length_drop; unfold BUF_SIZE in *; lia).
  rewrite Hd.
  replace (size rem) with ((size rem - BUF_SIZE) + 1 * BUF_SIZE) at 1 by lia.
  rewrite Z.div_add by (unfold BUF_SIZE; lia).
  set (q := (size rem - BUF_SIZE) / BUF_SIZE).
  assert (0 <= q) by (apply Z.div_pos; unfold BUF_SIZE in *; lia).
  replace (Z.to_nat (BUF_SIZE * (q + 1)))
    with (Z.to_nat BUF_SIZE + Z.to_nat (BUF_SIZE * q))%nat
    by (unfold BUF_SIZE; lia).
  by rewrite take_take_drop.
Qed.

Lemma copy_file_loop_healthy (fuel : nat) (input_file_size total_read : Z)
    (fin fout : FILE) :
  healthy fin -> healthy fout ->
  size (remaining fin) < Z.of_nat fuel * BUF_SIZE ->
  input_file_size <= total_read + size (remaining fin) ->
  exists fin' fout',
    copy_file_loop fuel input_file_size total_read fin fout
      = Some (0, fin', fout')
    /\ healthy fout'
    /\ f_data fout'
       = pwrite (f_data fout) (f_pos fout) (full_buffers (remaining fin)).
Proof.
  revert total_read fin fout.
  induction fuel as [|fuel IH]; intros total_read fin fout Hin Hout Hfuel Hsz.
  { pose proof (size_nonneg (remaining fin)). lia. }
  cbn [copy_file_loop].
  destruct (Z.lt_ge_cases (size (remaining fin)) BUF_SIZE) as [Hshort|Hfull].
  - destruct (fread_short BUF_SIZE fin Hin Hshort) as (fin' & -> & _).
    assert ((size (remaining fin) <? BUF_SIZE) = true) as ->
      by (by apply Z.ltb_lt).
    assert ((total_read + size (remaining fin) <? input_file_size) = false) as ->
      by (apply Z.ltb_ge; lia).
    exists fin', fout. by rewrite full_buffers_short.
  - set (a := take (Z.to_nat BUF_SIZE) (remaining fin)).
    set (b := drop (Z.to_nat BUF_SIZE) (remaining fin)).
    assert (Hab : remaining fin = a ++ b) by (symmetry; apply take_drop).
    assert (Ha : size a = BUF_SIZE)
      by (unfold a; rewrite size_take; unfold BUF_SIZE in *; lia).
    destruct (fread_exact fin a b Hin Hab) as (fin' & Hr & Hin' & Hrem' & _).
    rewrite Ha in Hr. rewrite Hr, Ha, Z.ltb_irrefl.
    destruct (fwrite_healthy a fout Hout) as (fout' & -> & Hout' & Hd & Hp & _).
    rewrite Ha, Z.ltb_irrefl.
    assert (Hb : size b = size (remaining fin) - BUF_SIZE)
      by (rewrite Hab, size_app; lia).
    destruct (IH (total_read + BUF_SIZE) fin' fout') as (fin2 & fout2 & -> & ? & Hd2);
      try done; try (rewrite Hrem'; unfold BUF_SIZE in *; lia).
    exists fin2, fout2. split; [done|]. split; [done|].
    rewrite Hd2, Hd, Hp, Hrem'. destruct Hout as (_ & _ & Hpos).
    rewrite pwrite_app by done. f_equal.
    by rewrite (full_buffers_step (remaining fin)).
Qed.

Lemma pwrite_empty_file (bs : list byte) : pwrite [] 0 bs = bs.
Proof.
  destruct bs as [|x bs]; [done|]. unfold pwrite.
  cbn [Z.to_nat take]. rewrite drop_nil. cbn. by rewrite app_nil_r.
Qed.

(** What [ips_start] really copies when nothing fails: the full buffers of
    the source, and not the last, partly filled one. *)
Lemma ips_start_healthy (src : list byte) :
  exists fin fout,
    ips_start (fopen_r src []) (fopen_w []) = Some (PATCH_OK, fin, fout)
    /\ healthy fout /\ f_data fout = full_buffers src.
Proof.
  unfold ips_start, copy_file.
  set (fin := fopen_r src []).
  assert (Hstat : fstat_size fin = (Some (size src), fin)) by done.
  assert (Hrem : remaining fin = src) by done.
  rewrite Hstat.
  destruct (copy_file_loop_healthy (copy_fuel fin) (size src) 0 fin (fopen_w []))
    as (fin' & fout' & -> & Hh & Hd).
  - by repeat split.
  - by repeat split.
  - unfold copy_fuel. rewrite Hrem.
    pose proof (div_buf_bounds (size src) (size_nonneg src)).
    unfold BUF_SIZE in *. lia.
  - rewrite Hrem. lia.
  - exists fin', fout'. cbn. rewrite Hd, Hrem. cbn. by rewrite pwrite_empty_file.
Qed.

(** ** One hunk *)

Lemma ips_write_rle_loop_healthy (n : nat) (v : byte) (out : FILE) :
  healthy out ->
  exists out',
    ips_write_rle_loop n v out = (0, out') /\ healthy out'
    /\ f_data out' = pwrite (f_data out) (f_pos out) (replicate n v)
    /\ f_pos out' = f_pos out + Z.of_nat n.
Proof.
  revert out. induction n as [|n IH]; intros out Hout.
  { exists out. cbn. repeat split; try apply Hout. lia. }
  cbn [ips_write_rle_loop].
  destruct (fwrite_healthy [v] out Hout) as (out1 & -> & Hout1 & Hd & Hp & _).
  cbn [size length Z.of_nat Pos.of_succ_nat Z.eqb].
  destruct (IH out1 Hout1) as (out2 & -> & Hout2 & Hd2 & Hp2).
  exists out2. split; [done|]. split; [done|]. split.
  - rewrite Hd2, Hd, Hp. destruct Hout as (_ & _ & Hpos).
    by rewrite pwrite_app.
  - rewrite Hp2, Hp. unfold size. cbn [length]. lia.
Qed.

Lemma ips_write_hunk_loop_healthy (fuel : nat) (payload rest : list byte)
    (ips out : FILE) :
  healthy ips -> healthy out ->
  remaining ips = payload ++ rest ->
  size payload <= (Z.of_nat fuel - 1) * BUF_SIZE ->
  exists ips' out',
    ips_write_hunk_loop fuel (size payload) ips out = Some (0, ips', out')
    /\ healthy ips' /\ healthy out' /\ remaining ips' = rest
    /\ f_data out' = pwrite (f_data out) (f_pos out) payload
    /\ f_pos out' = f_pos out + size payload.
Proof.
  revert payload ips out.
  induction fuel as [|fuel IH]; intros payload ips out Hips Hout Hrem Hfuel.
  { pose proof (size_nonneg payload). unfold BUF_SIZE in *. lia. }
  cbn [ips_write_hunk_loop].
  destruct (Z.gtb_spec (size payload) 0) as [Hpos|Hzero].
  - set (n := Z.min BUF_SIZE (size payload)).
    set (a := take (Z.to_nat n) payload).
    set (b := drop (Z.to_nat n) payload).
    assert (Hab : payload = a ++ b) by (symmetry; apply take_drop).
    assert (Ha : size a = n)
      by (unfold a; rewrite size_take; unfold n, BUF_SIZE in *; lia).
    assert (Hrem1 : remaining ips = a ++ (b ++ rest))
      by (by rewrite Hrem, Hab at 1; rewrite <- (assoc_L (++))).
    destruct (fread_exact ips a (b ++ rest) Hips Hrem1)
      as (ips1 & Hr & Hips1 & Hrem' & _).
    rewrite Ha in Hr. rewrite Hr, Ha, Z.ltb_irrefl. cbn [andb].
    destruct (fwrite_healthy a out Hout) as (out1 & -> & Hout1 & Hd & Hp & _).
    rewrite Ha, Z.ltb_irrefl.
    assert (Hb : size payload - n = size b)
      by (rewrite Hab at 1; rewrite size_app; lia).
    rewrite Hb.
    destruct (IH b ips1 out1) as (ips2 & out2 & -> & ? & ? & ? & Hd2 & Hp2);
      try done.
    { rewrite <- Hb. unfold n, BUF_SIZE in *. lia. }
    exists ips2, out2. repeat (split; [done|]). split.
    + rewrite Hd2, Hd, Hp, Ha, <- Ha. destruct Hout as (_ & _ & Hposo).
      rewrite pwrite_app by done. by rewrite <- Hab.
    + rewrite Hp2, Hp. lia.
  - assert (payload = []) as ->.
    { destruct payload; [done|]. rewrite size_cons in Hzero.
      pose proof (size_nonneg payload). lia. }
    exists ips, out. rewrite size_nil, Z.add_0_r.
    do 3 (split; [done|]). by split.
Qed.

(** [ips_next] on a healthy patch stream that holds a well-formed hunk
    next: the hunk is laid over the output at its offset. *)
Lemma ips_next_hunk (h : ips_hunk) (rest : list byte) (fs : files) :
  hunk_ok h ->
  healthy (patch_stream fs) -> healthy (output_stream fs) ->
  remaining (patch_stream fs) = encode_hunk h ++ rest ->
  exists out' ips',
    ips_next fs = Some (HUNK_NEXT, mk_files (input_stream fs) out' ips')
    /\ healthy ips' /\ healthy out' /\ remaining ips' = rest
    /\ f_data out' = overlay (f_data (output_stream fs)) h
    /\ f_pos out' = hunk_offset h + size (hunk_bytes h).
Proof.
  intros Hok Hips Hout Hrem. unfold ips_next, ips_next_hunk_header.
  set (pre := take 5 (encode_hunk h)).
  set (body := drop 5 (encode_hunk h)).
  assert (Hsplit : encode_hunk h = pre ++ body) by (symmetry; apply take_drop).
  assert (Hpre : size pre = HUNK_PREAMBLE_BYTE_SIZE) by (by destruct h).
  assert (Hrem1 : remaining (patch_stream fs) = pre ++ (body ++ rest))
    by (by rewrite Hrem, Hsplit, <- (assoc_L (++))).
  destruct (fread_exact _ pre (body ++ rest) Hips Hrem1)
    as (ips1 & Hr & Hips1 & Hrem' & _).
  rewrite Hpre in Hr. rewrite Hr, Hpre, Z.ltb_irrefl. cbn [andb status_negative].
  unfold ips_patch_hunk.
  cbn [h_offset h_length output_stream patch_stream input_stream].
  assert (Hoff : be_24bit_int pre = hunk_offset h).
  { destruct h as [o p|o c v]; destruct Hok as [Ho _];
      apply (be_24bit_int_u24_be o _ Ho). }
  assert (Ho : 0 <= hunk_offset h) by (destruct h; cbn in *; lia).
  rewrite Hoff.
  destruct (fseek_healthy (hunk_offset h) _ Hout Ho)
    as (out1 & -> & Hout1 & Hd1 & Hp1 & _).
  cbn [Z.eqb].
  destruct h as [o p|o c v]; destruct Hok as [_ Hlen]; cbn [hunk_offset] in *.
  - assert (Hl : be_16bit_int (drop 3 pre) = size p)
      by (apply (be_16bit_int_u16_be (size p) []); lia).
    rewrite Hl.
    assert ((size p =? 0) = false) as -> by (apply Z.eqb_neq; lia).
    unfold ips_write_hunk.
    assert (Hbody : body = p).
    { unfold body. cbn [encode_hunk u24_be u16_be app drop]. done. }
    rewrite Hbody in Hrem'.
    destruct (ips_write_hunk_loop_healthy (write_hunk_fuel (size p)) p rest
                ips1 out1) as (ips2 & out2 & -> & ? & ? & ? & Hd2 & Hp2);
      try done.
    { unfold write_hunk_fuel.
      pose proof (div_buf_bounds (size p) (size_nonneg p)).
      unfold BUF_SIZE in *. lia. }
    cbn [Z.ltb Z.compare]. exists out2, ips2. repeat (split; [done|]).
    split; [|by rewrite Hp2, Hp1].
    by rewrite Hd2, Hd1, Hp1.
  - assert (Hl : be_16bit_int (drop 3 pre) = 0)
      by (apply (be_16bit_int_u16_be 0 []); lia).
    rewrite Hl. cbn [Z.eqb]. unfold ips_get_rle_payload.
    set (tail := u16_be c ++ [v]).
    assert (Hbody : body = tail) by done.
    rewrite Hbody in Hrem'.
    destruct (fread_exact ips1 tail rest Hips1 Hrem')
      as (ips2 & Hr2 & Hips2 & Hrem2 & _).
    change (size tail) with RLE_PAYLOAD_BYTE_SIZE in Hr2.
    rewrite Hr2. change (size tail) with RLE_PAYLOAD_BYTE_SIZE.
    rewrite Z.ltb_irrefl. cbn [andb Z.ltb Z.compare].
    assert (Hc : be_16bit_int tail = c)
      by (apply (be_16bit_int_u16_be c [v]); lia).
    rewrite Hc. unfold ips_write_rle_hunk.
    destruct (ips_write_rle_loop_healthy (Z.to_nat c) (nth 2 tail Byte.x00)
                out1 Hout1) as (out2 & -> & Hout2 & Hd2 & Hp2).
    cbn [Z.ltb Z.compare]. exists out2, ips2. repeat (split; [done|]).
    split.
    + by rewrite Hd2, Hd1, Hp1.
    + rewrite Hp2, Hp1. cbn [hunk_bytes]. by rewrite size_replicate.
Qed.

(** When fewer than five bytes are left and the read itself does not fail,
    [ips_next] reports the end of the patch, whatever those bytes are, and
    touches neither the source nor the output. *)
Lemma ips_next_short_preamble (fs : files) :
  f_err (patch_stream fs) = false ->
  fails_after (next_outcome (patch_stream fs)) HUNK_PREAMBLE_BYTE_SIZE = None ->
  size (remaining (patch_stream fs)) < HUNK_PREAMBLE_BYTE_SIZE ->
  exists ips',
    ips_next fs
    = Some (HUNK_DONE, mk_files (input_stream fs) (output_stream fs) ips').
Proof.
  intros Herr Hok Hshort. unfold ips_next, ips_next_hunk_header, fread.
  rewrite Hok. cbn [ferror feof f_err f_eof].
  assert (Htake : take (Z.to_nat HUNK_PREAMBLE_BYTE_SIZE)
                    (remaining (patch_stream fs)) = remaining (patch_stream fs))
    by (apply take_ge; unfold size in Hshort; lia).
  rewrite Htake, Herr.
  apply Z.ltb_lt in Hshort. rewrite Hshort, orb_true_r.
  cbn [andb status_negative]. by eexists.
Qed.

Lemma healthy_short_preamble (fs : files) :
  healthy (patch_stream fs) ->
  size (remaining (patch_stream fs)) < HUNK_PREAMBLE_BYTE_SIZE ->
  exists ips',
    ips_next fs
    = Some (HUNK_DONE, mk_files (input_stream fs) (output_stream fs) ips').
Proof.
  intros Hh Hshort. apply ips_next_short_preamble; [apply Hh| |done].
  by apply healthy_next_outcome.
Qed.

(** C1: [ips_start] on the five-byte source of the scenarios reports
    success and leaves the output file empty.  The last buffer [fread]
    fills is never a full one unless the length of the source is a multiple
    of [BUF_SIZE], and [copy_file] returns on it before it writes it. *)
Theorem ips_start_leaves_short_source_uncopied :
  exists fin fout,
    ips_start (fopen_r scenario_source []) (fopen_w [])
    = Some (PATCH_OK, fin, fout)
    /\ f_data fout = [] /\ f_data fout <> scenario_source.
Proof.
  eexists _, _. split; [vm_compute; reflexivity|]. cbn. by split.
Qed.

(** C2, as the code has it: when the bytes left at a hunk boundary are the
    [EOF] tag and at most one more byte, and the read does not fail,
    [ips_next] returns [HUNK_DONE] and leaves the output alone: the
    trailing byte is ignored.  The tag itself is never looked at: what ends
    the patch is that fewer than five bytes are left. *)
Theorem ips_next_done_on_final_eof_tag (fs : files) (trailing : list byte) :
  f_err (patch_stream fs) = false ->
  fails_after (next_outcome (patch_stream fs)) HUNK_PREAMBLE_BYTE_SIZE = None ->
  remaining (patch_stream fs) = EOF_TAG ++ trailing ->
  size trailing < 2 ->
  exists ips',
    ips_next fs
    = Some (HUNK_DONE, mk_files (input_stream fs) (output_stream fs) ips').
Proof.
  intros Herr Hok Hrem Htr. apply ips_next_short_preamble; try done.
  rewrite Hrem, size_app. change (size EOF_TAG) with 3.
  unfold HUNK_PREAMBLE_BYTE_SIZE. lia.
Qed.

(** C2, the claim refuted: with five bytes after the tag, a preamble that
    begins with [EOF] is decoded as a hunk (offset 0x454F46, length 0, so a
    run-length hunk, here of no byte), [ips_next] returns [HUNK_NEXT], and
    the bytes after the tag were read as part of that hunk. *)
Lemma eof_preamble_is_decoded_as_a_hunk :
  take 3 (remaining (patch_stream eof_tag_then_five_bytes)) = EOF_TAG
  /\ exists fs',
       ips_next eof_tag_then_five_bytes = Some (HUNK_NEXT, fs')
       /\ f_pos (output_stream fs') = 0x454F46
       /\ remaining (patch_stream fs') = [].
Proof.
  split; [reflexivity|]. eexists. split; [vm_compute; reflexivity|].
  by split.
Qed.

(** ** Failures of the operating system inside [ips_next] *)

Lemma ips_write_rle_loop_cases (n : nat) (v : byte) (out : FILE) :
  let '(rc, out') := ips_write_rle_loop n v out in
  (rc = 0 /\ f_failures out' = f_failures out)
  \/ (rc = -1 /\ f_failures out' = S (f_failures out)).
Proof.
  revert out. induction n as [|n IH]; intros out; cbn [ips_write_rle_loop].
  { by left. }
  pose proof (fwrite_cases [v] out) as Hw.
  destruct (fwrite [v] out) as [nwritten out1].
  change (size [v]) with 1 in Hw.
  destruct Hw as [[-> Hf]|[Hn Hf]].
  - cbn [Z.eqb]. specialize (IH out1).
    destruct (ips_write_rle_loop n v out1) as [rc out2].
    rewrite <- Hf. exact IH.
  - assert (nwritten = 0) as -> by lia. cbn [Z.eqb]. by right.
Qed.

Lemma ips_write_hunk_loop_cases (fuel : nat) (len : Z) (ips out : FILE) :
  (1 <= fuel)%nat -> len <= (Z.of_nat fuel - 1) * BUF_SIZE ->
  exists rc ips' out',
    ips_write_hunk_loop fuel len ips out = Some (rc, ips', out')
    /\ f_data ips' = f_data ips /\ f_pos ips <= f_pos ips'
    /\ ((rc = 0 /\ f_failures ips' = f_failures ips
         /\ f_failures out' = f_failures out)
        \/ (rc = -1
            /\ (f_failures ips' + f_failures out'
                <= S (f_failures ips + f_failures out))%nat)).
Proof.
  revert len ips out.
  induction fuel as [|fuel IH]; intros len ips out Hfuel Hlen; [lia|].
  cbn [ips_write_hunk_loop].
  destruct (Z.gtb_spec len 0) as [Hpos|Hle].
  2:{ exists 0, ips, out. split; [done|]. split; [done|]. split; [lia|].
      by left. }
  set (n := Z.min BUF_SIZE len).
  assert (Hn : 0 < n) by (unfold n, BUF_SIZE; lia).
  pose proof (fread_cases n ips ltac:(lia)) as Hr.
  destruct (fread n ips) as [buf ips1].
  destruct Hr as (Hd & Hp & Hsz & Hr). pose proof (size_nonneg buf) as Hb.
  destruct Hr as [(Hf & He & Heof & _)|(Hf & He & Hshort)].
  - destruct (Z.ltb_spec (size buf) n) as [Hshort|Hfull]; cbn [andb].
    + unfold feof. rewrite (Heof Hshort).
      exists (-1), ips1, out.
      split; [by destruct (ferror ips1)|].
      split; [done|]. split; [lia|]. right. split; [done|]. lia.
    + pose proof (fwrite_cases buf out) as Hw.
      destruct (fwrite buf out) as [nwritten out1].
      destruct Hw as [[-> Hfo]|[Hnw Hfo]].
      * rewrite Z.ltb_irrefl.
        destruct (IH (len - size buf) ips1 out1)
          as (rc & ips2 & out2 & -> & Hd2 & Hp2 & Hc);
          [unfold n, BUF_SIZE in *; lia..|].
        exists rc, ips2, out2. split; [done|]. split; [congruence|].
        split; [lia|]. destruct Hc as [(-> & H1 & H2)|(-> & H1)].
        -- left. split; [done|]. split; congruence.
        -- right. split; [done|]. lia.
      * assert ((nwritten <? size buf) = true) as -> by (apply Z.ltb_lt; lia).
        exists (-1), ips1, out1. split; [done|]. split; [done|].
        split; [lia|]. right. split; [done|]. lia.
  - assert ((size buf <? n) = true) as -> by (by apply Z.ltb_lt).
    unfold ferror. rewrite He. cbn [andb].
    exists (-1), ips1, out. split; [done|]. split; [done|].
    split; [lia|]. right. split; [done|]. lia.
Qed.

Lemma ips_get_rle_payload_cases (ips : FILE) :
  let '(rc, _, _, ips') := ips_get_rle_payload ips in
  f_data ips' = f_data ips /\ f_pos ips <= f_pos ips'
  /\ ((rc = 0 /\ f_failures ips' = f_failures ips)
      \/ (rc = -1 /\ (f_failures ips' <= S (f_failures ips))%nat)).
Proof.
  unfold ips_get_rle_payload.
  pose proof (fread_cases RLE_PAYLOAD_BYTE_SIZE ips ltac:(done)) as Hr.
  destruct (fread RLE_PAYLOAD_BYTE_SIZE ips) as [buf ips1].
  destruct Hr as (Hd & Hp & Hsz & Hr). pose proof (size_nonneg buf) as Hb.
  destruct Hr as [(Hf & He & Heof & _)|(Hf & He & Hshort)].
  - destruct (Z.ltb_spec (size buf) RLE_PAYLOAD_BYTE_SIZE) as [Hshort|Hfull];
      cbn [andb].
    + unfold feof. rewrite (Heof Hshort).
      destruct (ferror ips1); cbn [andb];
        (split; [done|]; split; [lia|]; right; split; [done|]; lia).
    + split; [done|]. split; [lia|]. by left.
  - assert ((size buf <? RLE_PAYLOAD_BYTE_SIZE) = true) as ->
      by (by apply Z.ltb_lt).
    unfold ferror. rewrite He. cbn [andb].
    split; [done|]. split; [lia|]. right. split; [done|]. lia.
Qed.

Lemma write_hunk_fuel_enough (len : Z) :
  (1 <= write_hunk_fuel len)%nat
  /\ len <= (Z.of_nat (write_hunk_fuel len) - 1) * BUF_SIZE.
Proof.
  unfold write_hunk_fuel. split; [lia|].
  destruct (Z.le_gt_cases 0 len) as [Hlen|Hlen].
  - pose proof (div_buf_bounds len Hlen). unfold BUF_SIZE in *. lia.
  - unfold BUF_SIZE. lia.
Qed.

(** [ips_next] always returns.  It returns [HUNK_NEXT] only after it read a
    whole preamble and no call failed, [HUNK_DONE] only when no call
    failed, and at most one call fails in it: the first failure makes it
    return [HUNK_ERR_IO]. *)
Lemma ips_next_cases (fs : files) :
  exists st fs',
    ips_next fs = Some (st, fs')
    /\ f_data (patch_stream fs') = f_data (patch_stream fs)
    /\ ((st = HUNK_NEXT /\ failures fs' = failures fs
         /\ f_pos (patch_stream fs) + 5 <= f_pos (patch_stream fs')
         /\ 5 <= size (remaining (patch_stream fs)))
        \/ (st = HUNK_DONE /\ failures fs' = failures fs)
        \/ (st = HUNK_ERR_IO /\ (failures fs' <= S (failures fs))%nat)).
Proof.
  destruct fs as [fin out ips]. unfold ips_next, ips_next_hunk_header.
  cbn [patch_stream input_stream output_stream].
  pose proof (fread_cases HUNK_PREAMBLE_BYTE_SIZE ips ltac:(done)) as Hr.
  destruct (fread HUNK_PREAMBLE_BYTE_SIZE ips) as [buf ips1].
  destruct Hr as (Hd & Hp & Hsz & Hr). pose proof (size_nonneg buf) as Hb.
  unfold failures. cbn [patch_stream input_stream output_stream].
  destruct Hr as [(Hf & He & Heof & Hgot)|(Hf & He & Hshort)].
  2:{ assert ((size buf <? HUNK_PREAMBLE_BYTE_SIZE) = true) as ->
        by (by apply Z.ltb_lt).
      unfold ferror. rewrite He. cbn [andb status_negative].
      eexists _, _. split; [reflexivity|]. cbn. split; [done|].
      right. right. split; [done|]. lia. }
  destruct (Z.ltb_spec (size buf) HUNK_PREAMBLE_BYTE_SIZE) as [Hshort|Hfull];
    cbn [andb].
  { unfold feof. rewrite (Heof Hshort).
    destruct (ferror ips1); cbn [andb status_negative];
      eexists _, _; (split; [reflexivity|]); cbn; (split; [done|]).
    - right. right. split; [done|]. lia.
    - right. left. split; [done|]. lia. }
  assert (Hsize : size buf = 5) by (unfold HUNK_PREAMBLE_BYTE_SIZE in *; lia).
  assert (Hrem : 5 <= size (remaining ips)).
  { rewrite Hgot, size_take in Hsize by done.
    unfold HUNK_PREAMBLE_BYTE_SIZE in *. lia. }
  cbn [status_negative]. unfold ips_patch_hunk.
  cbn [patch_stream input_stream output_stream h_offset h_length].
  pose proof (fseek_cases (be_24bit_int buf) out) as Hs.
  destruct (fseek (be_24bit_int buf) out) as [rc out1].
  destruct Hs as [[-> Hfo]|[-> Hfo]]; cbn [Z.eqb Z.ltb Z.compare].
  2:{ eexists _, _. split; [reflexivity|]. cbn. split; [done|].
      right. right. split; [done|]. lia. }
  destruct (be_16bit_int (drop 3 buf) =? 0).
  - pose proof (ips_get_rle_payload_cases ips1) as Hg.
    destruct (ips_get_rle_payload ips1) as [[[rc2 rle_len] v] ips2].
    destruct Hg as (Hd2 & Hp2 & [[-> Hf2]|[-> Hf2]]); cbn [Z.ltb Z.compare].
    2:{ eexists _, _. split; [reflexivity|]. cbn. split; [congruence|].
        right. right. split; [done|]. lia. }
    unfold ips_write_rle_hunk.
    pose proof (ips_write_rle_loop_cases (Z.to_nat rle_len) v out1) as Hw.
    destruct (ips_write_rle_loop (Z.to_nat rle_len) v out1) as [rc3 out2].
    destruct Hw as [[-> Hf3]|[-> Hf3]]; cbn [Z.ltb Z.compare];
      eexists _, _; (split; [reflexivity|]); cbn; (split; [congruence|]).
    + left. split; [done|]. split; [lia|]. split; [lia|done].
    + right. right. split; [done|]. lia.
  - unfold ips_write_hunk.
    destruct (write_hunk_fuel_enough (be_16bit_int (drop 3 buf))) as [Hf1 Hf2].
    destruct (ips_write_hunk_loop_cases _ _ ips1 out1 Hf1 Hf2)
      as (rc2 & ips2 & out2 & -> & Hd2 & Hp2 & Hc).
    destruct Hc as [(-> & H1 & H2)|(-> & H1)]; cbn [Z.ltb Z.compare];
      eexists _, _; (split; [reflexivity|]); cbn; (split; [congruence|]).
    + left. split; [done|]. split; [lia|]. split; [lia|done].
    + right. right. split; [done|]. lia.
Qed.

(** ** Detection *)

Lemma detect_patch_type_ips (body : list byte) :
  exists ips,
    detect_patch_type (fopen_r (IPS_EXPECTED_MARKER ++ body) [])
    = (PATCH_TYPE_IPS, ips)
    /\ healthy ips /\ remaining ips = body.
Proof.
  unfold detect_patch_type, ips_verify_marker, patch_verify_marker.
  set (f := fopen_r (IPS_EXPECTED_MARKER ++ body) []).
  assert (Hf : healthy f) by (by repeat split).
  destruct (fread_exact f IPS_EXPECTED_MARKER body Hf eq_refl)
    as (ips & Hr & Hh & Hrem & _).
  unfold IPS_MARKER_SIZE. rewrite Hr, Z.ltb_irrefl. cbn [andb].
  assert (bytes_eqb IPS_EXPECTED_MARKER IPS_EXPECTED_MARKER = true) as ->
    by (by apply bytes_eqb_eq).
  cbn [patch_err_eqb]. by exists ips.
Qed.

(** If what a marker check reads is the marker, the file starts with it:
    whatever the device does, the bytes read are a prefix of the file. *)
Lemma patch_verify_marker_ok (f : FILE) (marker : list byte) (f' : FILE) :
  f_pos f = 0 ->
  patch_verify_marker f marker (size marker) = (PATCH_OK, f') ->
  take (length marker) (f_data f) = marker.
Proof.
  intros Hpos. unfold patch_verify_marker, fread, remaining.
  rewrite Hpos. cbn [Z.to_nat drop].
  assert (Hpre : forall j, take j (f_data f) = marker ->
                           take (length marker) (f_data f) = marker).
  { intros j Hj. rewrite <- Hj, length_take.
    destruct (Nat.le_gt_cases j (length (f_data f))).
    - by rewrite Nat.min_l.
    - rewrite Nat.min_r by lia. by rewrite !take_ge by lia. }
  destruct (fails_after _ _) as [k|]; cbn [ferror f_err];
    repeat match goal with
      | |- context [if ?c then _ else _] => destruct c eqn:?
      end; intros [= <-]; try done;
    match goal with
    | H : bytes_eqb _ _ = true |- _ => apply bytes_eqb_eq in H
    end; eauto.
Qed.

Lemma patch_verify_marker_data (f : FILE) (marker : list byte) (n : Z) :
  f_data (patch_verify_marker f marker n).2 = f_data f.
Proof.
  unfold patch_verify_marker, fread.
  destruct (fails_after _ _); cbn [ferror f_err];
    repeat match goal with
      | |- context [if ?c then _ else _] => destruct c
      end; done.
Qed.

Lemma patch_err_eqb_ok (rc : rombp_patch_err) :
  patch_err_eqb rc PATCH_OK = true <-> rc = PATCH_OK.
Proof. by destruct rc. Qed.

(** A patch file that starts with neither marker is of unknown type,
    whatever the device does while the markers are read. *)
Lemma detect_patch_type_unknown (data : list byte) (faults : list io_outcome) :
  take 5 data <> IPS_EXPECTED_MARKER ->
  take 4 data <> BPS_EXPECTED_MARKER ->
  exists patch_file,
    detect_patch_type (fopen_r data faults) = (PATCH_TYPE_UNKNOWN, patch_file).
Proof.
  intros Hips Hbps. unfold detect_patch_type.
  set (f := fopen_r data faults).
  pose proof (patch_verify_marker_data f IPS_EXPECTED_MARKER IPS_MARKER_SIZE)
    as Hdata1.
  unfold ips_verify_marker.
  destruct (patch_verify_marker f IPS_EXPECTED_MARKER IPS_MARKER_SIZE)
    as [rc1 f1] eqn:E1.
  destruct (patch_err_eqb rc1 PATCH_OK) eqn:Hrc1.
  { apply patch_err_eqb_ok in Hrc1 as ->.
    by apply patch_verify_marker_ok in E1. }
  cbn [snd] in Hdata1. unfold fseek.
  destruct (next_outcome f1); cbn [Z.eqb]; [|by eexists].
  set (f2 := mkFILE _ _ _ _ _ _). unfold bps_verify_marker.
  destruct (patch_verify_marker f2 BPS_EXPECTED_MARKER (size BPS_EXPECTED_MARKER))
    as [rc2 f3] eqn:E2.
  destruct (patch_err_eqb rc2 PATCH_OK) eqn:Hrc2; [|by eexists].
  apply patch_err_eqb_ok in Hrc2 as ->.
  apply patch_verify_marker_ok in E2; [|done].
  cbn [f2 f_data] in E2. by rewrite Hdata1 in E2.
Qed.

(** The rewind between the two attempts: a file that starts with [BPS1] is
    recognised after the IPS attempt has read its first five bytes. *)
Lemma detect_patch_type_bps (body : list byte) :
  exists bps,
    detect_patch_type (fopen_r (BPS_EXPECTED_MARKER ++ body) [])
    = (PATCH_TYPE_BPS, bps)
    /\ remaining bps = body.
Proof.
  set (f := fopen_r (BPS_EXPECTED_MARKER ++ body) []).
  assert (Hips : exists f1, ips_verify_marker f = (PATCH_UNKNOWN_TYPE, f1)
                            /\ f_data f1 = f_data f /\ healthy f1).
  { unfold ips_verify_marker, patch_verify_marker, fread.
    change (fails_after (next_outcome f) IPS_MARKER_SIZE) with (@None nat).
    change (Z.to_nat IPS_MARKER_SIZE) with 5%nat.
    change (remaining f) with (BPS_EXPECTED_MARKER ++ body).
    cbn [ferror f_err]. rewrite andb_false_r.
    assert (bytes_eqb (take 5 (BPS_EXPECTED_MARKER ++ body)) IPS_EXPECTED_MARKER
            = false) as -> by reflexivity.
    eexists. split; [reflexivity|]. split; [done|].
    repeat split; cbn; done. }
  destruct Hips as (f1 & E1 & Hd1 & Hh1).
  unfold detect_patch_type. rewrite E1. cbn [patch_err_eqb].
  destruct (fseek_healthy 0 f1 Hh1 ltac:(done)) as (f2 & -> & Hh2 & Hd2 & Hp2 & _).
  cbn [Z.eqb].
  assert (Hrem : remaining f2 = BPS_EXPECTED_MARKER ++ body)
    by (unfold remaining; by rewrite Hp2, Hd2, Hd1).
  unfold bps_verify_marker, patch_verify_marker.
  destruct (fread_exact f2 BPS_EXPECTED_MARKER body Hh2 Hrem)
    as (f3 & -> & _ & Hrem3 & _).
  rewrite Z.ltb_irrefl. cbn [andb].
  assert (bytes_eqb BPS_EXPECTED_MARKER BPS_EXPECTED_MARKER = true) as ->
    by reflexivity.
  cbn [patch_err_eqb]. by exists f3.
Qed.

(** ** Hunks laid one over the other *)

Lemma overlay_later_wins (hs1 hs2 : list ips_hunk) (h : ips_hunk)
    (target : list byte) (i : nat) (b : byte) :
  0 <= hunk_offset h -> Forall (fun h' => 0 <= hunk_offset h') hs2 ->
  hunk_bytes h !! i = Some b ->
  Forall (fun h' => ~ covers h' (hunk_offset h + Z.of_nat i)) hs2 ->
  foldl overlay target (hs1 ++ h :: hs2) !! (Z.to_nat (hunk_offset h) + i)%nat
  = Some b.
Proof.
  intros Ho Hos Hi Hfree. rewrite foldl_app. cbn [foldl].
  set (t1 := overlay (foldl overlay target hs1) h).
  assert (H1 : t1 !! (Z.to_nat (hunk_offset h) + i)%nat = Some b)
    by (by apply lookup_pwrite_inside).
  clearbody t1. revert t1 H1.
  induction hs2 as [|h' hs2 IH]; intros t1 H1; [done|].
  cbn [foldl]. inversion Hos as [|? ? Ho' Hos']; subst.
  inversion Hfree as [|? ? Hf' Hfree']; subst.
  apply IH; try done.
  apply lookup_pwrite_outside; try done.
  unfold covers in Hf'. lia.
Qed.

(** ** The published hunk counter *)

Lemma counts_from_bounds (c : Z) (published : list rombp_patch_status) :
  counts_from c published -> 0 <= c ->
  c + Z.of_nat (length published) < 2 ^ 64 ->
  forall i a, published !! i = Some a ->
              c <= hunk_count a <= c + Z.of_nat (S i).
Proof.
  revert c. induction published as [|s rest IH]; intros c Hc H0 Hlen i a Hi;
    [done|].
  destruct Hc as [Hs Hrest]. cbn [length] in Hlen.
  assert (Hstep : c <= hunk_count s <= c + 1).
  { rewrite Hs. destruct (iter_status s); try lia.
    rewrite Z.mod_small; lia. }
  destruct i as [|i]; cbn in Hi.
  - injection Hi as <-. lia.
  - specialize (IH (hunk_count s) Hrest ltac:(lia) ltac:(lia) i a Hi). lia.
Qed.

Lemma counts_from_monotone (c : Z) (published : list rombp_patch_status) :
  counts_from c published -> 0 <= c ->
  c + Z.of_nat (length published) < 2 ^ 64 ->
  forall i j a b, (i <= j)%nat ->
                  published !! i = Some a -> published !! j = Some b ->
                  hunk_count a <= hunk_count b.
Proof.
  revert c. induction published as [|s rest IH];
    intros c Hc H0 Hlen i j a b Hij Hi Hj; [done|].
  pose proof (counts_from_bounds c (s :: rest) Hc H0 Hlen 0%nat s eq_refl) as Hs.
  destruct Hc as [_ Hrest]. cbn [length] in Hlen.
  destruct i as [|i], j as [|j]; cbn in Hi, Hj; try lia.
  - injection Hi as <-. injection Hj as <-. lia.
  - injection Hi as <-.
    pose proof (counts_from_bounds _ rest Hrest ltac:(lia) ltac:(lia) j b Hj).
    lia.
  - apply (IH (hunk_count s) Hrest ltac:(lia) ltac:(lia) i j a b); [lia|done..].
Qed.

Lemma read_patch_status_lookup (initial : rombp_patch_status)
    (shared : shared_status) (k : nat) :
  rombp_read_patch_status initial shared k
  = match k with
    | O => initial
    | S k' => default initial (shared !! Nat.min k' (pred (length shared)))
    end.
Proof.
  unfold rombp_read_patch_status. destruct k as [|k]; [done|].
  rewrite last_lookup, length_take.
  destruct shared as [|s shared]; [done|]. cbn [length pred].
  destruct (Nat.le_gt_cases (S k) (S (length shared))).
  - rewrite Nat.min_l by lia. cbn [pred].
    rewrite lookup_take_lt by lia. f_equal. f_equal. lia.
  - rewrite Nat.min_r by lia. cbn [pred].
    rewrite lookup_take_lt by lia. f_equal. f_equal. lia.
Qed.

Section ControllerFacts.

Context {bps_file_header : Type}.
Variable bps_start :
  FILE -> bps_file_header -> rombp_patch_err * bps_file_header * FILE.
Variable bps_next :
  bps_file_header -> files -> rombp_hunk_iter_status * bps_file_header * files.
Variable bps_end :
  bps_file_header -> FILE -> rombp_patch_err * bps_file_header * FILE.

(** The iteration over a healthy patch stream that holds well-formed
    hunks and then fewer than five bytes: every hunk is applied in the
    order of the patch and counted, and the end of the file ends the
    iteration without an error. *)
Lemma patch_loop_ips_hunks (hs : list ips_hunk) (tail : list byte)
    (fuel : nat) (w : worker bps_file_header) :
  Forall hunk_ok hs ->
  size tail < HUNK_PREAMBLE_BYTE_SIZE ->
  healthy (patch_stream (w_files w)) -> healthy (output_stream (w_files w)) ->
  remaining (patch_stream (w_files w)) = encode_hunks hs ++ tail ->
  iter_status (w_local w) = HUNK_NEXT ->
  0 <= hunk_count (w_local w) < 2 ^ 64 ->
  (length hs + 2 <= fuel)%nat ->
  exists w',
    patch_loop bps_next bps_end fuel PATCH_TYPE_IPS w = Some w'
    /\ w_local w'
       = mk_status ((hunk_count (w_local w) + Z.of_nat (length hs)) mod 2 ^ 64)
           HUNK_DONE PATCH_OK (is_done (w_local w))
    /\ f_data (output_stream (w_files w'))
       = foldl overlay (f_data (output_stream (w_files w))) hs.
Proof.
  intros Hok Htail. revert fuel w.
  induction Hok as [|h hs Hh Hok IH];
    intros fuel [ctx local fs shared] Hips Hout Hrem Hst Hc Hfuel;
    cbn [w_files w_local w_ctx w_shared] in *.
  - destruct fuel as [|[|fuel]]; [cbn in Hfuel; lia..|].
    cbn [patch_loop w_local w_files w_ctx w_shared].
    rewrite Hst. cbn [next_hunk].
    destruct (healthy_short_preamble fs Hips) as (ips' & ->);
      [by rewrite Hrem|].
    cbn [set_iter_status iter_status end_patch w_local w_files w_ctx w_shared].
    eexists. split; [reflexivity|]. cbn. split; [|done].
    rewrite Z.add_0_r, Z.mod_small by done. done.
  - destruct fuel as [|fuel]; [cbn in Hfuel; lia|].
    cbn [patch_loop w_local w_files w_ctx w_shared].
    rewrite Hst. cbn [next_hunk].
    assert (Hrem1 : remaining (patch_stream fs)
                    = encode_hunk h ++ (encode_hunks hs ++ tail))
      by (rewrite Hrem; unfold encode_hunks; cbn [map concat];
          by rewrite <- (assoc_L (++))).
    destruct (ips_next_hunk h _ fs Hh Hips Hout Hrem1)
      as (out' & ips' & -> & Hips' & Hout' & Hrem' & Hd & _).
    set (w1 := mk_worker _ _ _ _).
    destruct (IH fuel w1) as (w' & -> & Hl & Hd'); try done.
    + cbn. apply Z.mod_pos_bound. lia.
    + cbn in Hfuel. lia.
    + exists w'. split; [done|]. split.
      * rewrite Hl. cbn. f_equal.
        rewrite Z.add_mod_idemp_l by lia. f_equal. lia.
      * rewrite Hd'. cbn. by rewrite Hd.
Qed.


(** A whole apply of a well-formed IPS patch when nothing fails. *)
Lemma execute_patch_ips_hunks (src : list byte) (hs : list ips_hunk)
    (tail : list byte) (fuel : nat) (ctx : bps_file_header)
    (status : shared_status) :
  Forall hunk_ok hs ->
  size tail < HUNK_PREAMBLE_BYTE_SIZE ->
  (length hs + 2 <= fuel)%nat ->
  exists fs published,
    execute_patch bps_start bps_next bps_end fuel ctx (sound_command src (ips_patch_file hs tail)) status
    = Some (mk_run PATCH_OK
              (published
               ++ [mk_status (Z.of_nat (length hs) mod 2 ^ 64)
                     HUNK_DONE PATCH_OK true])
              (Some fs))
    /\ f_data (output_stream fs) = foldl overlay (full_buffers src) hs.
Proof.
  intros Hok Htail Hfuel.
  unfold execute_patch, sound_command, ips_patch_file.
  cbn [open_patch_files input_file output_file ips_file patch_stream
       input_stream output_stream].
  destruct (detect_patch_type_ips (encode_hunks hs ++ tail))
    as (ips & -> & Hips & Hrem).
  cbn [start_patch input_stream output_stream patch_stream].
  destruct (ips_start_healthy src) as (fin & fout & -> & Hout & Hd).
  cbn [patch_err_eqb negb Z.ltb Z.compare].
  set (w := mk_worker _ _ _ _).
  destruct (patch_loop_ips_hunks hs tail fuel w) as (w' & -> & Hl & Hd');
    try done.
  eexists _, (w_shared w'). split.
  - unfold patch_done, rombp_update_patch_status. rewrite Hl. cbn.
    reflexivity.
  - cbn. rewrite Hd'. cbn. by rewrite Hd.
Qed.


(** C6: hunks need not be ordered or disjoint.  In an apply on which
    nothing fails, the hunks of the patch are laid over the output one
    after the other, in the order of the patch, each at its own offset;
    so a byte of a hunk is in the final output wherever no later hunk
    covers its offset, and where two hunks overlap the later one wins.
    (The output the first hunk is laid over is what [ips_start] copied.) *)
Theorem ips_hunks_overlay_in_patch_order (src : list byte)
    (hs : list ips_hunk) (tail : list byte) (fuel : nat)
    (ctx : bps_file_header) (status : shared_status) :
  Forall hunk_ok hs ->
  size tail < HUNK_PREAMBLE_BYTE_SIZE ->
  (length hs + 2 <= fuel)%nat ->
  exists r fs,
    execute_patch bps_start bps_next bps_end fuel ctx (sound_command src (ips_patch_file hs tail)) status
    = Some r
    /\ run_err r = PATCH_OK /\ run_files r = Some fs
    /\ f_data (output_stream fs) = foldl overlay (full_buffers src) hs
    /\ forall hs1 h hs2 i b,
         hs = hs1 ++ h :: hs2 ->
         hunk_bytes h !! i = Some b ->
         Forall (fun h' => ~ covers h' (hunk_offset h + Z.of_nat i)) hs2 ->
         f_data (output_stream fs) !! (Z.to_nat (hunk_offset h) + i)%nat
         = Some b.
Proof.
  intros Hok Htail Hfuel.
  destruct (execute_patch_ips_hunks src hs tail fuel ctx status)
    as (fs & pubs & -> & Hd); try done.
  eexists _, fs. do 3 (split; [reflexivity|]). split; [done|].
  intros hs1 h hs2 i b -> Hi Hfree. rewrite Hd.
  apply Forall_app in Hok as [_ Hok].
  inversion Hok as [|? ? Hh Hok2]; subst.
  apply overlay_later_wins; try done.
  - destruct h; cbn in *; lia.
  - eapply Forall_impl; [exact Hok2|].
    intros [] ?; cbn in *; lia.
Qed.

(** C9: an IPS patch file that just ends after its last hunk, with no
    [EOF] tag or with fewer than five bytes of anything, is accepted: the
    iteration ends with [HUNK_DONE], every hunk is counted, and the apply
    reports [PATCH_OK]. *)
Theorem ips_patch_ending_at_end_of_file_is_accepted (src : list byte)
    (hs : list ips_hunk) (tail : list byte) (fuel : nat)
    (ctx : bps_file_header) (status : shared_status) :
  Forall hunk_ok hs ->
  size tail < HUNK_PREAMBLE_BYTE_SIZE ->
  (length hs + 2 <= fuel)%nat ->
  exists r published,
    execute_patch bps_start bps_next bps_end fuel ctx (sound_command src (ips_patch_file hs tail)) status
    = Some r
    /\ run_err r = PATCH_OK
    /\ run_shared r
       = published
         ++ [mk_status (Z.of_nat (length hs) mod 2 ^ 64)
               HUNK_DONE PATCH_OK true].
Proof.
  intros Hok Htail Hfuel.
  destruct (execute_patch_ips_hunks src hs tail fuel ctx status)
    as (fs & pubs & -> & _); try done.
  by eexists _, pubs.
Qed.

(** C5: a run-length hunk and the raw hunk that spells the same bytes out
    give the same output file, wherever the hunk stands in the patch. *)
Theorem rle_hunk_same_output_as_raw_hunk (src : list byte)
    (before after : list ips_hunk) (tail : list byte)
    (offset len : Z) (value : byte) (fuel : nat)
    (ctx : bps_file_header) (status : shared_status) :
  0 <= offset < 2 ^ 24 -> 0 < len < 2 ^ 16 ->
  Forall hunk_ok before -> Forall hunk_ok after ->
  size tail < HUNK_PREAMBLE_BYTE_SIZE ->
  (length before + length after + 3 <= fuel)%nat ->
  exists r_rle r_raw fs_rle fs_raw,
    execute_patch bps_start bps_next bps_end fuel ctx
      (sound_command src
         (ips_patch_file (before ++ Rle offset len value :: after) tail))
      status = Some r_rle
    /\ execute_patch bps_start bps_next bps_end fuel ctx
         (sound_command src
            (ips_patch_file
               (before ++ Raw offset (replicate (Z.to_nat len) value) :: after)
               tail))
         status = Some r_raw
    /\ run_files r_rle = Some fs_rle /\ run_files r_raw = Some fs_raw
    /\ run_err r_rle = PATCH_OK /\ run_err r_raw = PATCH_OK
    /\ f_data (output_stream fs_rle) = f_data (output_stream fs_raw).
Proof.
  intros Ho Hlen Hb Ha Htail Hfuel.
  destruct (execute_patch_ips_hunks src
              (before ++ Rle offset len value :: after) tail fuel ctx status)
    as (fs1 & pubs1 & -> & Hd1); try done.
  { apply Forall_app. split; [done|]. constructor; [|done]. cbn. lia. }
  { rewrite length_app. cbn [length]. lia. }
  destruct (execute_patch_ips_hunks src
              (before ++ Raw offset (replicate (Z.to_nat len) value) :: after)
              tail fuel ctx status)
    as (fs2 & pubs2 & -> & Hd2); try done.
  { apply Forall_app. split; [done|]. constructor; [|done]. cbn.
    rewrite size_replicate. lia. }
  { rewrite length_app. cbn [length]. lia. }
  eexists _, _, fs1, fs2. do 6 (split; [reflexivity|]).
  rewrite Hd1, Hd2, !foldl_app. done.
Qed.

(** C3: the raw-hunk scenario.  The apply reports success, but the output
    file is the four bytes [00 00 AB CD]: [ips_start] copied nothing of the
    five-byte source, so the file ends where the hunk ends. *)
Theorem raw_hunk_scenario_output_is_four_bytes (ctx : bps_file_header) :
  exists r fs,
    execute_patch bps_start bps_next bps_end 3 ctx (sound_command scenario_source scenario_raw_patch) []
    = Some r
    /\ run_err r = PATCH_OK /\ run_files r = Some fs
    /\ f_data (output_stream fs) = [Byte.x00; Byte.x00; Byte.xab; Byte.xcd]
    /\ f_data (output_stream fs)
       <> [Byte.x00; Byte.x00; Byte.xab; Byte.xcd; Byte.x00].
Proof.
  eexists _, _. split; [vm_compute; reflexivity|].
  cbn. repeat split. discriminate.
Qed.


(** C4: when the three files open and the patch file starts neither with
    [PATCH] nor with [BPS1], the apply ends with [PATCH_UNKNOWN_TYPE],
    published as the terminal status, and the source and the output are
    not touched.  This holds whatever the device does during detection:
    a failed read or a failed rewind cannot make a marker match. *)
Theorem unknown_marker_yields_unknown_type (data : list byte)
    (faults : list io_outcome) (source output : FILE) (fuel : nat)
    (ctx : bps_file_header) (status : shared_status) :
  take 5 data <> IPS_EXPECTED_MARKER ->
  take 4 data <> BPS_EXPECTED_MARKER ->
  exists patch_file,
    execute_patch bps_start bps_next bps_end fuel ctx
      (mk_command (Some source) (Some output) (Some (fopen_r data faults)))
      status
    = Some (mk_run PATCH_UNKNOWN_TYPE
              (status ++ [mk_status 0 HUNK_DONE PATCH_UNKNOWN_TYPE true])
              (Some (mk_files source output patch_file))).
Proof.
  intros Hips Hbps.
  destruct (detect_patch_type_unknown data faults Hips Hbps) as (pf & Hd).
  exists pf. unfold execute_patch.
  cbn [open_patch_files input_file output_file ips_file patch_stream].
  by rewrite Hd.
Qed.


(** What the iteration publishes, for any patch type and any BPS decoder:
    records that are not done, whose counter follows [counts_from]; and
    it ends on [HUNK_DONE] or [HUNK_ERR_IO] only. *)
Lemma patch_loop_published (fuel : nat) (patch_type : rombp_patch_type)
    (w w' : worker bps_file_header) :
  patch_loop bps_next bps_end fuel patch_type w = Some w' ->
  exists published,
    w_shared w' = w_shared w ++ published
    /\ Forall (fun s => is_done s = is_done (w_local w)) published
    /\ is_done (w_local w') = is_done (w_local w)
    /\ iter_status (w_local w') <> HUNK_NEXT
    /\ forall final,
         hunk_count final = hunk_count (w_local w') ->
         iter_status final <> HUNK_NEXT ->
         counts_from (hunk_count (w_local w)) (published ++ [final]).
Proof.
  revert w. induction fuel as [|fuel IH]; intros w Hrun; [done|].
  cbn [patch_loop] in Hrun.
  destruct (iter_status (w_local w)) eqn:Hst.
  - by apply IH in Hrun.
  - destruct (next_hunk _ _ _ _) as [[[st ctx] fs]|]; [|done].
    apply IH in Hrun as (pubs & Hsh & Hdone & Hd & Hne & Hcnt).
    cbn [w_shared w_local] in *.
    set (local := match st with
                  | HUNK_NEXT => incr_hunk_count (set_iter_status (w_local w) st)
                  | _ => set_iter_status (w_local w) st
                  end) in *.
    assert (Hl : is_done local = is_done (w_local w)
                 /\ iter_status local = st
                 /\ hunk_count local
                    = match st with
                      | HUNK_NEXT => (hunk_count (w_local w) + 1) mod 2 ^ 64
                      | _ => hunk_count (w_local w)
                      end)
      by (unfold local; by destruct st).
    destruct Hl as (Hl1 & Hl2 & Hl3).
    exists (local :: pubs). split.
    { rewrite Hsh. unfold rombp_update_patch_status.
      by rewrite <- (assoc_L (++)). }
    split. { constructor; [done|]. by rewrite <- Hl1. }
    split; [congruence|]. split; [done|].
    intros final Hf1 Hf2. cbn [app counts_from]. split.
    + by rewrite Hl2.
    + by apply Hcnt.
  - destruct (end_patch _ _ _ _) as [[e ctx] fs].
    injection Hrun as <-. cbn [w_shared w_local].
    exists []. rewrite app_nil_r. do 3 (split; [done|]).
    cbn [set_err iter_status hunk_count]. rewrite Hst. split; [done|].
    intros final Hf1 Hf2. cbn. rewrite Hf1. by destruct (iter_status final).
  - injection Hrun as <-. cbn [w_shared w_local].
    exists []. rewrite app_nil_r. do 3 (split; [done|]).
    cbn [set_err iter_status hunk_count]. rewrite Hst. split; [done|].
    intros final Hf1 Hf2. cbn. rewrite Hf1. by destruct (iter_status final).
Qed.

(** What a whole apply publishes: records that are not done, then one
    last record, which is done and carries the error returned. *)
Lemma execute_patch_published (fuel : nat) (ctx : bps_file_header)
    (command : rombp_patch_command) (status : shared_status)
    (r : patch_run) :
  execute_patch bps_start bps_next bps_end fuel ctx command status = Some r ->
  exists published final,
    run_shared r = status ++ published ++ [final]
    /\ Forall (fun s => is_done s = false) published
    /\ is_done final = true
    /\ err final = run_err r
    /\ counts_from 0 (published ++ [final]).
Proof.
  unfold execute_patch.
  destruct (open_patch_files command) as [e [fs|]].
  2:{ intros [= <-]. exists [], (mk_status 0 HUNK_DONE e true). by cbn. }
  destruct (detect_patch_type _) as [patch_type p].
  destruct patch_type.
  { intros [= <-].
    exists [], (mk_status 0 HUNK_DONE PATCH_UNKNOWN_TYPE true). by cbn. }
  all: destruct (start_patch _ _ _ _) as [[[rc ctx'] fs']|]; [|done].
  all: destruct (rc <? 0).
  all: try (intros [= <-];
            exists [], (mk_status 0 HUNK_DONE PATCH_FAILED_TO_START true);
            by cbn).
  all: destruct (patch_loop _ _ _ _ _) as [w'|] eqn:Hloop; [|done].
  all: intros [= <-].
  all: apply patch_loop_published in Hloop
         as (pubs & Hsh & Hdone & Hd & Hne & Hcnt).
  all: cbn [w_shared w_local set_iter_status set_err is_done hunk_count] in *.
  all: exists pubs, (set_is_done (w_local w')).
  all: cbn [run_shared run_err patch_done rombp_update_patch_status].
  all: unfold rombp_update_patch_status.
  all: rewrite Hsh, <- (assoc_L (++)).
  all: do 4 (split; [done|]).
  all: by apply Hcnt.
Qed.

(** C8: the record published with [is_done] set is the last value the
    worker stores in the shared record; every record stored before it is
    not done, so the first done record a reader can see is that one, and
    every read made once it is stored returns it. *)
Theorem nothing_is_published_after_is_done (fuel : nat)
    (ctx : bps_file_header) (command : rombp_patch_command)
    (status : shared_status) (r : patch_run) :
  execute_patch bps_start bps_next bps_end fuel ctx command status = Some r ->
  exists published final,
    run_shared r = status ++ published ++ [final]
    /\ Forall (fun s => is_done s = false) published
    /\ is_done final = true
    /\ forall initial k,
         (length (run_shared r) <= k)%nat ->
         rombp_read_patch_status initial (run_shared r) k = final.
Proof.
  intros Hrun.
  apply execute_patch_published in Hrun as (pubs & final & Hsh & Hnd & Hd & _).
  exists pubs, final. do 3 (split; [done|]).
  intros initial k Hk. unfold rombp_read_patch_status.
  rewrite take_ge by done.
  by rewrite Hsh, (assoc_L (++)), last_snoc.
Qed.

(** C10: over one apply, as long as fewer than 2^64 records are
    published, the hunk counter of the published records never
    decreases: each record counts one more than the one before when its
    iteration returned [HUNK_NEXT] and the same otherwise, so of two
    snapshots the later one counts at least as much as the earlier. *)
Theorem published_hunk_count_never_decreases (fuel : nat)
    (ctx : bps_file_header) (command : rombp_patch_command) (r : patch_run) :
  execute_patch bps_start bps_next bps_end fuel ctx command [] = Some r ->
  Z.of_nat (length (run_shared r)) < 2 ^ 64 ->
  counts_from 0 (run_shared r)
  /\ (forall i j a b,
        (i <= j)%nat ->
        run_shared r !! i = Some a -> run_shared r !! j = Some b ->
        hunk_count a <= hunk_count b)
  /\ (forall k1 k2,
        (k1 <= k2)%nat ->
        hunk_count (rombp_read_patch_status patch_status_init (run_shared r) k1)
        <= hunk_count
             (rombp_read_patch_status patch_status_init (run_shared r) k2)).
Proof.
  intros Hrun Hlen.
  apply execute_patch_published in Hrun as (pubs & final & Hsh & _ & _ & _ & Hc).
  cbn [app] in Hsh. rewrite Hsh in *. clear Hsh.
  set (l := pubs ++ [final]) in *.
  pose proof (counts_from_monotone 0 l Hc ltac:(lia) ltac:(lia)) as Hmono.
  pose proof (counts_from_bounds 0 l Hc ltac:(lia) ltac:(lia)) as Hbnd.
  do 2 (split; [done|]).
  intros k1 k2 Hk. rewrite !read_patch_status_lookup.
  assert (Hlen' : (0 < length l)%nat)
    by (unfold l; rewrite length_app; cbn; lia).
  destruct k1 as [|k1], k2 as [|k2]; try lia; cbn [patch_status_init hunk_count].
  - destruct (lookup_lt_is_Some_2 l (k2 `min` pred (length l))%nat ltac:(lia))
      as [b Hb].
    rewrite Hb. cbn. apply (Hbnd _ _ Hb).
  - destruct (lookup_lt_is_Some_2 l (k1 `min` pred (length l))%nat ltac:(lia))
      as [a Ha].
    destruct (lookup_lt_is_Some_2 l (k2 `min` pred (length l))%nat ltac:(lia))
      as [b Hb].
    rewrite Ha, Hb. cbn. eapply Hmono; [|exact Ha|exact Hb]. lia.
Qed.


(** The iteration of an IPS apply always ends, whatever the device does:
    on the call of [ips_next] that returns [HUNK_DONE] or [HUNK_ERR_IO].
    No call failed before that last call, and the streams are left as
    that last call returned them. *)
Lemma patch_loop_ips_exit (fuel : nat) (w : worker bps_file_header) :
  iter_status (w_local w) = HUNK_NEXT ->
  0 <= f_pos (patch_stream (w_files w)) ->
  (length (remaining (patch_stream (w_files w))) + 2 <= fuel)%nat ->
  exists w' fs_last st,
    patch_loop bps_next bps_end fuel PATCH_TYPE_IPS w = Some w'
    /\ ips_next fs_last = Some (st, w_files w')
    /\ failures fs_last = failures (w_files w)
    /\ iter_status (w_local w') = st
    /\ ((st = HUNK_DONE /\ failures (w_files w') = failures (w_files w)
         /\ err (w_local w') = PATCH_OK)
        \/ (st = HUNK_ERR_IO
            /\ (failures (w_files w') <= S (failures (w_files w)))%nat
            /\ err (w_local w') = PATCH_ERR_IO)).
Proof.
  revert w. induction fuel as [|fuel IH];
    intros [ctx local fs shared] Hst Hpos Hfuel;
    cbn [w_files w_local w_ctx w_shared] in *; [lia|].
  cbn [patch_loop w_local w_files w_ctx w_shared]. rewrite Hst.
  cbn [next_hunk].
  destruct (ips_next_cases fs) as (st & fs' & Hnext & Hd & Hc).
  rewrite Hnext.
  destruct Hc as [(-> & Hf & Hp & Hrem)|[(-> & Hf)|(-> & Hf)]].
  - set (w1 := mk_worker _ _ _ _).
    destruct (IH w1) as (w' & fs_last & st & -> & Hl & Hfl & Hs & Hc);
      try done.
    + cbn. lia.
    + cbn. unfold remaining, size in *. rewrite length_drop in *.
      rewrite Hd. lia.
    + exists w', fs_last, st. split; [done|]. split; [done|].
      cbn [w1 w_files] in *. split; [congruence|]. split; [done|].
      by rewrite <- Hf.
  - destruct fuel as [|fuel]; [lia|].
    cbn [patch_loop w_local set_iter_status iter_status end_patch
         w_ctx w_files w_shared].
    eexists _, fs, HUNK_DONE. split; [reflexivity|]. cbn.
    split; [done|]. split; [done|]. split; [done|]. by left.
  - destruct fuel as [|fuel]; [lia|].
    cbn [patch_loop w_local set_iter_status iter_status
         w_ctx w_files w_shared].
    eexists _, fs, HUNK_ERR_IO. split; [reflexivity|]. cbn.
    split; [done|]. split; [done|]. split; [done|]. by right.
Qed.


End ControllerFacts.

(** ** The statements at concrete inputs *)

Lemma ips_next_done_on_final_eof_tag_witness :
  f_err (patch_stream eof_tag_then_one_byte) = false
  /\ fails_after (next_outcome (patch_stream eof_tag_then_one_byte))
       HUNK_PREAMBLE_BYTE_SIZE = None
  /\ remaining (patch_stream eof_tag_then_one_byte) = EOF_TAG ++ [Byte.x00]
  /\ size [Byte.x00] < 2
  /\ exists ips',
       ips_next eof_tag_then_one_byte
       = Some (HUNK_DONE,
               mk_files (input_stream eof_tag_then_one_byte)
                 (output_stream eof_tag_then_one_byte) ips').
Proof.
  do 4 (split; [reflexivity|]).
  apply (ips_next_done_on_final_eof_tag eof_tag_then_one_byte [Byte.x00]);
    reflexivity.
Defined.

Lemma unknown_marker_yields_unknown_type_witness :
  take 5 [Byte.x00; Byte.x01; Byte.x02] <> IPS_EXPECTED_MARKER
  /\ take 4 [Byte.x00; Byte.x01; Byte.x02] <> BPS_EXPECTED_MARKER
  /\ exists patch_file,
       execute_patch no_bps_start no_bps_next no_bps_end 0 tt
         (mk_command (Some (fopen_r scenario_source [])) (Some (fopen_w []))
            (Some (fopen_r [Byte.x00; Byte.x01; Byte.x02] [])))
         []
       = Some (mk_run PATCH_UNKNOWN_TYPE
                 ([] ++ [mk_status 0 HUNK_DONE PATCH_UNKNOWN_TYPE true])
                 (Some (mk_files (fopen_r scenario_source []) (fopen_w [])
                          patch_file))).
Proof.
  split; [discriminate|]. split; [discriminate|].
  apply (unknown_marker_yields_unknown_type no_bps_start no_bps_next no_bps_end);
    discriminate.
Defined.

Lemma rle_hunk_same_output_as_raw_hunk_witness :
  0 <= 1 < 2 ^ 24 /\ 0 < 4 < 2 ^ 16
  /\ Forall hunk_ok [] /\ Forall hunk_ok []
  /\ size EOF_TAG < HUNK_PREAMBLE_BYTE_SIZE
  /\ (length (A := ips_hunk) [] + length (A := ips_hunk) [] + 3 <= 3)%nat
  /\ exists r_rle r_raw fs_rle fs_raw,
       execute_patch no_bps_start no_bps_next no_bps_end 3 tt
         (sound_command (replicate 8 Byte.x00)
            (ips_patch_file ([] ++ Rle 1 4 Byte.xff :: []) EOF_TAG))
         [] = Some r_rle
       /\ execute_patch no_bps_start no_bps_next no_bps_end 3 tt
            (sound_command (replicate 8 Byte.x00)
               (ips_patch_file
                  ([] ++ Raw 1 (replicate (Z.to_nat 4) Byte.xff) :: []) EOF_TAG))
            [] = Some r_raw
       /\ run_files r_rle = Some fs_rle /\ run_files r_raw = Some fs_raw
       /\ run_err r_rle = PATCH_OK /\ run_err r_raw = PATCH_OK
       /\ f_data (output_stream fs_rle) = f_data (output_stream fs_raw).
Proof.
  split; [lia|]. split; [lia|]. do 2 (split; [constructor|]).
  split; [reflexivity|]. split; [cbn; lia|].
  apply (rle_hunk_same_output_as_raw_hunk no_bps_start no_bps_next no_bps_end);
    try constructor; try reflexivity; cbn; lia.
Defined.

(** The overlap scenario: of two hunks of length 2 at offsets 2 and 3, the
    byte of the output at offset 3 is the first byte of the second hunk. *)
Lemma ips_hunks_overlay_in_patch_order_witness :
  Forall hunk_ok overlapping_hunks
  /\ size EOF_TAG < HUNK_PREAMBLE_BYTE_SIZE
  /\ (length overlapping_hunks + 2 <= 4)%nat
  /\ exists r fs,
       execute_patch no_bps_start no_bps_next no_bps_end 4 tt
         (sound_command scenario_source
            (ips_patch_file overlapping_hunks EOF_TAG)) []
       = Some r
       /\ run_err r = PATCH_OK /\ run_files r = Some fs
       /\ f_data (output_stream fs) !! 3%nat = Some Byte.xcc.
Proof.
  assert (Hok : Forall hunk_ok overlapping_hunks)
    by (repeat constructor; cbn; lia).
  split; [exact Hok|]. split; [reflexivity|]. split; [cbn; lia|].
  destruct (ips_hunks_overlay_in_patch_order no_bps_start no_bps_next no_bps_end
              scenario_source overlapping_hunks EOF_TAG 4 tt [] Hok eq_refl)
    as (r & fs & Hrun & Herr & Hfs & _ & Hwins); [cbn; lia|].
  exists r, fs. do 3 (split; [assumption|]).
  apply (Hwins [Raw 2 [Byte.xaa; Byte.xbb]] (Raw 3 [Byte.xcc; Byte.xdd]) [] 0%nat);
    [reflexivity | reflexivity | constructor].
Defined.


Lemma nothing_is_published_after_is_done_witness :
  exists r,
    execute_patch no_bps_start no_bps_next no_bps_end 3 tt
      (sound_command scenario_source scenario_raw_patch) [] = Some r
    /\ exists published final,
         run_shared r = [] ++ published ++ [final]
         /\ Forall (fun s => is_done s = false) published
         /\ is_done final = true
         /\ forall initial k,
              (length (run_shared r) <= k)%nat ->
              rombp_read_patch_status initial (run_shared r) k = final.
Proof.
  eexists. split; [vm_compute; reflexivity|].
  apply (nothing_is_published_after_is_done no_bps_start no_bps_next no_bps_end
           3 tt (sound_command scenario_source scenario_raw_patch) []).
  vm_compute. reflexivity.
Defined.

Lemma ips_patch_ending_at_end_of_file_is_accepted_witness :
  Forall hunk_ok [Raw 2 [Byte.xab; Byte.xcd]]
  /\ size [Byte.x00; Byte.x00] < HUNK_PREAMBLE_BYTE_SIZE
  /\ (length [Raw 2 [Byte.xab; Byte.xcd]] + 2 <= 3)%nat
  /\ exists r published,
       execute_patch no_bps_start no_bps_next no_bps_end 3 tt
         (sound_command scenario_source
            (ips_patch_file [Raw 2 [Byte.xab; Byte.xcd]] [Byte.x00; Byte.x00]))
         []
       = Some r
       /\ run_err r = PATCH_OK
       /\ run_shared r
          = published
            ++ [mk_status
                  (Z.of_nat (length [Raw 2 [Byte.xab; Byte.xcd]]) mod 2 ^ 64)
                  HUNK_DONE PATCH_OK true].
Proof.
  assert (Hok : Forall hunk_ok [Raw 2 [Byte.xab; Byte.xcd]])
    by (repeat constructor; cbn; lia).
  split; [exact Hok|]. split; [reflexivity|]. split; [cbn; lia|].
  apply (ips_patch_ending_at_end_of_file_is_accepted
           no_bps_start no_bps_next no_bps_end);
    [exact Hok | reflexivity | cbn; lia].
Defined.

Lemma published_hunk_count_never_decreases_witness :
  exists r,
    execute_patch no_bps_start no_bps_next no_bps_end 3 tt
      (sound_command scenario_source scenario_raw_patch) [] = Some r
    /\ Z.of_nat (length (run_shared r)) < 2 ^ 64
    /\ counts_from 0 (run_shared r)
    /\ (forall i j a b,
          (i <= j)%nat ->
          run_shared r !! i = Some a -> run_shared r !! j = Some b ->
          hunk_count a <= hunk_count b)
    /\ (forall k1 k2,
          (k1 <= k2)%nat ->
          hunk_count (rombp_read_patch_status patch_status_init (run_shared r) k1)
          <= hunk_count
               (rombp_read_patch_status patch_status_init (run_shared r) k2)).
Proof.
  eexists. split; [vm_compute; reflexivity|]. split; [cbn; lia|].
  apply (published_hunk_count_never_decreases
           no_bps_start no_bps_next no_bps_end
           3 tt (sound_command scenario_source scenario_raw_patch));
    [vm_compute; reflexivity | cbn; lia].
Defined.


(** * Further properties *)

(** ** The fields of a hunk preamble *)

Lemma byte_of_Z_val (b : byte) : byte_of_Z (byte_val b) = b.
Proof.
  unfold byte_of_Z. pose proof (byte_val_range b) as Hr.
  rewrite Z.mod_small by done. unfold byte_val.
  by rewrite N2Z.id, Byte.of_to_N.
Qed.

Lemma byte_of_Z_mod (z : Z) : byte_of_Z (z mod 256) = byte_of_Z z.
Proof. unfold byte_of_Z. by rewrite Z.mod_mod by lia. Qed.

Lemma byte_of_Z_low (hi : Z) (b : byte) :
  byte_of_Z (hi * 256 + byte_val b) = b.
Proof.
  rewrite <- byte_of_Z_mod, Z.add_comm, Z.mod_add by lia.
  rewrite byte_of_Z_mod. apply byte_of_Z_val.
Qed.

(** Decoding a preamble loses nothing: the offset and the length are within
    24 and 16 bits, and writing them back big-endian gives the five bytes
    that were read. *)
Theorem preamble_fields_determine_the_bytes (b0 b1 b2 b3 b4 : byte) :
  let buf := [b0; b1; b2; b3; b4] in
  0 <= be_24bit_int buf < 2 ^ 24
  /\ 0 <= be_16bit_int (drop 3 buf) < 2 ^ 16
  /\ u24_be (be_24bit_int buf) ++ u16_be (be_16bit_int (drop 3 buf)) = buf.
Proof.
  cbn [drop]. rewrite be_24bit_int_spec, be_16bit_int_spec.
  pose proof (byte_val_range b0). pose proof (byte_val_range b1).
  pose proof (byte_val_range b2). pose proof (byte_val_range b3).
  pose proof (byte_val_range b4).
  split; [lia|]. split; [lia|].
  unfold u24_be, u16_be. cbn [app].
  replace ((byte_val b0 * 65536 + byte_val b1 * 256 + byte_val b2) / 65536)
    with (byte_val b0)
    by (apply Z.div_unique with (byte_val b1 * 256 + byte_val b2); lia).
  replace ((byte_val b0 * 65536 + byte_val b1 * 256 + byte_val b2) / 256)
    with (byte_val b0 * 256 + byte_val b1)
    by (apply Z.div_unique with (byte_val b2); lia).
  replace (byte_val b0 * 65536 + byte_val b1 * 256 + byte_val b2)
    with ((byte_val b0 * 256 + byte_val b1) * 256 + byte_val b2) by lia.
  replace ((byte_val b3 * 256 + byte_val b4) / 256) with (byte_val b3)
    by (apply Z.div_unique with (byte_val b4); lia).
  by rewrite !byte_of_Z_val, !byte_of_Z_low.
Qed.

(** What the preamble encodes is what [ips_next_hunk_header] decodes: on a
    healthy stream that holds a 24-bit offset and a 16-bit length next,
    big-endian, it returns [HUNK_NEXT] with these two values and leaves
    the stream on the byte after the preamble. *)
Theorem ips_next_hunk_header_decodes_the_preamble (offset len : Z)
    (rest : list byte) (ips : FILE) (header : ips_hunk_header) :
  0 <= offset < 2 ^ 24 -> 0 <= len < 2 ^ 16 ->
  healthy ips -> remaining ips = u24_be offset ++ u16_be len ++ rest ->
  exists ips',
    ips_next_hunk_header ips header
    = (HUNK_NEXT, mk_hunk_header offset len, ips')
    /\ healthy ips' /\ remaining ips' = rest
    /\ f_pos ips' = f_pos ips + 5.
Proof.
  intros Ho Hl Hips Hrem. unfold ips_next_hunk_header.
  set (pre := u24_be offset ++ u16_be len).
  assert (Hrem1 : remaining ips = pre ++ rest)
    by (by rewrite Hrem; unfold pre; rewrite <- (assoc_L (++))).
  destruct (fread_exact ips pre rest Hips Hrem1)
    as (ips' & Hr & Hh & Hrem' & _).
  assert (Hpos : f_pos ips' = f_pos ips + 5).
  { unfold fread in Hr.
    rewrite healthy_next_outcome in Hr by done.
    injection Hr as Hgot <-. cbn [f_pos]. by rewrite Hgot. }
  change (size pre) with HUNK_PREAMBLE_BYTE_SIZE in Hr.
  rewrite Hr. change (size pre) with HUNK_PREAMBLE_BYTE_SIZE.
  rewrite Z.ltb_irrefl. cbn [andb].
  exists ips'. split; [|done].
  f_equal. f_equal. f_equal.
  - apply (be_24bit_int_u24_be offset _ Ho).
  - apply (be_16bit_int_u16_be len [] Hl).
Qed.

(** ** [ips_start] *)

(** When nothing fails, [ips_start] reports success and the output holds
    the source less its last [size src mod BUF_SIZE] bytes; so the copy is
    complete exactly when the length of the source is a multiple of
    [BUF_SIZE]. *)
Theorem ips_start_copies_everything_iff_whole_buffers (src : list byte) :
  exists fin fout,
    ips_start (fopen_r src []) (fopen_w []) = Some (PATCH_OK, fin, fout)
    /\ size (f_data fout) = size src - size src mod BUF_SIZE
    /\ (f_data fout = src <-> size src mod BUF_SIZE = 0).
Proof.
  destruct (ips_start_healthy src) as (fin & fout & Hrun & _ & Hd).
  exists fin, fout. split; [done|]. rewrite Hd. unfold full_buffers.
  pose proof (div_buf_bounds (size src) (size_nonneg src)) as (Hq & Hlo & Hhi).
  pose proof (Z.div_mod (size src) BUF_SIZE ltac:(by unfold BUF_SIZE)) as Hdm.
  assert (Hsz : size (take (Z.to_nat (BUF_SIZE * (size src / BUF_SIZE))) src)
                = size src - size src mod BUF_SIZE).
  { rewrite size_take by (unfold BUF_SIZE in *; lia). lia. }
  split; [done|]. split.
  - intros Heq. rewrite Heq in Hsz. lia.
  - intros Hmod. apply take_ge. unfold size in *. lia.
Qed.

Lemma pwrite_append (data : list byte) (pos : Z) (bs : list byte) :
  0 <= pos -> length data = Z.to_nat pos -> pwrite data pos bs = data ++ bs.
Proof.
  intros Hpos Hlen. destruct bs as [|x bs]; [by rewrite app_nil_r|].
  rewrite pwrite_unfold by done.
  rewrite take_ge, drop_ge by lia.
  replace (Z.to_nat pos - length data)%nat with 0%nat by lia.
  cbn [replicate app]. by rewrite app_nil_r.
Qed.

(** What [fwrite] leaves in the file, whether it fails or not: the first
    bytes of the buffer, as many as it reports. *)
Lemma fwrite_prefix (bs : list byte) (f : FILE) :
  exists k,
    (fwrite bs f).1 = size (take k bs)
    /\ f_data (fwrite bs f).2 = pwrite (f_data f) (f_pos f) (take k bs)
    /\ f_pos (fwrite bs f).2 = f_pos f + size (take k bs).
Proof.
  unfold fwrite. destruct (fails_after _ _) as [k|]; cbn.
  - by exists k.
  - exists (length bs). by rewrite take_ge.
Qed.

Lemma copy_file_loop_any_device (src : list byte) (fuel : nat)
    (total_read : Z) (fin fout : FILE) :
  f_data fin = src -> f_pos fin = total_read -> f_pos fout = total_read ->
  f_data fout = take (Z.to_nat total_read) src ->
  0 <= total_read <= size src -> total_read mod BUF_SIZE = 0 ->
  size src - total_read < Z.of_nat fuel * BUF_SIZE ->
  exists rc fin' fout',
    copy_file_loop fuel (size src) total_read fin fout = Some (rc, fin', fout')
    /\ (rc = 0 \/ rc = -1)
    /\ f_data fin' = src
    /\ (exists n, f_data fout' = take n src)
    /\ (rc = 0 ->
        f_data fout' = full_buffers src /\ f_failures fout' = f_failures fout).
Proof.
  revert total_read fin fout.
  induction fuel as [|fuel IH];
    intros t fin fout Hdata Hpin Hpout Hout Ht Hmod Hfuel;
    [unfold BUF_SIZE in *; lia|].
  cbn [copy_file_loop].
  pose proof (fread_cases BUF_SIZE fin ltac:(done)) as Hr.
  destruct (fread BUF_SIZE fin) as [buf fin1].
  destruct Hr as (Hd1 & Hp1 & Hsz & Hr). pose proof (size_nonneg buf) as Hb.
  assert (Hrem : size (remaining fin) = size src - t).
  { unfold remaining, size. rewrite length_drop, Hdata, Hpin.
    unfold size in Ht. lia. }
  assert (Hfull : size src - t < BUF_SIZE ->
                  take (Z.to_nat t) src = full_buffers src).
  { intros Hlt. unfold full_buffers. f_equal. f_equal.
    pose proof (Z.div_mod t BUF_SIZE ltac:(by unfold BUF_SIZE)) as Hdm.
    rewrite Hmod, Z.add_0_r in Hdm. rewrite Hdm at 1. f_equal.
    apply Z.div_unique with (size src - t); unfold BUF_SIZE in *; lia. }
  destruct (Z.ltb_spec (size buf) BUF_SIZE) as [Hshort|Hlong].
  - assert (Hleft : t + size buf >= size src -> size src - t < BUF_SIZE) by lia.
    destruct (Z.ltb_spec (t + size buf) (size src)) as [Hless|Hall].
    + exists (-1), fin1, fout. split; [done|]. split; [by right|].
      split; [congruence|]. split; [by eexists|]. done.
    + exists 0, fin1, fout. split; [done|]. split; [by left|].
      split; [congruence|]. split; [by eexists|].
      intros _. split; [|done]. rewrite Hout. apply Hfull. lia.
  - destruct Hr as [(_ & _ & _ & Hgot)|(_ & _ & Hlt)]; [|lia].
    assert (Hsize : size buf = BUF_SIZE) by lia.
    assert (Henough : BUF_SIZE <= size src - t).
    { rewrite Hgot, size_take in Hsize by done. lia. }
    destruct (fwrite_prefix buf fout) as (k & Hn & Hdw & Hpw).
    pose proof (fwrite_cases buf fout) as Hw.
    destruct (fwrite buf fout) as [nwritten fout1]. cbn [fst snd] in *.
    assert (Hpre : f_data fout1
                   = take (Z.to_nat t + Nat.min k (Z.to_nat BUF_SIZE)) src).
    { rewrite Hdw, Hout, Hpout, pwrite_append.
      - rewrite Hgot, take_take. unfold remaining. rewrite Hdata, Hpin.
        apply take_take_drop.
      - lia.
      - rewrite length_take. unfold size in Ht. lia. }
    destruct (Z.ltb_spec nwritten (size buf)) as [Hfail|Hok].
    + exists (-1), fin1, fout1. split; [done|]. split; [by right|].
      split; [congruence|]. split; [by eexists|]. done.
    + destruct Hw as [[_ Hfo]|[Hlt _]]; [|lia].
      assert (Hk : (Z.to_nat BUF_SIZE <= k)%nat).
      { rewrite Hn in Hok. unfold size in Hok, Hsize.
        rewrite length_take in Hok. lia. }
      rewrite Nat.min_r in Hpre by done.
      destruct (IH (t + size buf) fin1 fout1)
        as (rc & fin2 & fout2 & -> & Hrc & Hd2 & Hn2 & Hz); try congruence.
      * rewrite Hpw, take_ge; [lia|]. unfold size in Hsize. lia.
      * rewrite Hpre. f_equal. lia.
      * lia.
      * rewrite Hsize.
        rewrite <- Zplus_mod_idemp_l, Hmod. by unfold BUF_SIZE.
      * unfold BUF_SIZE in *. lia.
      * exists rc, fin2, fout2. do 4 (split; [done|]).
        intros H0. destruct (Hz H0) as [-> ->]. by split.
Qed.

Lemma ips_start_any_device (src : list byte)
    (faults_in faults_out : list io_outcome) :
  exists e fin fout,
    ips_start (fopen_r src faults_in) (fopen_w faults_out) = Some (e, fin, fout)
    /\ (e = PATCH_OK \/ e = PATCH_ERR_IO)
    /\ f_data fin = src
    /\ (exists n, f_data fout = take n src)
    /\ (e = PATCH_OK ->
        f_data fout = full_buffers src /\ f_failures fout = 0%nat).
Proof.
  unfold ips_start, copy_file, fstat_size.
  destruct (next_outcome (fopen_r src faults_in)).
  2:{ eexists _, _, _. split; [reflexivity|]. cbn.
      split; [by right|]. split; [done|]. split; [by exists 0%nat|]. done. }
  change (f_data (fopen_r src faults_in)) with src.
  change (f_pos (fopen_r src faults_in)) with 0.
  set (fin := mkFILE _ _ _ _ _ _).
  destruct (copy_file_loop_any_device src (copy_fuel fin) 0 fin
              (fopen_w faults_out))
    as (rc & fin' & fout' & -> & Hrc & Hd & Hn & Hz); try done.
  - split; [done|]. apply size_nonneg.
  - unfold copy_fuel.
    change (remaining fin) with src.
    pose proof (div_buf_bounds (size src) (size_nonneg src)).
    unfold BUF_SIZE in *. lia.
  - destruct Hrc as [-> | ->]; cbn [Z.eqb negb];
      eexists _, _, _; (split; [reflexivity|]).
    + split; [by left|]. do 2 (split; [done|]). intros _. by apply Hz.
    + split; [by right|]. do 2 (split; [done|]). done.
Qed.

(** ** Hunks cut short by the end of the patch file *)

Lemma ips_write_hunk_loop_truncated (fuel : nat) (len : Z)
    (partial : list byte) (ips out : FILE) :
  healthy ips -> healthy out -> remaining ips = partial ->
  size partial < len -> size partial < Z.of_nat fuel * BUF_SIZE ->
  exists ips' out',
    ips_write_hunk_loop fuel len ips out = Some (-1, ips', out')
    /\ f_data out' = pwrite (f_data out) (f_pos out) (full_buffers partial)
    /\ f_failures ips' = f_failures ips /\ f_failures out' = f_failures out.
Proof.
  revert len partial ips out.
  induction fuel as [|fuel IH]; intros len partial ips out Hips Hout Hrem Hlen Hfuel.
  { pose proof (size_nonneg partial). unfold BUF_SIZE in *. lia. }
  pose proof (size_nonneg partial) as Hnn.
  cbn [ips_write_hunk_loop].
  assert ((len >? 0) = true) as -> by (apply Z.gtb_lt; lia).
  set (n := Z.min BUF_SIZE len).
  destruct (Z.lt_ge_cases (size partial) n) as [Hshort|Hfull].
  - destruct (fread_short n ips Hips) as (ips1 & -> & Heof & Herr & Hf & _);
      [by rewrite Hrem|].
    rewrite Hrem. apply Z.ltb_lt in Hshort as Hs. rewrite Hs.
    unfold ferror, feof. rewrite Herr, Heof. cbn [andb].
    exists ips1, out. split; [done|].
    rewrite full_buffers_short by (unfold n, BUF_SIZE in *; lia).
    by rewrite pwrite_nil.
  - assert (Hn : n = BUF_SIZE) by (unfold n, BUF_SIZE in *; lia).
    set (a := take (Z.to_nat BUF_SIZE) partial).
    set (b := drop (Z.to_nat BUF_SIZE) partial).
    assert (Hab : partial = a ++ b) by (symmetry; apply take_drop).
    assert (Ha : size a = BUF_SIZE)
      by (unfold a; rewrite size_take; unfold BUF_SIZE in *; lia).
    assert (Hrem1 : remaining ips = a ++ b) by (by rewrite Hrem).
    destruct (fread_exact ips a b Hips Hrem1)
      as (ips1 & Hr & Hips1 & Hrem' & _ & Hf1 & _).
    rewrite Hn. rewrite Ha in Hr. rewrite Hr, Ha, Z.ltb_irrefl. cbn [andb].
    destruct (fwrite_healthy a out Hout) as (out1 & -> & Hout1 & Hd & Hp & Hfo).
    rewrite Ha, Z.ltb_irrefl.
    assert (Hb : size b = size partial - BUF_SIZE).
    { pose proof (size_app a b) as Hs. rewrite <- Hab in Hs. lia. }
    destruct (IH (len - BUF_SIZE) b ips1 out1)
      as (ips2 & out2 & -> & Hd2 & Hf2 & Hfo2); try done;
      [lia | unfold BUF_SIZE in *; lia |].
    exists ips2, out2. split; [done|]. split; [|split; congruence].
    rewrite Hd2, Hd, Hp. destruct Hout as (_ & _ & Hpos).
    rewrite pwrite_app by done. f_equal.
    rewrite (full_buffers_step partial) by lia. done.
Qed.

(** A raw hunk whose payload is cut short by the end of the patch file:
    [ips_next] returns [HUNK_ERR_IO] although no call of the operating
    system failed, and of the payload only the full [BUF_SIZE] buffers read
    before the end were written; the bytes of the last, short read are
    dropped. *)
Theorem ips_next_truncated_raw_payload (offset len : Z)
    (partial : list byte) (fs : files) :
  0 <= offset < 2 ^ 24 -> 0 < len < 2 ^ 16 ->
  size partial < len ->
  healthy (patch_stream fs) -> healthy (output_stream fs) ->
  remaining (patch_stream fs) = u24_be offset ++ u16_be len ++ partial ->
  exists out' ips',
    ips_next fs = Some (HUNK_ERR_IO, mk_files (input_stream fs) out' ips')
    /\ f_data out'
       = pwrite (f_data (output_stream fs)) offset (full_buffers partial)
    /\ failures (mk_files (input_stream fs) out' ips') = failures fs.
Proof.
  intros Ho Hl Hcut Hips Hout Hrem. unfold ips_next, ips_next_hunk_header.
  set (pre := u24_be offset ++ u16_be len).
  assert (Hrem1 : remaining (patch_stream fs) = pre ++ partial)
    by (by rewrite Hrem; unfold pre; rewrite <- (assoc_L (++))).
  destruct (fread_exact _ pre partial Hips Hrem1)
    as (ips1 & Hr & Hips1 & Hrem' & _ & Hf1 & _).
  change (size pre) with HUNK_PREAMBLE_BYTE_SIZE in Hr.
  rewrite Hr. change (size pre) with HUNK_PREAMBLE_BYTE_SIZE.
  rewrite Z.ltb_irrefl. cbn [andb status_negative].
  unfold ips_patch_hunk.
  cbn [h_offset h_length output_stream patch_stream input_stream].
  assert (be_24bit_int pre = offset) as ->
    by (apply (be_24bit_int_u24_be offset _ Ho)).
  assert (be_16bit_int (drop 3 pre) = len) as ->
    by (apply (be_16bit_int_u16_be len []); lia).
  destruct (fseek_healthy offset _ Hout ltac:(lia))
    as (out1 & -> & Hout1 & Hd1 & Hp1 & Hfo1).
  cbn [Z.eqb].
  assert ((len =? 0) = false) as -> by (apply Z.eqb_neq; lia).
  unfold ips_write_hunk.
  destruct (ips_write_hunk_loop_truncated (write_hunk_fuel len) len partial
              ips1 out1) as (ips2 & out2 & -> & Hd2 & Hf2 & Hfo2); try done.
  { destruct (write_hunk_fuel_enough len) as [_ Hfuel].
    unfold BUF_SIZE in *. lia. }
  cbn [Z.ltb Z.compare]. exists out2, ips2. split; [done|]. split.
  - by rewrite Hd2, Hd1, Hp1.
  - unfold failures. cbn [input_stream output_stream patch_stream]. lia.
Qed.

(** A run-length hunk whose three-byte payload is cut short by the end of
    the patch file: [ips_next] returns [HUNK_ERR_IO], no call of the
    operating system failed, and the content of the output is as it was. *)
Theorem ips_next_truncated_rle_payload (offset : Z) (partial : list byte)
    (fs : files) :
  0 <= offset < 2 ^ 24 ->
  size partial < RLE_PAYLOAD_BYTE_SIZE ->
  healthy (patch_stream fs) -> healthy (output_stream fs) ->
  remaining (patch_stream fs) = u24_be offset ++ u16_be 0 ++ partial ->
  exists out' ips',
    ips_next fs = Some (HUNK_ERR_IO, mk_files (input_stream fs) out' ips')
    /\ f_data out' = f_data (output_stream fs)
    /\ failures (mk_files (input_stream fs) out' ips') = failures fs.
Proof.
  intros Ho Hcut Hips Hout Hrem. unfold ips_next, ips_next_hunk_header.
  set (pre := u24_be offset ++ u16_be 0).
  assert (Hrem1 : remaining (patch_stream fs) = pre ++ partial)
    by (by rewrite Hrem; unfold pre; rewrite <- (assoc_L (++))).
  destruct (fread_exact _ pre partial Hips Hrem1)
    as (ips1 & Hr & Hips1 & Hrem' & _ & Hf1 & _).
  change (size pre) with HUNK_PREAMBLE_BYTE_SIZE in Hr.
  rewrite Hr. change (size pre) with HUNK_PREAMBLE_BYTE_SIZE.
  rewrite Z.ltb_irrefl. cbn [andb status_negative].
  unfold ips_patch_hunk.
  cbn [h_offset h_length output_stream patch_stream input_stream].
  assert (be_24bit_int pre = offset) as ->
    by (apply (be_24bit_int_u24_be offset _ Ho)).
  assert (be_16bit_int (drop 3 pre) = 0) as ->
    by (apply (be_16bit_int_u16_be 0 []); lia).
  destruct (fseek_healthy offset _ Hout ltac:(lia))
    as (out1 & -> & Hout1 & Hd1 & Hp1 & Hfo1).
  cbn [Z.eqb]. unfold ips_get_rle_payload.
  destruct (fread_short RLE_PAYLOAD_BYTE_SIZE ips1 Hips1)
    as (ips2 & -> & Heof & Herr & Hf2 & _); [by rewrite Hrem'|].
  rewrite Hrem'. apply Z.ltb_lt in Hcut as Hs. rewrite Hs.
  unfold ferror, feof. rewrite Herr, Heof. cbn [andb Z.ltb Z.compare].
  exists out1, ips2. split; [done|]. split; [done|].
  unfold failures. cbn [input_stream output_stream patch_stream]. lia.
Qed.

(** ** What [ips_next] touches *)

Lemma ips_next_streams (fs fs' : files) (st : rombp_hunk_iter_status) :
  ips_next fs = Some (st, fs') ->
  input_stream fs' = input_stream fs
  /\ (st = HUNK_DONE -> output_stream fs' = output_stream fs).
Proof.
  unfold ips_next, ips_patch_hunk.
  cbn [input_stream output_stream patch_stream].
  repeat case_match; intros; simplify_eq; by split.
Qed.

(** [ips_next] always returns, and never [HUNK_NONE]; it never touches the
    source stream and never changes the content of the patch file; when it
    returns [HUNK_DONE] it has not touched the output stream either; and
    unless it returns [HUNK_ERR_IO], no call of the operating system
    failed in it. *)
Theorem ips_next_always_returns (fs : files) :
  exists st fs',
    ips_next fs = Some (st, fs')
    /\ st <> HUNK_NONE
    /\ input_stream fs' = input_stream fs
    /\ f_data (patch_stream fs') = f_data (patch_stream fs)
    /\ (st = HUNK_DONE -> output_stream fs' = output_stream fs)
    /\ (st <> HUNK_ERR_IO -> failures fs' = failures fs).
Proof.
  destruct (ips_next_cases fs) as (st & fs' & Hrun & Hd & Hc).
  destruct (ips_next_streams fs fs' st Hrun) as [Hin Hout].
  exists st, fs'. split; [done|].
  split; [by destruct Hc as [(-> & _)|[(-> & _)|(-> & _)]]|].
  do 3 (split; [done|]).
  by destruct Hc as [(-> & ? & _)|[(-> & ?)|(-> & _)]].
Qed.

(** A well-formed hunk changes its own range of the output and nothing
    else: after [ips_next] the bytes of the hunk are in the output from
    its offset on, every byte that was in the output outside that range is
    unchanged, a hunk of no byte leaves the file as it was, and any other
    hunk leaves a file that ends where the longer of the old file and the
    hunk ends. *)
Theorem ips_next_changes_only_the_hunk_range (h : ips_hunk)
    (rest : list byte) (fs : files) :
  hunk_ok h ->
  healthy (patch_stream fs) -> healthy (output_stream fs) ->
  remaining (patch_stream fs) = encode_hunk h ++ rest ->
  exists out' ips',
    ips_next fs = Some (HUNK_NEXT, mk_files (input_stream fs) out' ips')
    /\ remaining ips' = rest
    /\ (forall i b,
          hunk_bytes h !! i = Some b ->
          f_data out' !! (Z.to_nat (hunk_offset h) + i)%nat = Some b)
    /\ (forall j b,
          f_data (output_stream fs) !! j = Some b ->
          ~ covers h (Z.of_nat j) ->
          f_data out' !! j = Some b)
    /\ (hunk_bytes h = [] -> f_data out' = f_data (output_stream fs))
    /\ (hunk_bytes h <> [] ->
        length (f_data out')
        = Nat.max (length (f_data (output_stream fs)))
            (Z.to_nat (hunk_offset h) + length (hunk_bytes h))).
Proof.
  intros Hok Hips Hout Hrem.
  destruct (ips_next_hunk h rest fs Hok Hips Hout Hrem)
    as (out' & ips' & Hrun & _ & _ & Hrem' & Hd & _).
  assert (Ho : 0 <= hunk_offset h) by (destruct h; cbn in *; lia).
  exists out', ips'. do 2 (split; [done|]). rewrite Hd. unfold overlay.
  split; [|split; [|split]].
  - intros i b Hi. by apply lookup_pwrite_inside.
  - intros j b Hj Hfree. apply lookup_pwrite_outside; try done.
    unfold covers in Hfree. lia.
  - by intros ->.
  - intros Hne. by apply length_pwrite.
Qed.

(** Whatever the device does, [ips_start] returns, with [PATCH_OK] or
    [PATCH_ERR_IO]; it never changes the source, and the output it leaves
    is always a prefix of the source.  It reports success only if no write
    failed, and then the output is the full buffers of the source. *)
Theorem ips_start_whatever_the_device_does (src : list byte)
    (faults_in faults_out : list io_outcome) :
  exists e fin fout,
    ips_start (fopen_r src faults_in) (fopen_w faults_out) = Some (e, fin, fout)
    /\ (e = PATCH_OK \/ e = PATCH_ERR_IO)
    /\ f_data fin = src
    /\ (exists n, f_data fout = take n src)
    /\ (e = PATCH_OK ->
        f_data fout = full_buffers src /\ f_failures fout = 0%nat).
Proof. apply ips_start_any_device. Qed.

(** ** Detection, whatever the device does *)

Lemma patch_verify_marker_pos (f : FILE) (marker : list byte) (n : Z) :
  0 <= f_pos f -> 0 <= f_pos (patch_verify_marker f marker n).2.
Proof.
  intros Hpos. unfold patch_verify_marker, fread.
  destruct (fails_after _ _); cbn [ferror f_err];
    repeat match goal with
      | |- context [if ?c then _ else _] => destruct c
      end; cbn; unfold size; lia.
Qed.

Lemma detect_patch_type_any_device (f : FILE) :
  f_pos f = 0 ->
  f_data (detect_patch_type f).2 = f_data f
  /\ 0 <= f_pos (detect_patch_type f).2
  /\ ((detect_patch_type f).1 = PATCH_TYPE_BPS ->
      take 4 (f_data f) = BPS_EXPECTED_MARKER).
Proof.
  intros Hpos. unfold detect_patch_type, ips_verify_marker.
  pose proof (patch_verify_marker_data f IPS_EXPECTED_MARKER IPS_MARKER_SIZE)
    as Hd1.
  pose proof (patch_verify_marker_pos f IPS_EXPECTED_MARKER IPS_MARKER_SIZE
                ltac:(lia)) as Hp1.
  destruct (patch_verify_marker f IPS_EXPECTED_MARKER IPS_MARKER_SIZE)
    as [rc1 f1]. cbn [fst snd] in *.
  destruct (patch_err_eqb rc1 PATCH_OK); [done|].
  unfold fseek. destruct (next_outcome f1); cbn [Z.eqb]; [|done].
  set (f2 := mkFILE _ _ _ _ _ _). unfold bps_verify_marker.
  pose proof (patch_verify_marker_data f2 BPS_EXPECTED_MARKER
                (size BPS_EXPECTED_MARKER)) as Hd2.
  pose proof (patch_verify_marker_pos f2 BPS_EXPECTED_MARKER
                (size BPS_EXPECTED_MARKER) ltac:(done)) as Hp2.
  destruct (patch_verify_marker f2 BPS_EXPECTED_MARKER (size BPS_EXPECTED_MARKER))
    as [rc2 f3] eqn:E2. cbn [fst snd] in *.
  destruct (patch_err_eqb rc2 PATCH_OK) eqn:Hrc2; cbn [fst snd].
  - apply patch_err_eqb_ok in Hrc2 as ->.
    apply patch_verify_marker_ok in E2; [|done].
    split; [by rewrite Hd2|]. split; [done|]. intros _. by rewrite <- Hd1.
  - split; [by rewrite Hd2|]. by split.
Qed.

(** ** The controller, for any BPS decoder *)

Lemma last_count_default (a b : Z) (s : rombp_patch_status)
    (l : list rombp_patch_status) :
  default a (hunk_count <$> last (s :: l))
  = default b (hunk_count <$> last (s :: l)).
Proof. revert s. induction l as [|s' l IH]; intros s; [done|]. apply IH. Qed.

Lemma last_count_cons (c : Z) (s : rombp_patch_status)
    (l : list rombp_patch_status) :
  default c (hunk_count <$> last (s :: l))
  = default (hunk_count s) (hunk_count <$> last l).
Proof. destruct l as [|s' l]; [done|]. apply (last_count_default c _ s' l). Qed.

Lemma counts_from_app (c : Z) (l1 l2 : list rombp_patch_status) :
  counts_from c (l1 ++ l2)
  <-> counts_from c l1
      /\ counts_from (default c (hunk_count <$> last l1)) l2.
Proof.
  revert c. induction l1 as [|s l1 IH]; intros c; cbn [app counts_from].
  { cbn. tauto. }
  rewrite IH, last_count_cons. tauto.
Qed.

Lemma next_count_nonneg (l : list rombp_patch_status) : 0 <= next_count l.
Proof.
  induction l as [|s l IH]; cbn; [lia|]. destruct (iter_status s); lia.
Qed.

(** The counter after a sequence of published records is the number of
    [HUNK_NEXT] records in it, modulo 2^64, more than before. *)
Lemma counts_from_last (c : Z) (l : list rombp_patch_status) :
  0 <= c < 2 ^ 64 -> counts_from c l ->
  default c (hunk_count <$> last l) = (c + next_count l) mod 2 ^ 64.
Proof.
  revert c. induction l as [|s l IH]; intros c Hc Hl.
  { cbn. rewrite Z.add_0_r, Z.mod_small; lia. }
  destruct Hl as [Hs Hl].
  assert (Hrange : 0 <= hunk_count s < 2 ^ 64).
  { rewrite Hs. destruct (iter_status s); try lia.
    apply Z.mod_pos_bound. lia. }
  specialize (IH (hunk_count s) Hrange Hl).
  rewrite last_count_cons, IH. cbn [next_count].
  destruct (iter_status s); rewrite Hs; try done.
  rewrite Z.add_mod_idemp_l by lia. f_equal. lia.
Qed.

Section ControllerShape.

Context {bps_file_header : Type}.
Variable bps_start :
  FILE -> bps_file_header -> rombp_patch_err * bps_file_header * FILE.
Variable bps_next :
  bps_file_header -> files -> rombp_hunk_iter_status * bps_file_header * files.
Variable bps_end :
  bps_file_header -> FILE -> rombp_patch_err * bps_file_header * FILE.

Lemma patch_loop_none_spins (fuel : nat) (patch_type : rombp_patch_type)
    (w : worker bps_file_header) :
  iter_status (w_local w) = HUNK_NONE ->
  patch_loop bps_next bps_end fuel patch_type w = None.
Proof.
  intros Hst. induction fuel as [|fuel IH]; [done|].
  cbn [patch_loop]. by rewrite Hst.
Qed.

(** The records the iteration publishes: [HUNK_NEXT] records, then one
    record with the status that ends the iteration, all with the error the
    iteration started with. *)
Lemma patch_loop_record_shape (fuel : nat) (patch_type : rombp_patch_type)
    (w w' : worker bps_file_header) :
  iter_status (w_local w) = HUNK_NEXT ->
  patch_loop bps_next bps_end fuel patch_type w = Some w' ->
  exists nexts s_last,
    w_shared w' = w_shared w ++ nexts ++ [s_last]
    /\ Forall (fun s => iter_status s = HUNK_NEXT
                        /\ err s = err (w_local w)) nexts
    /\ err s_last = err (w_local w)
    /\ (iter_status s_last = HUNK_DONE
        \/ iter_status s_last = HUNK_ERR_IO /\ err (w_local w') = PATCH_ERR_IO)
    /\ iter_status (w_local w') = iter_status s_last
    /\ hunk_count (w_local w') = hunk_count s_last.
Proof.
  revert w. induction fuel as [|fuel IH]; intros w Hst Hrun; [done|].
  cbn [patch_loop] in Hrun. rewrite Hst in Hrun.
  destruct (next_hunk _ _ _ _) as [[[st ctx] fs]|]; [|done].
  set (local := match st with
                | HUNK_NEXT => incr_hunk_count (set_iter_status (w_local w) st)
                | _ => set_iter_status (w_local w) st
                end) in *.
  assert (Hl : iter_status local = st /\ err local = err (w_local w))
    by (unfold local; by destruct st).
  destruct Hl as [Hl1 Hl2].
  destruct st.
  - rewrite patch_loop_none_spins in Hrun; done.
  - apply IH in Hrun as (nexts & s_last & Hsh & Hn & He & Hend & Hi & Hc);
      [|done].
    cbn [w_shared w_local] in *.
    exists (local :: nexts), s_last. split.
    { rewrite Hsh. unfold rombp_update_patch_status.
      by rewrite <- !(assoc_L (++)). }
    split.
    { constructor; [done|]. eapply Forall_impl; [exact Hn|].
      intros s [? ?]. split; [done|]. congruence. }
    split; [congruence|]. done.
  - destruct fuel as [|fuel]; [done|].
    cbn [patch_loop w_local] in Hrun. rewrite Hl1 in Hrun.
    destruct (end_patch _ _ _ _) as [[e ctx'] fs'].
    injection Hrun as <-. cbn [w_shared w_local].
    exists [], local. split; [done|]. split; [constructor|].
    split; [done|]. split; [by left|]. done.
  - destruct fuel as [|fuel]; [done|].
    cbn [patch_loop w_local] in Hrun. rewrite Hl1 in Hrun.
    injection Hrun as <-. cbn [w_shared w_local w_ctx].
    exists [], local. split; [done|]. split; [constructor|].
    split; [done|]. split; [by right|]. done.
Qed.

Lemma execute_patch_record_shape (fuel : nat) (ctx : bps_file_header)
    (command : rombp_patch_command) (status : shared_status)
    (r : patch_run) :
  execute_patch bps_start bps_next bps_end fuel ctx command status = Some r ->
  exists earlier final,
    run_shared r = status ++ earlier ++ [final]
    /\ Forall (fun s => err s = PATCH_OK /\ is_done s = false) earlier
    /\ (forall i s, earlier !! i = Some s -> (S i < length earlier)%nat ->
                    iter_status s = HUNK_NEXT)
    /\ (forall s, last earlier = Some s ->
                  iter_status s = iter_status final
                  /\ hunk_count s = hunk_count final)
    /\ is_done final = true /\ err final = run_err r
    /\ (iter_status final = HUNK_DONE \/ iter_status final = HUNK_ERR_IO)
    /\ (iter_status final = HUNK_ERR_IO -> run_err r = PATCH_ERR_IO).
Proof.
  unfold execute_patch.
  destruct (open_patch_files command) as [e [fs|]] eqn:Hopen.
  2:{ intros [= <-]. exists [], (mk_status 0 HUNK_DONE e true). cbn.
      split; [done|]. split; [constructor|]. do 2 (split; [done|]).
      do 2 (split; [done|]). split; [by left|]. done. }
  assert (He : e = PATCH_OK).
  { unfold open_patch_files in Hopen.
    repeat case_match; by simplify_eq. }
  subst e.
  destruct (detect_patch_type _) as [patch_type p].
  destruct patch_type.
  { intros [= <-].
    exists [], (mk_status 0 HUNK_DONE PATCH_UNKNOWN_TYPE true). cbn.
    split; [done|]. split; [constructor|]. do 2 (split; [done|]).
    do 2 (split; [done|]). split; [by left|]. done. }
  all: destruct (start_patch _ _ _ _) as [[[rc ctx'] fs']|]; [|done].
  all: destruct (rc <? 0).
  all: try (intros [= <-];
            exists [], (mk_status 0 HUNK_DONE PATCH_FAILED_TO_START true); cbn;
            split; [done|]; split; [constructor|]; do 2 (split; [done|]);
            do 2 (split; [done|]); split; [by left|]; done).
  all: destruct (patch_loop _ _ _ _ _) as [w'|] eqn:Hloop; [|done].
  all: intros [= <-].
  all: pose proof (patch_loop_published _ _ _ _ _ _ Hloop)
         as (pubs & Hsh0 & Hnd & Hd & _).
  all: apply patch_loop_record_shape in Hloop
         as (nexts & s_last & Hsh & Hn & He & Hend & Hi & Hc); [|done].
  all: cbn [w_shared w_local set_iter_status set_err is_done err] in *.
  all: assert (pubs = nexts ++ [s_last]) as ->
         by (rewrite Hsh in Hsh0; by apply app_inv_head in Hsh0).
  all: exists (nexts ++ [s_last]), (set_is_done (w_local w')).
  all: cbn [run_shared run_err patch_done is_done err set_is_done iter_status
            hunk_count].
  all: unfold rombp_update_patch_status.
  all: rewrite Hsh, <- !(assoc_L (++)).
  all: split; [done|].
  all: split;
         [ apply Forall_app in Hnd as [Hnd1 Hnd2]; apply Forall_app; split;
           [ apply Forall_forall; intros s Hs;
             rewrite Forall_forall in Hn, Hnd1;
             split; [by apply Hn | by apply Hnd1]
           | constructor; [|constructor];
             split; [done | by inversion Hnd2] ] |].
  all: split;
         [ intros i s Hs Hlt; rewrite length_app in Hlt; cbn in Hlt;
           rewrite lookup_app_l in Hs by lia;
           rewrite Forall_forall in Hn;
           by apply Hn, list_elem_of_lookup; exists i |].
  all: split; [intros s; rewrite last_snoc; by intros [= <-]|].
  all: do 2 (split; [done|]).
  all: rewrite Hi.
  all: split; [destruct Hend as [?|[? _]]; [by left | by right]|].
  all: intros Herr; destruct Hend as [Hdn|[_ ?]]; [congruence|done].
Qed.

(** What an observer can see of an apply: no error is published before the
    record that is done; every record but the last two reports
    [HUNK_NEXT]; the last two agree on the status and on the count; the
    last status is [HUNK_DONE] or [HUNK_ERR_IO], and [HUNK_ERR_IO] comes
    with the error [PATCH_ERR_IO]. *)
Theorem published_records_shape (fuel : nat) (ctx : bps_file_header)
    (command : rombp_patch_command) (status : shared_status)
    (r : patch_run) :
  execute_patch bps_start bps_next bps_end fuel ctx command status = Some r ->
  exists earlier final,
    run_shared r = status ++ earlier ++ [final]
    /\ Forall (fun s => err s = PATCH_OK /\ is_done s = false) earlier
    /\ (forall i s, earlier !! i = Some s -> (S i < length earlier)%nat ->
                    iter_status s = HUNK_NEXT)
    /\ (forall s, last earlier = Some s ->
                  iter_status s = iter_status final
                  /\ hunk_count s = hunk_count final)
    /\ is_done final = true /\ err final = run_err r
    /\ (iter_status final = HUNK_DONE \/ iter_status final = HUNK_ERR_IO)
    /\ (iter_status final = HUNK_ERR_IO -> run_err r = PATCH_ERR_IO).
Proof. apply execute_patch_record_shape. Qed.


(** The count an apply ends with is the number of records it published
    with [HUNK_NEXT], modulo 2^64: every hunk or action the decoder
    reported is counted once, and nothing else is. *)
Theorem final_hunk_count_is_number_of_next_records (fuel : nat)
    (ctx : bps_file_header) (command : rombp_patch_command)
    (status : shared_status) (r : patch_run) :
  execute_patch bps_start bps_next bps_end fuel ctx command status = Some r ->
  exists earlier final,
    run_shared r = status ++ earlier ++ [final]
    /\ hunk_count final = next_count earlier mod 2 ^ 64.
Proof.
  intros Hrun.
  pose proof (execute_patch_published _ _ _ _ _ _ _ _ Hrun)
    as (pubs & final & Hsh & _ & _ & _ & Hc).
  apply execute_patch_record_shape in Hrun
    as (earlier & final' & Hsh' & _ & _ & Hlast & _ & _ & Hend & _).
  assert (Heq : pubs ++ [final] = earlier ++ [final'])
    by (rewrite Hsh in Hsh'; by apply app_inv_head in Hsh').
  apply app_inj_tail in Heq as [-> ->].
  exists earlier, final'. split; [done|].
  apply counts_from_app in Hc as [Hc1 Hc2].
  pose proof (counts_from_last 0 earlier ltac:(lia) Hc1) as Hl.
  rewrite Z.add_0_l in Hl. rewrite <- Hl.
  destruct Hc2 as [Hf _]. rewrite Hf.
  destruct Hend as [-> | ->]; done.
Qed.

(** An apply whose patch is not a BPS patch always ends, whatever the
    device does to the three streams: within [length patch + 2] turns of
    the loop, and with one of the four errors an IPS apply can end with. *)
Theorem apply_without_bps_marker_terminates (src patch : list byte)
    (faults_in faults_out faults_patch : list io_outcome) (fuel : nat)
    (ctx : bps_file_header) (status : shared_status) :
  take 4 patch <> BPS_EXPECTED_MARKER ->
  (length patch + 2 <= fuel)%nat ->
  exists r,
    execute_patch bps_start bps_next bps_end fuel ctx
      (mk_command (Some (fopen_r src faults_in)) (Some (fopen_w faults_out))
         (Some (fopen_r patch faults_patch)))
      status
    = Some r
    /\ (run_err r = PATCH_OK \/ run_err r = PATCH_ERR_IO
        \/ run_err r = PATCH_UNKNOWN_TYPE \/ run_err r = PATCH_FAILED_TO_START).
Proof.
  intros Hbps Hfuel. unfold execute_patch.
  cbn [open_patch_files input_file output_file ips_file patch_stream
       input_stream output_stream].
  pose proof (detect_patch_type_any_device (fopen_r patch faults_patch) eq_refl)
    as (Hd & Hp & Hb).
  destruct (detect_patch_type (fopen_r patch faults_patch)) as [ty p].
  cbn [fst snd] in *.
  destruct ty.
  - eexists. split; [reflexivity|]. cbn. tauto.
  - cbn [start_patch input_stream output_stream patch_stream].
    destruct (ips_start_any_device src faults_in faults_out)
      as (e & fin & fout & -> & He & _).
    destruct He as [-> | ->]; cbn [patch_err_eqb negb Z.ltb Z.compare].
    2:{ eexists. split; [reflexivity|]. cbn. tauto. }
    set (w := mk_worker _ _ _ _).
    destruct (patch_loop_ips_exit bps_next bps_end fuel w)
      as (w' & fs_last & st & -> & _ & _ & _ & Hc); try done.
    { cbn. unfold remaining. rewrite length_drop, Hd. cbn [f_data fopen_r]. lia. }
    eexists. split; [reflexivity|]. cbn.
    destruct Hc as [(_ & _ & ->)|(_ & _ & ->)]; tauto.
  - by specialize (Hb eq_refl).
Qed.

(** The observer and the worker: whatever an apply published, the pass of
    [ui_loop] that reads the last record leaves the patching state; it
    joins the worker thread exactly when the last status is [HUNK_DONE],
    so never after an iteration that ended with [HUNK_ERR_IO]; and on
    every earlier record it goes on polling, unless that record already
    reports [HUNK_ERR_IO]. *)
Theorem ui_loop_poll_on_published_records (fuel : nat)
    (ctx : bps_file_header) (command : rombp_patch_command)
    (status : shared_status) (r : patch_run) :
  execute_patch bps_start bps_next bps_end fuel ctx command status = Some r ->
  exists earlier final,
    run_shared r = status ++ earlier ++ [final]
    /\ patching (ui_loop_poll final) = false
    /\ frees_command (ui_loop_poll final) = true
    /\ (joins_thread (ui_loop_poll final) = true
        <-> iter_status final = HUNK_DONE)
    /\ (run_err r = PATCH_OK ->
        bar_text (ui_loop_poll final)
        = Some (PATCH_SUCCESS_MESSAGE (hunk_count final)))
    /\ Forall (fun s => joins_thread (ui_loop_poll s) = false
                        /\ (patching (ui_loop_poll s) = false ->
                            iter_status s = HUNK_ERR_IO)) earlier.
Proof.
  intros Hrun.
  apply execute_patch_record_shape in Hrun
    as (earlier & final & Hsh & Hearly & _ & _ & Hdone & Herr & Hend & Hio).
  exists earlier, final. split; [done|].
  unfold ui_loop_poll. rewrite Hdone.
  split; [by destruct Hend as [-> | ->]|].
  split; [by destruct Hend as [-> | ->]|].
  split; [destruct Hend as [Hs | Hs]; rewrite Hs; by split|].
  split.
  - intros Hok. destruct Hend as [Hs | Hs].
    + rewrite Hs. cbn. by rewrite Herr, Hok.
    + specialize (Hio Hs). congruence.
  - eapply Forall_impl; [exact Hearly|]. intros s [_ Hnd]. cbn beta.
    rewrite Hnd. by destruct (iter_status s).
Qed.

End ControllerShape.

Section CommandLineFacts.

Context {bps_file_header : Type}.
Variable err_code : rombp_patch_err -> Z.
Variable bps_start :
  FILE -> bps_file_header -> rombp_patch_err * bps_file_header * FILE.
Variable bps_next :
  bps_file_header -> files -> rombp_hunk_iter_status * bps_file_header * files.
Variable bps_end :
  bps_file_header -> FILE -> rombp_patch_err * bps_file_header * FILE.

(** Once the command is parsed and the worker thread created and joined,
    what [execute_command_line] returns is the value [execute_patch]
    returned in the worker, whatever the numbers of the error codes are:
    the exit with -1, taken when the worker did not register itself as
    done, is never taken after an apply that returned. *)
Theorem execute_command_line_returns_the_error_code (fuel : nat)
    (ctx : bps_file_header) (command : rombp_patch_command) (r : patch_run) :
  execute_patch bps_start bps_next bps_end fuel ctx command [] = Some r ->
  execute_command_line err_code bps_start bps_next bps_end fuel ctx
    (Some command) 0 0
  = Some (err_code (run_err r)).
Proof.
  intros Hrun.
  unfold execute_command_line. rewrite Hrun. cbn [Z.eqb negb].
  apply execute_patch_published in Hrun
    as (pubs & final & Hsh & _ & Hdone & _).
  unfold rombp_read_patch_status. rewrite take_ge by done.
  rewrite Hsh. cbn [app]. rewrite last_snoc.
  change (default patch_status_init (Some final)) with final. rewrite Hdone.
  cbn [negb]. by destruct (Z.eqb_spec (err_code (run_err r)) 0) as [-> | ?].
Qed.

End CommandLineFacts.

(** ** ui.c: [replace_extension] *)

Lemma byte_eqb_true (a b : byte) : Byte.eqb a b = true <-> a = b.
Proof. split; [apply Byte.byte_dec_bl | apply Byte.byte_dec_lb]. Qed.

Lemma byte_eqb_false (a b : byte) : Byte.eqb a b = false <-> a <> b.
Proof.
  rewrite <- byte_eqb_true. destruct (Byte.eqb a b); split; congruence.
Qed.

Lemma scan_goes_on (c : byte) :
  negb (Byte.eqb c Byte.x2e) && negb (Byte.eqb c Byte.x5c)
    && negb (Byte.eqb c Byte.x2f) = true
  <-> ~ stops_scan c.
Proof.
  rewrite !andb_true_iff, !negb_true_iff, !byte_eqb_false.
  unfold stops_scan. tauto.
Qed.

Lemma scan_stops_here (c : byte) :
  negb (Byte.eqb c Byte.x2e) && negb (Byte.eqb c Byte.x5c)
    && negb (Byte.eqb c Byte.x2f) = false
  <-> stops_scan c.
Proof.
  rewrite !andb_false_iff, !negb_false_iff, !byte_eqb_true.
  unfold stops_scan. tauto.
Qed.

Lemma char_at_end (s : list byte) (i : nat) :
  (length s <= i)%nat -> char_at s i = Byte.x00.
Proof. intros Hi. unfold char_at. by rewrite nth_lookup, lookup_ge_None_2. Qed.

Lemma char_at_lookup (s : list byte) (i : nat) (x : byte) :
  s !! i = Some x -> char_at s i = x.
Proof. apply nth_lookup_Some. Qed.

Lemma scan_back_le (s : list byte) (n : nat) : (scan_back s n <= n)%nat.
Proof.
  induction n as [|n IH]; cbn [scan_back]; [done|].
  destruct (_ && _); lia.
Qed.

Lemma scan_back_stops (s : list byte) (n p : nat) :
  scan_back s n = S p -> stops_scan (char_at s (S p)).
Proof.
  induction n as [|n IH]; cbn [scan_back]; [done|].
  destruct (_ && _) eqn:E; [done|]. intros [= <-].
  by apply scan_stops_here.
Qed.

Lemma scan_back_above (s : list byte) (n j : nat) :
  (scan_back s n < j <= n)%nat -> ~ stops_scan (char_at s j).
Proof.
  induction n as [|n IH]; cbn [scan_back]; [lia|].
  destruct (_ && _) eqn:E; [|lia]. intros Hj.
  destruct (decide (j = S n)) as [->|Hne]; [by apply scan_goes_on|].
  apply IH. lia.
Qed.

Lemma scan_back_found (s : list byte) (n p : nat) :
  (0 < p <= n)%nat -> stops_scan (char_at s p) ->
  (forall j, (p < j <= n)%nat -> ~ stops_scan (char_at s j)) ->
  scan_back s n = p.
Proof.
  intros Hp Hstop Habove. induction n as [|n IH]; [lia|].
  cbn [scan_back]. destruct (decide (p = S n)) as [->|Hne].
  - apply scan_stops_here in Hstop. by rewrite Hstop.
  - assert (E : ~ stops_scan (char_at s (S n))) by (apply Habove; lia).
    apply scan_goes_on in E. rewrite E. apply IH; [lia|].
    intros j Hj. apply Habove. lia.
Qed.

Lemma nul_goes_on : ~ stops_scan Byte.x00.
Proof. by intros [?|[?|?]]. Qed.

Lemma replace_extension_success (stem ext new_ext : list byte) (c : byte) :
  ~ is_separator c -> Forall (fun x => ~ stops_scan x) ext ->
  replace_extension (stem ++ c :: Byte.x2e :: ext) new_ext
  = Some (stem ++ c :: new_ext).
Proof.
  intros Hc Hext. set (input := stem ++ c :: Byte.x2e :: ext).
  set (p := S (length stem)).
  assert (Hlen : length input = (p + 1 + length ext)%nat)
    by (unfold input, p; rewrite length_app; cbn [length]; lia).
  assert (Hdot : input !! p = Some Byte.x2e).
  { unfold input, p. rewrite lookup_app_r by lia.
    by replace (S (length stem) - length stem)%nat with 1%nat by lia. }
  assert (Hprev : input !! length stem = Some c)
    by (unfold input; by rewrite list_lookup_middle).
  assert (Hscan : scan_back input (length input) = p).
  { apply scan_back_found; [lia| |].
    - rewrite (char_at_lookup _ _ _ Hdot). by left.
    - intros j Hj. destruct (decide (j = length input)) as [->|Hne].
      + rewrite char_at_end by done. apply nul_goes_on.
      + assert (Hj' : input !! j = ext !! (j - p - 1)%nat).
        { unfold input, p. rewrite lookup_app_r by lia.
          replace (j - length stem)%nat with (S (S (j - S (length stem) - 1)))
            by lia. done. }
        destruct (lookup_lt_is_Some_2 ext (j - p - 1)%nat ltac:(lia)) as [x Hx].
        rewrite Hx in Hj'. rewrite (char_at_lookup _ _ _ Hj').
        rewrite Forall_forall in Hext. apply Hext.
        apply list_elem_of_lookup. by eexists. }
  unfold replace_extension. rewrite Hscan.
  rewrite (char_at_lookup _ _ _ Hdot).
  replace (p - 1)%nat with (length stem) by (unfold p; lia).
  rewrite (char_at_lookup _ _ _ Hprev).
  assert (Byte.eqb c Byte.x5c = false) as ->
    by (apply byte_eqb_false; intros ->; apply Hc; by left).
  assert (Byte.eqb c Byte.x2f = false) as ->
    by (apply byte_eqb_false; intros ->; apply Hc; by right).
  cbn. f_equal. unfold input.
  rewrite (take_S_r _ _ c) by (by rewrite list_lookup_middle).
  rewrite take_app_length. by rewrite <- (assoc_L (++)).
Qed.

Lemma replace_extension_inv (input new_ext out : list byte) :
  replace_extension input new_ext = Some out ->
  exists stem c ext,
    input = stem ++ c :: Byte.x2e :: ext
    /\ ~ is_separator c /\ Forall (fun x => ~ stops_scan x) ext
    /\ out = stem ++ c :: new_ext.
Proof.
  unfold replace_extension.
  set (p := scan_back input (length input)).
  destruct (_ && _) eqn:E; [|done]. intros [= <-].
  rewrite !andb_true_iff, !negb_true_iff, !byte_eqb_false, byte_eqb_true in E.
  destruct E as [[Hp Hdot] [H5c H2f]]. apply Nat.ltb_lt in Hp.
  pose proof (scan_back_le input (length input)) as Hle. fold p in Hle.
  assert (Hlt : (p < length input)%nat).
  { destruct (decide (p = length input)) as [Heq|?]; [|lia].
    rewrite char_at_end in Hdot by lia. done. }
  destruct p as [|q] eqn:Hpq; [lia|].
  replace (S q - 1)%nat with q in * by lia.
  destruct (lookup_lt_is_Some_2 input q ltac:(lia)) as [c Hc].
  destruct (lookup_lt_is_Some_2 input (S q) ltac:(lia)) as [d Hd].
  rewrite (char_at_lookup _ _ _ Hc) in H5c, H2f.
  rewrite (char_at_lookup _ _ _ Hd) in Hdot. subst d.
  exists (take q input), c, (drop (S (S q)) input).
  split; [|split; [|split]].
  - rewrite <- (drop_S _ _ _ Hd). by rewrite take_drop_middle.
  - by intros [?|?].
  - apply Forall_forall. intros x Hx.
    apply list_elem_of_lookup in Hx as [i Hi]. rewrite lookup_drop in Hi.
    rewrite <- (char_at_lookup _ _ _ Hi).
    apply (scan_back_above input (length input)).
    apply lookup_lt_Some in Hi. fold p. rewrite Hpq. lia.
  - by rewrite (take_S_r _ _ _ Hc), <- (assoc_L (++)).
Qed.

(** [replace_extension] succeeds exactly on an input that has a ['.']
    after which no ['.'] and no path separator follows, and before which
    stands a character that is not a path separator; the output then is the
    input up to that ['.'], followed by the new extension. *)
Theorem replace_extension_succeeds_iff (input new_ext out : list byte) :
  replace_extension input new_ext = Some out
  <-> exists stem c ext,
        input = stem ++ c :: Byte.x2e :: ext
        /\ ~ is_separator c /\ Forall (fun x => ~ stops_scan x) ext
        /\ out = stem ++ c :: new_ext.
Proof.
  split; [apply replace_extension_inv|].
  intros (stem & c & ext & -> & Hc & Hext & ->).
  by apply replace_extension_success.
Qed.

(** The last character a scan stops on splits a string in one way only. *)
Lemma last_stop_unique (l1 l2 t1 t2 : list byte) (a b : byte) :
  l1 ++ a :: t1 = l2 ++ b :: t2 ->
  Forall (fun x => ~ stops_scan x) t1 ->
  Forall (fun x => ~ stops_scan x) t2 ->
  stops_scan a -> stops_scan b -> l1 = l2 /\ a = b /\ t1 = t2.
Proof.
  intros Heq H1 H2 Ha Hb.
  assert (Hlen : length t1 = length t2).
  { destruct (Nat.lt_trichotomy (length t1) (length t2)) as [Hlt|[?|Hlt]];
      [|done|]; exfalso.
    - assert (Hin : a ∈ t2).
      { apply list_elem_of_lookup.
        exists (length t2 - length t1 - 1)%nat.
        assert (Hl : (l2 ++ b :: t2) !! length l1 = Some a)
          by (rewrite <- Heq; apply list_lookup_middle; done).
        apply (f_equal length) in Heq.
        rewrite !length_app in Heq. cbn [length] in Heq.
        rewrite lookup_app_r in Hl by lia.
        replace (length l1 - length l2)%nat
          with (S (length t2 - length t1 - 1)) in Hl by lia.
        done. }
      rewrite Forall_forall in H2. by apply (H2 a).
    - assert (Hin : b ∈ t1).
      { apply list_elem_of_lookup.
        exists (length t1 - length t2 - 1)%nat.
        assert (Hl : (l1 ++ a :: t1) !! length l2 = Some b)
          by (rewrite Heq; apply list_lookup_middle; done).
        apply (f_equal length) in Heq.
        rewrite !length_app in Heq. cbn [length] in Heq.
        rewrite lookup_app_r in Hl by lia.
        replace (length l2 - length l1)%nat
          with (S (length t1 - length t2 - 1)) in Hl by lia.
        done. }
      rewrite Forall_forall in H1. by apply (H1 b). }
  apply app_inj_2 in Heq as [? [= ? ?]]; [done|].
  cbn [length]. by rewrite Hlen.
Qed.

(** An extension is replaced once and for all: when the new extension is a
    ['.'] followed by neither ['.'] nor a path separator, the output of
    [replace_extension] is mapped to itself, and an input that already
    ends with the new extension is its own output.  So a patch whose name
    ends with the extension of the output file gets its own path as output
    path. *)
Theorem replace_extension_is_idempotent (input ext out : list byte) :
  Forall (fun x => ~ stops_scan x) ext ->
  replace_extension input (Byte.x2e :: ext) = Some out ->
  replace_extension out (Byte.x2e :: ext) = Some out
  /\ (forall stem, input = stem ++ Byte.x2e :: ext -> out = input).
Proof.
  intros Hext Hrun.
  apply replace_extension_inv in Hrun as (stem & c & ext' & -> & Hc & Hext' & ->).
  split; [by apply replace_extension_success|].
  intros stem' Heq.
  assert (Heq' : (stem ++ [c]) ++ Byte.x2e :: ext' = stem' ++ Byte.x2e :: ext)
    by (by rewrite <- (assoc_L (++))).
  apply last_stop_unique in Heq' as (_ & _ & ->); try done; by left.
Qed.

(** The name of a file in a directory, as [ui_handle_select] builds it
    with [concat_path]: a name without ['.'], or whose only ['.'] is its
    first character, has no extension to replace, whatever the directory
    is called. *)
Theorem replace_extension_fails_without_extension (dir name ext new_ext
    : list byte) :
  Forall (fun x => ~ stops_scan x) ext ->
  name = ext \/ name = Byte.x2e :: ext ->
  replace_extension (concat_path dir name) new_ext = None.
Proof.
  intros Hext Hname.
  destruct (replace_extension (concat_path dir name) new_ext) as [out|] eqn:E;
    [|done].
  apply replace_extension_inv in E as (stem & c & ext' & Heq & Hc & Hext' & _).
  exfalso. unfold concat_path in Heq. cbn [app] in Heq.
  destruct Hname as [-> | ->].
  - assert (Heq' : dir ++ Byte.x2f :: ext = (stem ++ [c]) ++ Byte.x2e :: ext')
      by (by rewrite <- (assoc_L (++))).
    apply last_stop_unique in Heq' as (_ & Hbad & _); try done;
      [by right; right | by left].
  - assert (Heq' : (dir ++ [Byte.x2f]) ++ Byte.x2e :: ext
                   = (stem ++ [c]) ++ Byte.x2e :: ext')
      by (by rewrite <- !(assoc_L (++))).
    apply last_stop_unique in Heq' as (Hpre & _ & _); try done; try by left.
    apply app_inj_tail in Hpre as [_ <-]. apply Hc. by right.
Qed.

(** The output path of a patch: for a file [stem.ext] picked in a
    directory, where the stem is not empty and the extension holds neither
    ['.'] nor a path separator, the output path [ui_handle_select] derives
    is [stem.smc] in the same directory. *)
Theorem output_path_is_next_to_the_patch (dir stem ext : list byte)
    (c : byte) :
  ~ is_separator c -> Forall (fun x => ~ stops_scan x) ext ->
  replace_extension (concat_path dir (stem ++ c :: Byte.x2e :: ext))
    smc_extension
  = Some (concat_path dir (stem ++ c :: smc_extension)).
Proof.
  intros Hc Hext. unfold concat_path.
  rewrite !(assoc_L (++) dir), !(assoc_L (++) (dir ++ [Byte.x2f])).
  by apply replace_extension_success.
Qed.

(** ** ui.c: the cursor of the menu *)

Lemma ui_handle_key_keeps_cursor_ok (count size : Z) (ui : menu_cursor)
    (key : menu_key) :
  0 < count -> 0 < size -> cursor_ok count size ui ->
  cursor_ok count size (ui_handle_key count size ui key).
Proof.
  intros Hcount Hsize [Hitem Hoff]. unfold cursor_ok, ui_handle_key.
  destruct (Z.eqb_spec size (Z.min count size)); destruct key;
    repeat match goal with
      | |- context [?a =? ?b] => destruct (Z.eqb_spec a b)
      end;
    cbn [negb selected_item selected_offset]; lia.
Qed.

(** Whatever arrow keys are pressed after a directory with at least one
    entry was read, the highlighted row stays on the screen and the index
    of the highlighted entry stays inside the listing: the entry
    [ui_handle_select] reads always exists. *)
Theorem menu_cursor_stays_in_the_listing (count size : Z)
    (keys : list menu_key) :
  0 < count -> 0 < size ->
  let ui := foldl (ui_handle_key count size) cursor_after_scan keys in
  cursor_ok count size ui /\ 0 <= selected_entry ui < size.
Proof.
  intros Hcount Hsize.
  assert (Hok : cursor_ok count size
                  (foldl (ui_handle_key count size) cursor_after_scan keys)).
  { assert (H0 : cursor_ok count size cursor_after_scan)
      by (unfold cursor_ok; cbn; lia).
    revert H0. generalize cursor_after_scan.
    induction keys as [|key keys IH]; intros ui Hui; [done|].
    cbn [foldl]. apply IH. by apply ui_handle_key_keeps_cursor_ok. }
  cbn zeta. split; [done|].
  destruct Hok as [Hitem Hoff]. unfold selected_entry. lia.
Qed.

(** The down key walks through the whole listing: pressed [k] times after
    a directory was read, it highlights entry [k], and the last entry once
    [k] reaches the end of the listing; so every entry can be selected,
    also when the listing is longer than the screen. *)
Theorem down_key_reaches_every_entry (count size : Z) (k : nat) :
  0 < count -> 0 < size ->
  selected_entry
    (foldl (ui_handle_key count size) cursor_after_scan (replicate k SDLK_DOWN))
  = Z.min (Z.of_nat k) (size - 1).
Proof.
  intros Hcount Hsize.
  set (nitems := Z.min count size).
  assert (Hshape :
    foldl (ui_handle_key count size) cursor_after_scan (replicate k SDLK_DOWN)
    = mk_cursor (Z.min (Z.of_nat k) (nitems - 1))
        (Z.max 0 (Z.min (Z.of_nat k - (nitems - 1)) (size - nitems)))).
  { induction k as [|k IH].
    - cbn. unfold cursor_after_scan. f_equal; unfold nitems; lia.
    - rewrite replicate_S_end, foldl_app, IH. cbn [foldl].
      unfold ui_handle_key. fold nitems.
      cbn [selected_item selected_offset].
      destruct (Z.eqb_spec size nitems);
      repeat match goal with
        | |- context [?a =? ?b] => destruct (Z.eqb_spec a b)
        end;
        cbn [negb]; f_equal; unfold nitems in *; lia. }
  rewrite Hshape. unfold selected_entry, nitems.
  cbn [selected_item selected_offset]. lia.
Qed.

(** ** The further statements at concrete inputs *)

Lemma ips_next_hunk_header_decodes_the_preamble_witness :
  0 <= 2 < 2 ^ 24 /\ 0 <= 2 < 2 ^ 16
  /\ healthy (fopen_r (u24_be 2 ++ u16_be 2 ++ [Byte.xab; Byte.xcd]) [])
  /\ remaining (fopen_r (u24_be 2 ++ u16_be 2 ++ [Byte.xab; Byte.xcd]) [])
     = u24_be 2 ++ u16_be 2 ++ [Byte.xab; Byte.xcd]
  /\ exists ips',
       ips_next_hunk_header
         (fopen_r (u24_be 2 ++ u16_be 2 ++ [Byte.xab; Byte.xcd]) [])
         (mk_hunk_header 0 0)
       = (HUNK_NEXT, mk_hunk_header 2 2, ips')
       /\ healthy ips' /\ remaining ips' = [Byte.xab; Byte.xcd]
       /\ f_pos ips'
          = f_pos (fopen_r (u24_be 2 ++ u16_be 2 ++ [Byte.xab; Byte.xcd]) []) + 5.
Proof.
  assert (Hh : healthy (fopen_r (u24_be 2 ++ u16_be 2 ++ [Byte.xab; Byte.xcd]) []))
    by (repeat split; cbn; lia).
  split; [lia|]. split; [lia|]. split; [exact Hh|]. split; [reflexivity|].
  apply (ips_next_hunk_header_decodes_the_preamble 2 2 [Byte.xab; Byte.xcd]);
    [lia | lia | exact Hh | reflexivity].
Defined.

Lemma ips_next_truncated_raw_payload_witness :
  0 <= 2 < 2 ^ 24 /\ 0 < 4 < 2 ^ 16 /\ size [Byte.xab] < 4
  /\ exists out' ips',
       ips_next
         (mk_files (fopen_r [] []) (fopen_w [])
            (fopen_r (u24_be 2 ++ u16_be 4 ++ [Byte.xab]) []))
       = Some (HUNK_ERR_IO, mk_files (fopen_r [] []) out' ips')
       /\ f_data out' = [].
Proof.
  split; [lia|]. split; [lia|]. split; [reflexivity|].
  destruct (ips_next_truncated_raw_payload 2 4 [Byte.xab]
              (mk_files (fopen_r [] []) (fopen_w [])
                 (fopen_r (u24_be 2 ++ u16_be 4 ++ [Byte.xab]) [])))
    as (out' & ips' & Hrun & Hd & _);
    [lia | lia | reflexivity | repeat split; cbn; lia | repeat split; cbn; lia
    | reflexivity |].
  exists out', ips'. split; [exact Hrun|]. exact Hd.
Defined.

Lemma ips_next_truncated_rle_payload_witness :
  0 <= 2 < 2 ^ 24 /\ size [Byte.x00; Byte.x04] < RLE_PAYLOAD_BYTE_SIZE
  /\ exists out' ips',
       ips_next
         (mk_files (fopen_r [] []) (fopen_r scenario_source [])
            (fopen_r (u24_be 2 ++ u16_be 0 ++ [Byte.x00; Byte.x04]) []))
       = Some (HUNK_ERR_IO, mk_files (fopen_r [] []) out' ips')
       /\ f_data out' = scenario_source.
Proof.
  split; [lia|]. split; [reflexivity|].
  destruct (ips_next_truncated_rle_payload 2 [Byte.x00; Byte.x04]
              (mk_files (fopen_r [] []) (fopen_r scenario_source [])
                 (fopen_r (u24_be 2 ++ u16_be 0 ++ [Byte.x00; Byte.x04]) [])))
    as (out' & ips' & Hrun & Hd & _);
    [lia | reflexivity | repeat split; cbn; lia | repeat split; cbn; lia
    | reflexivity |].
  exists out', ips'. split; [exact Hrun|]. exact Hd.
Defined.

Lemma ips_next_changes_only_the_hunk_range_witness :
  hunk_ok (Raw 2 [Byte.xab; Byte.xcd])
  /\ exists out' ips',
       ips_next
         (mk_files (fopen_r [] []) (fopen_r scenario_source [])
            (fopen_r (encode_hunk (Raw 2 [Byte.xab; Byte.xcd]) ++ EOF_TAG) []))
       = Some (HUNK_NEXT, mk_files (fopen_r [] []) out' ips')
       /\ f_data out' !! 3%nat = Some Byte.xcd
       /\ f_data out' !! 4%nat = Some Byte.x00
       /\ length (f_data out') = 5%nat.
Proof.
  assert (Hok : hunk_ok (Raw 2 [Byte.xab; Byte.xcd]))
    by (unfold hunk_ok, size; cbn [length]; lia).
  split; [exact Hok|].
  destruct (ips_next_changes_only_the_hunk_range (Raw 2 [Byte.xab; Byte.xcd])
              EOF_TAG
              (mk_files (fopen_r [] []) (fopen_r scenario_source [])
                 (fopen_r (encode_hunk (Raw 2 [Byte.xab; Byte.xcd]) ++ EOF_TAG)
                    [])) Hok)
    as (out' & ips' & Hrun & _ & Hin & Hout & _ & Hlen);
    [repeat split; cbn; lia | repeat split; cbn; lia | reflexivity |].
  exists out', ips'. split; [exact Hrun|]. split; [|split].
  - apply (Hin 1%nat Byte.xcd). reflexivity.
  - apply (Hout 4%nat Byte.x00); [reflexivity|].
    unfold covers, hunk_offset, hunk_bytes, size. cbn [length]. lia.
  - rewrite Hlen; [reflexivity | discriminate].
Defined.

Lemma published_records_shape_witness :
  exists r,
    execute_patch no_bps_start no_bps_next no_bps_end 3 tt
      (sound_command scenario_source scenario_raw_patch) [] = Some r
    /\ exists earlier final,
         run_shared r = [] ++ earlier ++ [final]
         /\ Forall (fun s => err s = PATCH_OK /\ is_done s = false) earlier
         /\ (forall i s, earlier !! i = Some s -> (S i < length earlier)%nat ->
                         iter_status s = HUNK_NEXT)
         /\ (forall s, last earlier = Some s ->
                       iter_status s = iter_status final
                       /\ hunk_count s = hunk_count final)
         /\ is_done final = true /\ err final = run_err r
         /\ (iter_status final = HUNK_DONE \/ iter_status final = HUNK_ERR_IO)
         /\ (iter_status final = HUNK_ERR_IO -> run_err r = PATCH_ERR_IO).
Proof.
  eexists. split; [vm_compute; reflexivity|].
  apply (published_records_shape no_bps_start no_bps_next no_bps_end
           3 tt (sound_command scenario_source scenario_raw_patch) []).
  vm_compute. reflexivity.
Defined.

Lemma final_hunk_count_is_number_of_next_records_witness :
  exists r,
    execute_patch no_bps_start no_bps_next no_bps_end 3 tt
      (sound_command scenario_source scenario_raw_patch) [] = Some r
    /\ exists earlier final,
         run_shared r = [] ++ earlier ++ [final]
         /\ hunk_count final = next_count earlier mod 2 ^ 64.
Proof.
  eexists. split; [vm_compute; reflexivity|].
  apply (final_hunk_count_is_number_of_next_records
           no_bps_start no_bps_next no_bps_end
           3 tt (sound_command scenario_source scenario_raw_patch) []).
  vm_compute. reflexivity.
Defined.

(** The second read of the patch file fails after two bytes: the apply
    still ends. *)
Lemma apply_without_bps_marker_terminates_witness :
  take 4 scenario_raw_patch <> BPS_EXPECTED_MARKER
  /\ (length scenario_raw_patch + 2 <= 17)%nat
  /\ exists r,
       execute_patch no_bps_start no_bps_next no_bps_end 17 tt
         (mk_command (Some (fopen_r scenario_source [])) (Some (fopen_w []))
            (Some (fopen_r scenario_raw_patch [IoOk; IoFail 2])))
         []
       = Some r
       /\ (run_err r = PATCH_OK \/ run_err r = PATCH_ERR_IO
           \/ run_err r = PATCH_UNKNOWN_TYPE
           \/ run_err r = PATCH_FAILED_TO_START).
Proof.
  split; [discriminate|]. split; [vm_compute; lia|].
  apply (apply_without_bps_marker_terminates no_bps_start no_bps_next no_bps_end);
    [discriminate | vm_compute; lia].
Defined.

Lemma ui_loop_poll_on_published_records_witness :
  exists r,
    execute_patch no_bps_start no_bps_next no_bps_end 3 tt
      (sound_command scenario_source scenario_raw_patch) [] = Some r
    /\ exists earlier final,
         run_shared r = [] ++ earlier ++ [final]
         /\ patching (ui_loop_poll final) = false
         /\ frees_command (ui_loop_poll final) = true
         /\ (joins_thread (ui_loop_poll final) = true
             <-> iter_status final = HUNK_DONE)
         /\ (run_err r = PATCH_OK ->
             bar_text (ui_loop_poll final)
             = Some (PATCH_SUCCESS_MESSAGE (hunk_count final)))
         /\ Forall (fun s => joins_thread (ui_loop_poll s) = false
                             /\ (patching (ui_loop_poll s) = false ->
                                 iter_status s = HUNK_ERR_IO)) earlier.
Proof.
  eexists. split; [vm_compute; reflexivity|].
  apply (ui_loop_poll_on_published_records no_bps_start no_bps_next no_bps_end
           3 tt (sound_command scenario_source scenario_raw_patch) []).
  vm_compute. reflexivity.
Defined.

Lemma execute_command_line_returns_the_error_code_witness :
  exists r,
    execute_patch no_bps_start no_bps_next no_bps_end 3 tt
      (sound_command scenario_source scenario_raw_patch) [] = Some r
    /\ execute_command_line err_code_in_order
         no_bps_start no_bps_next no_bps_end 3 tt
         (Some (sound_command scenario_source scenario_raw_patch)) 0 0
       = Some (err_code_in_order (run_err r)).
Proof.
  eexists. split; [vm_compute; reflexivity|].
  apply (execute_command_line_returns_the_error_code err_code_in_order
           no_bps_start no_bps_next no_bps_end 3 tt
           (sound_command scenario_source scenario_raw_patch)).
  vm_compute. reflexivity.
Defined.

Lemma replace_extension_is_idempotent_witness :
  Forall (fun x => ~ stops_scan x) [Byte.x73; Byte.x6d; Byte.x63]
  /\ replace_extension [Byte.x61; Byte.x2e; Byte.x69; Byte.x70; Byte.x73]
       smc_extension
     = Some [Byte.x61; Byte.x2e; Byte.x73; Byte.x6d; Byte.x63]
  /\ replace_extension [Byte.x61; Byte.x2e; Byte.x73; Byte.x6d; Byte.x63]
       smc_extension
     = Some [Byte.x61; Byte.x2e; Byte.x73; Byte.x6d; Byte.x63].
Proof.
  assert (Hext : Forall (fun x => ~ stops_scan x)
                   [Byte.x73; Byte.x6d; Byte.x63])
    by (repeat constructor; intros [H|[H|H]]; discriminate H).
  split; [exact Hext|]. split; [reflexivity|].
  apply (replace_extension_is_idempotent
           [Byte.x61; Byte.x2e; Byte.x69; Byte.x70; Byte.x73]
           [Byte.x73; Byte.x6d; Byte.x63]
           [Byte.x61; Byte.x2e; Byte.x73; Byte.x6d; Byte.x63] Hext).
  reflexivity.
Defined.

(** A patch called [.x] in directory [a.b]: the ['.'] of the directory is
    not taken for an extension. *)
Lemma replace_extension_fails_without_extension_witness :
  Forall (fun x => ~ stops_scan x) [Byte.x78]
  /\ replace_extension
       (concat_path [Byte.x61; Byte.x2e; Byte.x62] [Byte.x2e; Byte.x78])
       smc_extension
     = None.
Proof.
  assert (Hext : Forall (fun x => ~ stops_scan x) [Byte.x78])
    by (repeat constructor; intros [H|[H|H]]; discriminate H).
  split; [exact Hext|].
  apply (replace_extension_fails_without_extension
           [Byte.x61; Byte.x2e; Byte.x62] [Byte.x2e; Byte.x78] [Byte.x78]
           smc_extension Hext).
  right. reflexivity.
Defined.

Lemma output_path_is_next_to_the_patch_witness :
  ~ is_separator Byte.x61
  /\ Forall (fun x => ~ stops_scan x) [Byte.x69; Byte.x70; Byte.x73]
  /\ replace_extension
       (concat_path [Byte.x64]
          ([] ++ Byte.x61 :: Byte.x2e :: [Byte.x69; Byte.x70; Byte.x73]))
       smc_extension
     = Some (concat_path [Byte.x64] ([] ++ Byte.x61 :: smc_extension)).
Proof.
  assert (Hc : ~ is_separator Byte.x61) by (intros [H|H]; discriminate H).
  assert (Hext : Forall (fun x => ~ stops_scan x)
                   [Byte.x69; Byte.x70; Byte.x73])
    by (repeat constructor; intros [H|[H|H]]; discriminate H).
  split; [exact Hc|]. split; [exact Hext|].
  apply (output_path_is_next_to_the_patch [Byte.x64] []
           [Byte.x69; Byte.x70; Byte.x73] Byte.x61 Hc Hext).
Defined.

Lemma menu_cursor_stays_in_the_listing_witness :
  0 < 3 /\ 0 < 5
  /\ cursor_ok 3 5
       (foldl (ui_handle_key 3 5) cursor_after_scan
          [SDLK_DOWN; SDLK_DOWN; SDLK_DOWN; SDLK_UP; SDLK_UP; SDLK_UP; SDLK_UP])
  /\ 0 <= selected_entry
            (foldl (ui_handle_key 3 5) cursor_after_scan
               [SDLK_DOWN; SDLK_DOWN; SDLK_DOWN; SDLK_UP; SDLK_UP; SDLK_UP;
                SDLK_UP])
       < 5.
Proof.
  split; [lia|]. split; [lia|].
  apply (menu_cursor_stays_in_the_listing 3 5
           [SDLK_DOWN; SDLK_DOWN; SDLK_DOWN; SDLK_UP; SDLK_UP; SDLK_UP;
            SDLK_UP]); lia.
Defined.

Lemma down_key_reaches_every_entry_witness :
  0 < 3 /\ 0 < 5
  /\ selected_entry
       (foldl (ui_handle_key 3 5) cursor_after_scan (replicate 4 SDLK_DOWN))
     = Z.min (Z.of_nat 4) (5 - 1).
Proof.
  split; [lia|]. split; [lia|].
  apply (down_key_reaches_every_entry 3 5 4); lia.
Defined.

(** ** ui.c: what [draw_menu] reads *)

Lemma cursor_ok_after_keys (count size : Z) (keys : list menu_key)
    (ui : menu_cursor) :
  0 < count -> 0 < size -> cursor_ok count size ui ->
  cursor_ok count size (foldl (ui_handle_key count size) ui keys).
Proof.
  intros Hcount Hsize. revert ui.
  induction keys as [|key keys IH]; intros ui Hui; [done|].
  cbn [foldl]. apply IH. by apply ui_handle_key_keeps_cursor_ok.
Qed.

(** Whatever arrow keys were pressed after a directory with at least one
    entry was read, [draw_menu] draws one entry for each row up to the
    smaller of the screen and the listing, every entry it reads exists,
    and the entry it draws in the highlighted row is the one
    [ui_handle_select] would pick. *)
Theorem draw_menu_reads_inside_the_listing (count size : Z)
    (keys : list menu_key) :
  0 < count -> 0 < size ->
  let ui := foldl (ui_handle_key count size) cursor_after_scan keys in
  length (draw_menu_entries count size ui) = Z.to_nat (Z.min count size)
  /\ Forall (fun j => 0 <= j < size) (draw_menu_entries count size ui)
  /\ draw_menu_entries count size ui !! Z.to_nat (selected_item ui)
     = Some (selected_entry ui).
Proof.
  intros Hcount Hsize.
  assert (H0 : cursor_ok count size cursor_after_scan)
    by (unfold cursor_ok; cbn; lia).
  pose proof (cursor_ok_after_keys count size keys _ Hcount Hsize H0)
    as [Hitem Hoff].
  cbn zeta. unfold draw_menu_entries, selected_entry.
  remember (foldl (ui_handle_key count size) cursor_after_scan keys) as ui.
  clear Hequi. split; [|split].
  - by rewrite length_fmap, length_seqZ.
  - apply Forall_forall. intros j Hj.
    apply list_elem_of_fmap in Hj as (i & -> & Hi).
    apply elem_of_seqZ in Hi. lia.
  - rewrite list_lookup_fmap, lookup_seqZ_lt by lia. cbn.
    f_equal. lia.
Qed.

(** ** ui.c: the order of a listing *)

(** On directories and regular files [dir_alphasort] is an order whenever
    [alphasort] is one: exchanging the arguments exchanges the sign, the
    comparison is transitive, and every directory comes before every
    regular file. *)
Theorem dir_alphasort_orders_directories_and_files
    (alphasort : dirent -> dirent -> Z) (a b c : dirent) :
  (forall x y, alphasort x y < 0 <-> 0 < alphasort y x) ->
  (forall x y z, alphasort x y <= 0 -> alphasort y z <= 0 ->
                 alphasort x z <= 0) ->
  dir_or_reg a -> dir_or_reg b -> dir_or_reg c ->
  (dir_alphasort alphasort a b < 0 <-> 0 < dir_alphasort alphasort b a)
  /\ (dir_alphasort alphasort a b <= 0 -> dir_alphasort alphasort b c <= 0 ->
      dir_alphasort alphasort a c <= 0)
  /\ (d_type a = DT_DIR -> d_type b = DT_REG ->
      dir_alphasort alphasort a b < 0).
Proof.
  intros Hsign Htrans Ha Hb Hc. unfold dir_alphasort.
  pose proof (Hsign a b). pose proof (Htrans a b c).
  destruct Ha as [-> | ->], Hb as [-> | ->], Hc as [-> | ->];
    (split; [|split]); try lia; try done.
Qed.

(** With an entry that is neither a directory nor a regular file the
    comparison is no order: when the names of a regular file, of such an
    entry and of a directory come in this order for [alphasort], each of
    the three entries compares as smaller than the next one, round in a
    circle. *)
Theorem dir_alphasort_cycle_with_a_third_type
    (alphasort : dirent -> dirent -> Z) (a b c : dirent) :
  d_type a = DT_DIR -> d_type b = DT_REG ->
  d_type c <> DT_DIR -> d_type c <> DT_REG ->
  alphasort b c < 0 -> alphasort c a < 0 ->
  dir_alphasort alphasort a b < 0
  /\ dir_alphasort alphasort b c < 0
  /\ dir_alphasort alphasort c a < 0.
Proof.
  intros Ha Hb Hc1 Hc2 Hbc Hca. unfold dir_alphasort. rewrite Ha, Hb.
  destruct (d_type c); done.
Qed.

(** ** The streams [execute_patch] closes *)

Lemma times_closed_app (f : nat) (l1 l2 : list nat) :
  Handles.times_closed f (l1 ++ l2)
  = (Handles.times_closed f l1 + Handles.times_closed f l2)%nat.
Proof. unfold Handles.times_closed. by rewrite filter_app, length_app. Qed.

Lemma times_closed_here (f : nat) (l : list nat) :
  Handles.times_closed f (f :: l) = S (Handles.times_closed f l).
Proof. unfold Handles.times_closed. by rewrite filter_cons_True. Qed.

Lemma times_closed_other (f g : nat) (l : list nat) :
  g <> f -> Handles.times_closed f (g :: l) = Handles.times_closed f l.
Proof. intros Hg. unfold Handles.times_closed. by rewrite filter_cons_False. Qed.

(** When the source opens, [execute_patch] closes it twice or more exactly
    when the output or the patch does not open: [open_patch_files] closes
    what it had opened and leaves the pointers in the variables, and the
    [close_files] after [done] closes them again.  The same happens to an
    output that opened when the patch does not.  The streams are taken to
    be different from each other; what the variables held before does not
    matter. *)
Theorem source_stream_closed_twice_iff_an_open_fails
    (vars : Handles.pointers) (i : nat)
    (fopen_output fopen_ips : Handles.file_ptr) :
  fopen_output <> Handles.Stream i -> fopen_ips <> Handles.Stream i ->
  ((2 <= Handles.times_closed i
           (Handles.execute_patch vars (Handles.Stream i)
              fopen_output fopen_ips))%nat
   <-> fopen_output = Handles.NULL \/ fopen_ips = Handles.NULL)
  /\ (forall o,
        fopen_output = Handles.Stream o -> fopen_ips = Handles.NULL ->
        (2 <= Handles.times_closed o
                (Handles.execute_patch vars (Handles.Stream i)
                   fopen_output fopen_ips))%nat).
Proof.
  intros Ho Hp. unfold Handles.execute_patch, Handles.open_patch_files.
  cbn [Handles.input_file Handles.output_file Handles.patch_file].
  destruct fopen_output as [|o].
  - split; [|done]. split; [by left|]. intros _.
    destruct (Handles.patch_file vars);
      cbn [Handles.close_files app Handles.input_file Handles.output_file
           Handles.patch_file];
      rewrite ?times_closed_app, !times_closed_here; lia.
  - destruct fopen_ips as [|p];
      cbn [Handles.close_files app Handles.input_file Handles.output_file
           Handles.patch_file].
    + split.
      * split; [by right|]. intros _.
        change [i; o; i; o] with ([i; o] ++ i :: [o]).
        rewrite times_closed_app, !times_closed_here. lia.
      * intros o' [= <-] _.
        change [i; o; i; o] with ([i] ++ o :: [i] ++ o :: []).
        rewrite times_closed_app, times_closed_here, times_closed_app,
          times_closed_here. lia.
    + split; [|done]. split; [|by intros [?|?]].
      rewrite times_closed_here, !times_closed_other by congruence.
      unfold Handles.times_closed. cbn. lia.
Qed.

(** ** Early ends of an apply *)


Section EarlyEnd.

Context {bps_file_header : Type}.
Variable bps_start :
  FILE -> bps_file_header -> rombp_patch_err * bps_file_header * FILE.
Variable bps_next :
  bps_file_header -> files -> rombp_hunk_iter_status * bps_file_header * files.
Variable bps_end :
  bps_file_header -> FILE -> rombp_patch_err * bps_file_header * FILE.

Lemma patch_loop_ips_err (fuel : nat) (w w' : worker bps_file_header) :
  patch_loop bps_next bps_end fuel PATCH_TYPE_IPS w = Some w' ->
  err (w_local w') = PATCH_OK \/ err (w_local w') = PATCH_ERR_IO.
Proof.
  revert w. induction fuel as [|fuel IH]; intros w Hrun; [done|].
  cbn [patch_loop] in Hrun.
  destruct (iter_status (w_local w)).
  - by apply IH in Hrun.
  - destruct (next_hunk _ _ _ _) as [[[st ctx] fs]|]; [|done].
    by apply IH in Hrun.
  - cbn [end_patch] in Hrun. injection Hrun as <-. by left.
  - injection Hrun as <-. by right.
Qed.

(** An IPS apply ends with [PATCH_FAILED_TO_START] exactly when the copy
    of the source fails; it has then published one record and read
    nothing of the patch behind the marker, and what it leaves in the
    output is a prefix of the source. *)
Theorem ips_apply_fails_to_start_iff_copy_fails (src body : list byte)
    (faults_in faults_out : list io_outcome) (fuel : nat)
    (ctx : bps_file_header) (status : shared_status) (r : patch_run) :
  execute_patch bps_start bps_next bps_end fuel ctx
    (mk_command (Some (fopen_r src faults_in)) (Some (fopen_w faults_out))
       (Some (fopen_r (IPS_EXPECTED_MARKER ++ body) [])))
    status
  = Some r ->
  (run_err r = PATCH_FAILED_TO_START
   <-> exists fin fout,
         ips_start (fopen_r src faults_in) (fopen_w faults_out)
         = Some (PATCH_ERR_IO, fin, fout))
  /\ (run_err r = PATCH_FAILED_TO_START ->
      run_shared r
      = status ++ [mk_status 0 HUNK_DONE PATCH_FAILED_TO_START true]
      /\ exists fs,
           run_files r = Some fs
           /\ remaining (patch_stream fs) = body
           /\ exists n, f_data (output_stream fs) = take n src).
Proof.
  unfold execute_patch.
  cbn [open_patch_files input_file output_file ips_file patch_stream
       input_stream output_stream].
  destruct (detect_patch_type_ips body) as (ips & -> & _ & Hrem).
  cbn [start_patch input_stream output_stream patch_stream].
  destruct (ips_start_any_device src faults_in faults_out)
    as (e & fin & fout & -> & He & _ & Hpre & _).
  destruct He as [-> | ->]; cbn [patch_err_eqb negb Z.ltb Z.compare].
  - destruct (patch_loop _ _ _ _ _) as [w'|] eqn:Hloop; [|done].
    intros [= <-]. cbn [patch_done run_err set_is_done err].
    apply patch_loop_ips_err in Hloop.
    split; [split|].
    + intros Hr. destruct Hloop; congruence.
    + intros (? & ? & [=]).
    + intros Hr. destruct Hloop; congruence.
  - intros [= <-]. cbn. split; [split|]; [by eauto | done |].
    intros _. split; [done|]. eexists. split; [done|]. by cbn.
Qed.

End EarlyEnd.

(** ** The statements of the last sections at concrete inputs *)

Lemma draw_menu_reads_inside_the_listing_witness :
  0 < 3 /\ 0 < 5
  /\ length (draw_menu_entries 3 5
               (foldl (ui_handle_key 3 5) cursor_after_scan
                  [SDLK_DOWN; SDLK_DOWN; SDLK_DOWN]))
     = Z.to_nat (Z.min 3 5)
  /\ Forall (fun j => 0 <= j < 5)
       (draw_menu_entries 3 5
          (foldl (ui_handle_key 3 5) cursor_after_scan
             [SDLK_DOWN; SDLK_DOWN; SDLK_DOWN]))
  /\ draw_menu_entries 3 5
       (foldl (ui_handle_key 3 5) cursor_after_scan
          [SDLK_DOWN; SDLK_DOWN; SDLK_DOWN])
     !! Z.to_nat
          (selected_item
             (foldl (ui_handle_key 3 5) cursor_after_scan
                [SDLK_DOWN; SDLK_DOWN; SDLK_DOWN]))
     = Some (selected_entry
               (foldl (ui_handle_key 3 5) cursor_after_scan
                  [SDLK_DOWN; SDLK_DOWN; SDLK_DOWN])).
Proof.
  split; [lia|]. split; [lia|].
  apply (draw_menu_reads_inside_the_listing 3 5
           [SDLK_DOWN; SDLK_DOWN; SDLK_DOWN]); lia.
Defined.

(** A directory [b], and the regular files [a] and [c]. *)
Lemma dir_alphasort_orders_directories_and_files_witness :
  (forall x y, alphasort_first_char x y < 0 <-> 0 < alphasort_first_char y x)
  /\ (forall x y z,
        alphasort_first_char x y <= 0 -> alphasort_first_char y z <= 0 ->
        alphasort_first_char x z <= 0)
  /\ dir_or_reg (mk_dirent DT_DIR [Byte.x62])
  /\ dir_or_reg (mk_dirent DT_REG [Byte.x61])
  /\ dir_or_reg (mk_dirent DT_REG [Byte.x63])
  /\ dir_alphasort alphasort_first_char
       (mk_dirent DT_DIR [Byte.x62]) (mk_dirent DT_REG [Byte.x61]) < 0.
Proof.
  assert (Hsign : forall x y,
             alphasort_first_char x y < 0 <-> 0 < alphasort_first_char y x)
    by (intros x y; unfold alphasort_first_char; lia).
  assert (Htrans : forall x y z,
             alphasort_first_char x y <= 0 -> alphasort_first_char y z <= 0 ->
             alphasort_first_char x z <= 0)
    by (intros x y z; unfold alphasort_first_char; lia).
  assert (Ha : dir_or_reg (mk_dirent DT_DIR [Byte.x62])) by (left; reflexivity).
  assert (Hb : dir_or_reg (mk_dirent DT_REG [Byte.x61]))
    by (right; reflexivity).
  assert (Hc : dir_or_reg (mk_dirent DT_REG [Byte.x63]))
    by (right; reflexivity).
  do 5 (split; [assumption|]).
  apply (dir_alphasort_orders_directories_and_files alphasort_first_char
           (mk_dirent DT_DIR [Byte.x62]) (mk_dirent DT_REG [Byte.x61])
           (mk_dirent DT_REG [Byte.x63]) Hsign Htrans Ha Hb Hc);
    reflexivity.
Defined.

(** A directory [z], a regular file [a] and a symbolic link [m]. *)
Lemma dir_alphasort_cycle_with_a_third_type_witness :
  dir_alphasort alphasort_first_char
    (mk_dirent DT_DIR [Byte.x7a]) (mk_dirent DT_REG [Byte.x61]) < 0
  /\ dir_alphasort alphasort_first_char
       (mk_dirent DT_REG [Byte.x61]) (mk_dirent DT_LNK [Byte.x6d]) < 0
  /\ dir_alphasort alphasort_first_char
       (mk_dirent DT_LNK [Byte.x6d]) (mk_dirent DT_DIR [Byte.x7a]) < 0.
Proof.
  apply (dir_alphasort_cycle_with_a_third_type alphasort_first_char
           (mk_dirent DT_DIR [Byte.x7a]) (mk_dirent DT_REG [Byte.x61])
           (mk_dirent DT_LNK [Byte.x6d]));
    [reflexivity | reflexivity | discriminate | discriminate
    | reflexivity | reflexivity].
Defined.

(** The output does not open: the source, stream 0, is closed twice. *)
Lemma source_stream_closed_twice_iff_an_open_fails_witness :
  Handles.NULL <> Handles.Stream 0
  /\ Handles.Stream 2 <> Handles.Stream 0
  /\ (2 <= Handles.times_closed 0
             (Handles.execute_patch
                (Handles.mk_pointers Handles.NULL Handles.NULL Handles.NULL)
                (Handles.Stream 0) Handles.NULL (Handles.Stream 2)))%nat.
Proof.
  assert (Ho : Handles.NULL <> Handles.Stream 0) by discriminate.
  assert (Hp : Handles.Stream 2 <> Handles.Stream 0) by discriminate.
  split; [exact Ho|]. split; [exact Hp|].
  destruct (source_stream_closed_twice_iff_an_open_fails
              (Handles.mk_pointers Handles.NULL Handles.NULL Handles.NULL)
              0%nat Handles.NULL (Handles.Stream 2) Ho Hp) as [[_ H] _].
  apply H. left. reflexivity.
Defined.


(** The size of the source cannot be read: the copy fails. *)
Lemma ips_apply_fails_to_start_iff_copy_fails_witness :
  exists r,
    execute_patch no_bps_start no_bps_next no_bps_end 0 tt
      (mk_command (Some (fopen_r scenario_source [IoFail 0]))
         (Some (fopen_w []))
         (Some (fopen_r (IPS_EXPECTED_MARKER ++ EOF_TAG) [])))
      []
    = Some r
    /\ (run_err r = PATCH_FAILED_TO_START
        <-> exists fin fout,
              ips_start (fopen_r scenario_source [IoFail 0]) (fopen_w [])
              = Some (PATCH_ERR_IO, fin, fout))
    /\ (run_err r = PATCH_FAILED_TO_START ->
        run_shared r
        = [] ++ [mk_status 0 HUNK_DONE PATCH_FAILED_TO_START true]
        /\ exists fs,
             run_files r = Some fs
             /\ remaining (patch_stream fs) = EOF_TAG
             /\ exists n, f_data (output_stream fs) = take n scenario_source).
Proof.
  eexists. split; [vm_compute; reflexivity|].
  apply (ips_apply_fails_to_start_iff_copy_fails
           no_bps_start no_bps_next no_bps_end
           scenario_source EOF_TAG [IoFail 0] [] 0 tt []).
  vm_compute. reflexivity.
Defined.
